(** * geoip: range index and Latin-1 transcoder

    A shallow embedding of the Go package [geoip] (kirabou/geoip) and the
    proofs of its specification's claims.

    Model:
    - [fileLatin1Reader.Read], the streaming ISO-8859-1 to UTF-8 reader,
      over an in-memory file with an offset, and the read loop of
      [TestLatin1Reader];
    - the ordered container the tables are kept in (package
      github.com/google/btree, imported by the sources);
    - [Block], [ASN], [Country] with their [Less] methods, the [Get]
      wrappers and the row loops of [LoadBlocksFile], [LoadASNFile],
      [LoadCountries] and [LoadLocFile];
    - the package variables, [init] past its call of
      [DownloadMaxmindFiles], and [GeoLocIPv4];
    - [ageFile], [download], [extractFile] and [DownloadMaxmindFiles], over
      what the file system, the network and the archives give.

    Unsigned 32-bit fields and bytes are integers of [Z]; a Go panic is the
    [Panic] outcome of the [result] type, and code that loops or recurses
    without a structural argument takes fuel. *)

From Stdlib Require Import ZArith Lia String Ascii.
From Stdlib Require OrderedTypeEx.
From stdpp Require Import base option list sorting.

Local Open Scope Z_scope.

(** ** Outcomes of Go code that may panic *)

Inductive panic_kind :=
| IndexOutOfRange
| BadDegree
| NilDereference.

Inductive result (A : Type) :=
| Ok (a : A)
| Panic (e : panic_kind)
| OutOfFuel.
Arguments Ok {A} a.
Arguments Panic {A} e.
Arguments OutOfFuel {A}.

#[global] Instance result_ret : MRet result := fun A a => Ok a.
#[global] Instance result_bind : MBind result := fun A B f m =>
  match m with
  | Ok a => f a
  | Panic e => Panic e
  | OutOfFuel => OutOfFuel
  end.

(** [s[i]] on a Go slice: a panic when [i] is out of range. *)
Definition index {A} (s : list A) (i : nat) : result A :=
  match s !! i with
  | Some x => Ok x
  | None => Panic IndexOutOfRange
  end.

(** ** The underlying file (os.File on a regular file) *)

Inductive error := EOF.

Record File := mkFile { content : list Z; pos : nat }.

(** [file.Read(buf)] with [len(buf) = len_b]: the bytes from the current
    offset, at most [len_b] of them; [0, io.EOF] when a non-empty buffer gets
    nothing; the offset moves past what was read. *)
Definition file_Read (f : File) (len_b : nat) : list Z * option error * File :=
  let data := take len_b (drop (pos f) (content f)) in
  let err := if (length data =? 0)%nat && negb (len_b =? 0)%nat then Some EOF else None in
  (data, err, mkFile (content f) (pos f + length data)).

(** [file.Seek(offset, 1)]: relative to the current offset; a negative
    target is an error and leaves the offset where it was (the caller drops
    the error). *)
Definition file_Seek (f : File) (offset : Z) : File :=
  let target := Z.of_nat (pos f) + offset in
  if target <? 0 then f else mkFile (content f) (Z.to_nat target).

(** ** fileLatin1Reader *)

Record fileLatin1Reader := mkReader { file : File; currentChar : Z }.

(** The two bytes written for a source byte [b >= 0x80]; the shift binds
    tighter than the or, as in Go. *)
Definition utf8_first (b : Z) : Z := Z.lor 0xC0 (Z.shiftr (Z.land b 0xC0) 6).
Definition utf8_second (b : Z) : Z := Z.lor 0x80 (Z.land b 0x3f).

(** The transfer loop [for i = 0; i<n; i++]: [buf] is what is left of the
    bytes read, [i] the loop counter, [out] the bytes written to [p] so far
    ([nb_written = length out]), [cur] the field [currentChar]. *)
Fixpoint transfer (len_p : nat) (buf : list Z) (i : nat) (out : list Z) (cur : Z)
  : nat * list Z * Z :=
  match buf with
  | [] => (i, out, cur)
  | b :: rest =>
      if (len_p <=? length out)%nat then (i, out, cur)
      else if b <? 0x80 then transfer len_p rest (S i) (out ++ [b]) cur
      else
        let out1 := out ++ [utf8_first b] in
        if (len_p <=? length out1)%nat
        then transfer len_p rest (S i) out1 (utf8_second b)
        else transfer len_p rest (S i) (out1 ++ [utf8_second b]) cur
  end.

(** [Read(p)] with [len(p) = len_p]. The result is the new reader, the bytes
    [p[:n]] and the error. *)
Definition Read (flr : fileLatin1Reader) (len_p : nat)
  : result (fileLatin1Reader * list Z * option error) :=
  let '(buf, err, f1) := file_Read (file flr) len_p in
  let n := length buf in
  '(out0, cur0) ←
    (if currentChar flr =? 0 then Ok ([], currentChar flr)
     else if (0 <? len_p)%nat then Ok ([currentChar flr], 0)
     else Panic IndexOutOfRange);
  let '(i, out, cur) := transfer len_p buf 0 out0 cur0 in
  let f2 := file_Seek f1 (Z.of_nat i - Z.of_nat n) in
  let flr' := mkReader f2 cur in
  match err with
  | Some EOF => if negb (cur =? 0) then Ok (flr', out, None) else Ok (flr', out, err)
  | None => Ok (flr', out, err)
  end.

(** The read loop of TestLatin1Reader:
    [for n, err := flr.Read(buf); n>0; n, err = flr.Read(buf)] with the
    bytes appended first and the loop left on any error. *)
Fixpoint drain (fuel : nat) (flr : fileLatin1Reader) (len_p : nat) (acc : list Z)
  : result (list Z) :=
  match fuel with
  | O => OutOfFuel
  | S fuel' =>
      '(flr', out, err) ← Read flr len_p;
      if (0 <? length out)%nat then
        match err with
        | Some _ => Ok (acc ++ out)
        | None => drain fuel' flr' len_p (acc ++ out)
        end
      else Ok acc
  end.

Definition open (bytes : list Z) : fileLatin1Reader := mkReader (mkFile bytes 0) 0.

(** Enough rounds for any file: every round but the last moves the offset or
    flushes the pending byte. *)
Definition read_all (bytes : list Z) (len_p : nat) : result (list Z) :=
  drain (2 * length bytes + 2) (open bytes) len_p [].

(** The expansion as the specification words it, byte by byte. *)
Definition expand_byte (b : Z) : list Z :=
  if b <? 0x80 then [b]
  else [Z.lor 0xC0 (Z.shiftr (Z.land b 0xC0) 6); Z.lor 0x80 (Z.land b 0x3F)].

Definition latin1_to_utf8 (src : list Z) : list Z := flat_map expand_byte src.

(** The pending byte as a list: nothing when the field is 0. *)
Definition pend (c : Z) : list Z := if c =? 0 then [] else [c].

(** Bytes that [currentChar] may hold. *)
Definition pending_ok (c : Z) : Prop := c = 0 \/ 0x80 <= c <= 0xBF.

(** Number of output bytes the specification asks for. *)
Definition utf8_len (src : list Z) : nat :=
  sum_list (map (fun b => if b <? 0x80 then 1%nat else 2%nat) src).

(** The bytes of TestLatin1Reader's sample. *)
Definition sample : list Z :=
  [0xc0; 0xc1; 0xc7; 0xc8; 0xc9; 65; 66; 67; 68; 0xca; 0xe0; 0xe1; 0xe2; 0xe7;
   0xe8; 0xe9; 0xea; 0xee; 0xef; 0xf2; 0xf4; 0xf9; 0xfb; 0xff; 0xae; 69].

(** Rounds the read loop still needs: two per unread source byte, one for a
    pending byte. *)
Definition rounds (flr : fileLatin1Reader) : nat :=
  2 * (length (content (file flr)) - pos (file flr)) +
  (if currentChar flr =? 0 then 0 else 1).

(** Readers a program can hold: the one just opened on [src], and the one
    left by any call of [Read] that returned. *)
Inductive reachable (src : list Z) : fileLatin1Reader -> Prop :=
| reachable_open : reachable src (open src)
| reachable_Read flr len_p flr' out err :
    reachable src flr ->
    Read flr len_p = Ok (flr', out, err) ->
    reachable src flr'.

Local Close Scope Z_scope.

(** ** The ordered container

    Modelled from the spec: the balanced ordered tree of section 4.1, which
    the sources import as the package github.com/google/btree and do not
    contain. It is searched through the comparator alone: two items match
    when neither is less than the other. The definitions below give the
    container the shape of that package ([sort.Search], [items.find],
    [node.split], [node.maybeSplitChild], [node.insert], [node.get],
    [ReplaceOrInsert], [Get], [Len]); everything the repository itself
    defines (the [Less] methods, the keys built by the [Get] wrappers, the
    loaders) is translated from the sources further down. *)

(** The interface [btree.Item]. *)
Class Item (A : Type) := Less : A -> A -> bool.

Section BTree.
Context {A : Type} {Item_A : Item A}.

(** [sort.Search(n, f)]: binary search for the least index in [0, n) at
    which [f] holds; the distance [j - i] shrinks in every round, so [n]
    rounds are enough. *)
Fixpoint search_loop (fuel : nat) (f : nat -> bool) (i j : nat) : nat :=
  match fuel with
  | O => i
  | S fuel' =>
      if i <? j then
        let h := (i + j) / 2 in
        if negb (f h) then search_loop fuel' f (h + 1) j
        else search_loop fuel' f i h
      else i
  end.

Definition Search (n : nat) (f : nat -> bool) : nat := search_loop n f 0 n.

(** [items.find]: the index where [item] belongs, and whether the item
    before it matches. [Search] only asks below [length s], and [i - 1] is
    an index of [s] when [0 < i], so the [None] branches are never taken. *)
Definition find (s : list A) (item : A) : nat * bool :=
  let i := Search (length s)
             (fun i => match s !! i with Some x => Less item x | None => false end) in
  match i with
  | S i' =>
      match s !! i' with
      | Some y => if negb (Less y item) then (i', true) else (i, false)
      | None => (i, false)
      end
  | O => (i, false)
  end.

#[warnings="-register-all"]
Inductive node := Node (items : list A) (children : list node).

Definition items (n : node) : list A := let 'Node its _ := n in its.
Definition children (n : node) : list node := let 'Node _ chs := n in chs.

(** [items.insertAt] and [children.insertAt]. *)
Definition insertAt {B} (s : list B) (i : nat) (x : B) : result (list B) :=
  if i <=? length s then Ok (take i s ++ x :: drop i s)
  else Panic IndexOutOfRange.

(** [n.split(i)]: the item at [i], the node cut down to what is before
    it, and a new node with what is after it. *)
Definition split (n : node) (i : nat) : result (A * node * node) :=
  let 'Node its chs := n in
  item ← index its i;
  match chs with
  | [] => Ok (item, Node (take i its) [], Node (drop (S i) its) [])
  | _ =>
      if S i <=? length chs
      then Ok (item, Node (take i its) (take (S i) chs),
                     Node (drop (S i) its) (drop (S i) chs))
      else Panic IndexOutOfRange
  end.

(** [n.maybeSplitChild(i, maxItems)]. *)
Definition maybeSplitChild (n : node) (i maxItems : nat) : result (node * bool) :=
  let 'Node its chs := n in
  c ← index chs i;
  if length (items c) <? maxItems then Ok (n, false)
  else
    '(item, first, second) ← split c (maxItems / 2);
    its' ← insertAt its i item;
    chs' ← insertAt (<[i := first]> chs) (S i) second;
    Ok (Node its' chs', true).

(** The call [n.children[i].insert(item, maxItems)] inside [insert], [rec]
    being the insertion into a child: the child is updated in place. *)
Definition descend (rec : node -> result (node * option A))
    (its : list A) (chs : list node) (i : nat) : result (node * option A) :=
  c ← index chs i;
  '(c', out) ← rec c;
  Ok (Node its (<[i := c']> chs), out).

(** [n.insert(item, maxItems)]: the node after the insertion and the item
    that was replaced, if any. One unit of fuel per level of the tree. *)
Fixpoint insert (fuel : nat) (n : node) (item : A) (maxItems : nat)
  : result (node * option A) :=
  match fuel with
  | O => OutOfFuel
  | S fuel' =>
      let 'Node its chs := n in
      let '(i, found) := find its item in
      if found then
        out ← index its i;
        Ok (Node (<[i := item]> its) chs, Some out)
      else if length chs =? 0 then
        its' ← insertAt its i item;
        Ok (Node its' chs, None)
      else
        '(n1, was_split) ← maybeSplitChild n i maxItems;
        let 'Node its1 chs1 := n1 in
        let rec := fun c => insert fuel' c item maxItems in
        if (was_split : bool) then
          inTree ← index its1 i;
          if Less item inTree then descend rec its1 chs1 i
          else if Less inTree item then descend rec its1 chs1 (S i)
          else Ok (Node (<[i := item]> its1) chs1, Some inTree)
        else descend rec its1 chs1 i
  end.

(** [n.get(key)]. *)
Fixpoint get (n : node) (key : A) : result (option A) :=
  let 'Node its chs := n in
  let '(i, found) := find its key in
  if found then x ← index its i; Ok (Some x)
  else if 0 <? length chs then
    (fix at_child (cs : list node) (j : nat) : result (option A) :=
       match cs, j with
       | [], _ => Panic IndexOutOfRange
       | c :: _, O => get c key
       | _ :: cs', S j' => at_child cs' j'
       end) chs i
  else Ok None.

Fixpoint height (n : node) : nat :=
  let 'Node _ chs := n in S (foldr Nat.max 0 (map height chs)).

(** The package's field [length] is [count] here, so that [length] stays
    the length of lists. *)
Record BTree := mkBTree { degree : nat; count : nat; root : option node }.

(** [btree.New(degree)]; a degree below 2 is refused by the package. *)
Definition New (degree : nat) : result BTree :=
  if degree <=? 1 then Panic BadDegree else Ok (mkBTree degree 0 None).

Definition maxItems (t : BTree) : nat := degree t * 2 - 1.

(** [t.ReplaceOrInsert(item)]. *)
Definition ReplaceOrInsert (t : BTree) (item : A) : result (BTree * option A) :=
  match root t with
  | None => Ok (mkBTree (degree t) (S (count t)) (Some (Node [item] [])), None)
  | Some r =>
      r1 ← (if maxItems t <=? length (items r) then
              '(item2, first, second) ← split r (maxItems t / 2);
              Ok (Node [item2] [first; second])
            else Ok r);
      '(r2, out) ← insert (height r1) r1 item (maxItems t);
      Ok (mkBTree (degree t)
                  (match out with None => S (count t) | Some _ => count t end)
                  (Some r2), out)
  end.

(** [t.Get(key)] and [t.Len()]. *)
Definition Get (t : BTree) (key : A) : result (option A) :=
  match root t with
  | None => Ok None
  | Some r => get r key
  end.

Definition Len (t : BTree) : nat := count t.

(** The loaders' loop body repeated: one [ReplaceOrInsert] per item. *)
Fixpoint insert_all (t : BTree) (l : list A) : result BTree :=
  match l with
  | [] => Ok t
  | x :: l' => '(t', _) ← ReplaceOrInsert t x; insert_all t' l'
  end.

End BTree.

Arguments node A : clear implicits.
Arguments BTree A : clear implicits.

(** ** Library functions the loaders call

    [strconv.ParseUint(s, 10, 32)] and [strconv.Atoi(s)] as the Go
    documentation gives them for base 10: decimal digits only, no
    underscore, a sign for [Atoi] alone; a value out of range is an error.
    [None] is a non-nil error. *)

Definition digit (c : ascii) : option Z :=
  let n := Z.of_N (N_of_ascii c) in
  if ((48 <=? n) && (n <=? 57))%Z then Some (n - 48)%Z else None.

Fixpoint digits (s : string) (acc : Z) : option Z :=
  match s with
  | EmptyString => Some acc
  | String c rest =>
      match digit c with
      | Some d => digits rest (10 * acc + d)%Z
      | None => None
      end
  end.

Definition ParseUint (s : string) (bitSize : Z) : option Z :=
  match s with
  | EmptyString => None
  | _ =>
      match digits s 0 with
      | Some v => if (v <? 2 ^ bitSize)%Z then Some v else None
      | None => None
      end
  end.

Definition Atoi (s : string) : option Z :=
  let unsigned (r : string) : option Z :=
    match r with
    | EmptyString => None
    | _ => digits r 0
    end in
  match s with
  | String "-" rest =>
      match unsigned rest with
      | Some v => if (v <=? 2 ^ 63)%Z then Some (- v)%Z else None
      | None => None
      end
  | String "+" rest =>
      match unsigned rest with
      | Some v => if (v <? 2 ^ 63)%Z then Some v else None
      | None => None
      end
  | _ =>
      match unsigned s with
      | Some v => if (v <? 2 ^ 63)%Z then Some v else None
      | None => None
      end
  end.

(** What [csv.Reader.Read] hands to [LoadLocFile] and [LoadCountries]: the
    records of the file, up to the end of the file or to the first record
    the reader refuses (these loaders leave their loop on either; an
    error they log first, on the writer that [countLine] has used by
    then). With [FieldsPerRecord = -1] a record may have any number of
    fields. *)
Definition rows := list (list string).

(** What one call of [r.Read()] returns before the end of the file, for
    the loaders of the range tables: the fields of a record, or an error
    for a line the reader refuses (without [LazyQuotes], a line with a
    quote inside a field that does not start with one is such a line). A
    file is the list of what the calls return in turn; after the last one
    the reader returns [io.EOF]. *)
Inductive csv_read :=
| Values (values : list string)
| ReadError.

Definition reads := list csv_read.

(** [*syslog.Writer]: the global [log_geolocip] is nil until [init] has
    opened the log. A method of the writer reads the fields of its
    receiver. *)
Inductive Writer := SyslogWriter.

Definition log (w : option Writer) : result unit :=
  match w with
  | Some _ => Ok tt
  | None => Panic NilDereference
  end.

(** ** Blocks *)

Module blocks.

Record Block := mkBlock { LowIP : Z; HighIP : Z; LocId : Z }.

(** [func (block Block) Less(than btree.Item) bool] *)
#[global] Instance Block_Less : Item Block :=
  fun block than => (HighIP block <? LowIP than)%Z.

Definition Blocks := BTree Block.

(** The loop of [LoadBlocksFile] over what [r.Read()] returns: it is left
    at [io.EOF], and at any other error after the error is logged; a record
    that has not three values, or a number that does not parse, goes on to
    the next record. *)
Fixpoint load (w : option Writer) (t : Blocks) (rs : reads) : result Blocks :=
  match rs with
  | [] => Ok t
  | ReadError :: _ => _ ← log w; Ok t
  | Values values :: rest =>
      match values with
      | [v0; v1; v2] =>
          match ParseUint v0 32 with
          | None => load w t rest
          | Some low_ip =>
              match ParseUint v1 32 with
              | None => load w t rest
              | Some high_ip =>
                  match ParseUint v2 32 with
                  | None => load w t rest
                  | Some loc_id =>
                      '(t', _) ← ReplaceOrInsert t (mkBlock low_ip high_ip loc_id);
                      load w t' rest
                  end
              end
          end
      | _ => load w t rest
      end
  end.

(** [LoadBlocksFile]: [None] for a file that cannot be opened. The result
    is the pair of Go values, a nil tree being [None] and a nil error
    [false]. *)
Definition LoadBlocksFile (w : option Writer) (file : option reads)
  : result (option Blocks * bool) :=
  match file with
  | None => _ ← log w; Ok (None, true)
  | Some rs =>
      t ← New 4;
      t' ← load w t rs;
      Ok (Some t', false)
  end.

(** [func (blocks *Blocks) Get(IP uint32) *Block] *)
Definition Get (blocks : Blocks) (IP : Z) : result (option Block) :=
  Get blocks (mkBlock IP IP 0).

End blocks.

(** ** ASN *)

Module asn.

(** The field [ASN] of the Go type is [Org] here: a record and its field
    cannot share a name. *)
Record ASN := mkASN { LowIP : Z; HighIP : Z; Org : string }.

(** [func (asn ASN) Less(than btree.Item) bool] *)
#[global] Instance ASN_Less : Item ASN :=
  fun asn than => (HighIP asn <? LowIP than)%Z.

Definition ASNs := BTree ASN.

(** The loop of [LoadASNFile] over what [r.Read()] returns, left at
    [io.EOF] and, after a log, at any other error. *)
Fixpoint load (w : option Writer) (t : ASNs) (rs : reads) : result ASNs :=
  match rs with
  | [] => Ok t
  | ReadError :: _ => _ ← log w; Ok t
  | Values values :: rest =>
      match values with
      | [v0; v1; v2] =>
          match ParseUint v0 32 with
          | None => load w t rest
          | Some low_ip =>
              match ParseUint v1 32 with
              | None => load w t rest
              | Some high_ip =>
                  '(t', _) ← ReplaceOrInsert t (mkASN low_ip high_ip v2);
                  load w t' rest
              end
          end
      | _ => load w t rest
      end
  end.

Definition LoadASNFile (w : option Writer) (file : option reads)
  : result (option ASNs * bool) :=
  match file with
  | None => _ ← log w; Ok (None, true)
  | Some rs =>
      t ← New 4;
      t' ← load w t rs;
      Ok (Some t', false)
  end.

(** [func (asns *ASNs) Get(IP uint32) *ASN] *)
Definition Get (asns : ASNs) (IP : Z) : result (option ASN) :=
  Get asns (mkASN IP IP "").

End asn.

(** ** Countries *)

Module countries.

Record Country := mkCountry { Code : string; Name : string }.

(** [func (country Country) Less(than btree.Item) bool]: Go compares
    strings byte by byte. *)
#[global] Instance Country_Less : Item Country :=
  fun country than => String.ltb (Code country) (Code than).

Definition Countries := BTree Country.

(** The loop of [LoadCountries] over the records of [countries_list],
    each a name followed by a code. *)
Fixpoint load (t : Countries) (rs : rows) : result Countries :=
  match rs with
  | [] => Ok t
  | values :: rest =>
      match values with
      | [v0; v1] =>
          '(t', _) ← ReplaceOrInsert t (mkCountry v1 v0);
          load t' rest
      | _ => load t rest
      end
  end.

Definition LoadCountries (countries_list : rows) : result Countries :=
  t ← New 4; load t countries_list.

(** [func (countries *Countries) Get(country_code string) *Country] *)
Definition Get (countries : Countries) (country_code : string)
  : result (option Country) :=
  Get countries (mkCountry country_code "").

End countries.

(** ** Regions

    Modelled from the spec: the file that declares [Regions], [LoadRegions]
    and [Regions.Get] is not among the sources; section 2 makes the region
    table the second exact-key use of the container, a code bound to a
    name, like the country table. *)

Module regions.

Record Region := mkRegion { Code : string; Name : string }.

#[global] Instance Region_Less : Item Region :=
  fun region than => String.ltb (Code region) (Code than).

Definition Regions := BTree Region.

Definition Get (regions : Regions) (code : string) : result (option Region) :=
  Get regions (mkRegion code "").

End regions.

(** ** Locations *)

Record Location := mkLocation {
  Country : string;
  Region : string;
  City : string;
  PostalCode : string;
  Latitude : string;
  Longitude : string;
  MetroCode : string;
  AreaCode : string
}.

Definition empty_Location : Location := mkLocation "" "" "" "" "" "" "" "".

(** [func (loc *Location) GetCountry() string] *)
Definition GetCountry (countries_tree : option countries.Countries) (loc : Location)
  : result string :=
  match countries_tree with
  | None => Ok ""%string
  | Some t =>
      country ← countries.Get t (Country loc);
      match country with
      | None => Ok ""%string
      | Some c => Ok (countries.Name c)
      end
  end.

(** [func (loc *Location) GetRegion() string] *)
Definition GetRegion (regions_tree : option regions.Regions) (loc : Location)
  : result string :=
  match regions_tree with
  | None => Ok ""%string
  | Some t =>
      region ← regions.Get t (Country loc ++ Region loc)%string;
      match region with
      | None => Ok ""%string
      | Some r => Ok (regions.Name r)
      end
  end.

(** [s[i]] with an integer index. *)
Definition index_Z {B} (s : list B) (i : Z) : result B :=
  if (i <? 0)%Z then Panic IndexOutOfRange else index s (Z.to_nat i).

(** The loop of [LoadLocFile] over the records of the file: [loc_list] is
    the slice made with [line_count] entries. The index [locId] is an [int];
    the store panics when it is negative or not below the length. *)
Fixpoint load_locations (loc_list : list Location) (rs : rows) : result (list Location) :=
  match rs with
  | [] => Ok loc_list
  | values :: rest =>
      match values with
      | [v0; v1; v2; v3; v4; v5; v6; v7; v8] =>
          match Atoi v0 with
          | None => load_locations loc_list rest
          | Some locId =>
              _ ← index_Z loc_list locId;
              load_locations
                (<[Z.to_nat locId := mkLocation v1 v2 v3 v4 v5 v6 v7 v8]> loc_list) rest
          end
      | _ => load_locations loc_list rest
      end
  end.

(** ** The package state, [init] and [GeoLocIPv4] *)

(** The package variables; a nil slice or pointer is [None]. The variable
    [blocks] is [blocks_] here, beside the module of that name. *)
Record Globals := mkGlobals {
  locations : option (list Location);
  blocks_ : option blocks.Blocks;
  asn_tree : option asn.ASNs;
  log_geolocip : option Writer;
  countries_tree : option countries.Countries;
  regions_tree : option regions.Regions
}.

(** What [init] finds outside the program: whether [syslog.New] gives a
    writer, the three files after [DownloadMaxmindFiles] ([None] for a file
    that cannot be opened; for the locations file, the number of lines
    [countLine] finds and the records the csv reader yields; for the two
    range tables, what the csv reader returns call after call), the records
    of the constant [countries_list], and what [LoadRegions] returns. *)
Record World := mkWorld {
  syslog : option Writer;
  locations_file : option (nat * rows);
  blocks_file : option reads;
  asn_file : option reads;
  countries_list : rows;
  regions_loaded : option regions.Regions
}.

(** [LoadLocFile]: the result is the pair of Go values (the slice returned
    with an error is empty, not nil), with the package variables
    [countries_tree] and [regions_tree] as the call leaves them. *)
Definition LoadLocFile (g : Globals) (w : World)
  : result (list Location * bool * Globals) :=
  match locations_file w with
  | None => _ ← log (log_geolocip g); Ok ([], true, g)
  | Some (line_count, rs) =>
      _ ← log (log_geolocip g);
      loc_list ← load_locations (replicate line_count empty_Location) rs;
      ctree ← countries.LoadCountries (countries_list w);
      Ok (loc_list, false,
          mkGlobals (locations g) (blocks_ g) (asn_tree g) (log_geolocip g)
                    (Some ctree) (regions_loaded w))
  end.

Definition set_locations (g : Globals) (l : list Location) : Globals :=
  mkGlobals (Some l) (blocks_ g) (asn_tree g) (log_geolocip g)
            (countries_tree g) (regions_tree g).

Definition set_blocks (g : Globals) (b : option blocks.Blocks) : Globals :=
  mkGlobals (locations g) b (asn_tree g) (log_geolocip g)
            (countries_tree g) (regions_tree g).

Definition set_asn_tree (g : Globals) (a : option asn.ASNs) : Globals :=
  mkGlobals (locations g) (blocks_ g) a (log_geolocip g)
            (countries_tree g) (regions_tree g).

(** [func init()], from the point where its call of [DownloadMaxmindFiles]
    (whose error it drops) has returned, the files being then as [World]
    has them: it returns at the first step that fails, leaving the
    variables not yet assigned nil. *)
Definition init (w : World) : result Globals :=
  let g0 := mkGlobals None None None (syslog w) None None in
  match syslog w with
  | None => Ok g0
  | Some _ =>
      _ ← log (log_geolocip g0);
      '(locs, err, g1) ← LoadLocFile g0 w;
      let g1 := set_locations g1 locs in
      if (err : bool) then _ ← log (log_geolocip g1); Ok g1
      else
        _ ← log (log_geolocip g1);
        '(blks, err) ← blocks.LoadBlocksFile (log_geolocip g1) (blocks_file w);
        let g2 := set_blocks g1 blks in
        if (err : bool) then _ ← log (log_geolocip g2); Ok g2
        else
          _ ← log (log_geolocip g2);
          '(asns, err) ← asn.LoadASNFile (log_geolocip g2) (asn_file w);
          let g3 := set_asn_tree g2 asns in
          if (err : bool) then _ ← log (log_geolocip g3); Ok g3
          else _ ← log (log_geolocip g3); Ok g3
  end.

Record GeoLocIp := mkGeoLocIp {
  Ip : list Z;
  Block_ : blocks.Block;
  Location_ : Location;
  ASN_ : option asn.ASN;
  CountryName : string;
  RegionName : string
}.

(** [uint32] arithmetic wraps at 2^32. *)
Definition u32 (z : Z) : Z := (z mod 2 ^ 32)%Z.

(** [uint32(ip[15])+256*(uint32(ip[14])+256*(uint32(ip[13])+256*uint32(ip[12])))] *)
Definition ipv4_addr (ip15 ip14 ip13 ip12 : Z) : Z :=
  u32 (ip15 + u32 (256 * u32 (ip14 + u32 (256 * u32 (ip13 + u32 (256 * ip12))))))%Z.

(** [func GeoLocIPv4(ip net.IP) *GeoLocIp]; [ip] is a slice of bytes. *)
Definition GeoLocIPv4 (g : Globals) (ip : list Z) : result (option GeoLocIp) :=
  match locations g, blocks_ g, asn_tree g with
  | Some locs, Some blks, Some asns =>
      ip15 ← index ip 15;
      ip14 ← index ip 14;
      ip13 ← index ip 13;
      ip12 ← index ip 12;
      let addr := ipv4_addr ip15 ip14 ip13 ip12 in
      block ← blocks.Get blks addr;
      match block with
      | None => _ ← log (log_geolocip g); Ok None
      | Some b =>
          location ← index_Z locs (blocks.LocId b);
          country ← GetCountry (countries_tree g) location;
          region ← GetRegion (regions_tree g) location;
          a ← asn.Get asns addr;
          Ok (Some (mkGeoLocIp ip b location a country region))
      end
  | _, _, _ => _ ← log (log_geolocip g); Ok None
  end.

(** The address 54.88.55.63 of TestGeoLocIPv4, as [net.ParseIP] returns
    it: sixteen bytes, the last four the address. *)
Definition test_ip : list Z := [0; 0; 0; 0; 0; 0; 0; 0; 0; 0; 255; 255; 54; 88; 55; 63]%Z.

(** ** Test tables of the specification *)

(** The ranges [0,99], [100,199] and [300,399] of section 8. *)
Definition three_blocks : list blocks.Block :=
  [blocks.mkBlock 0 99 1; blocks.mkBlock 100 199 2; blocks.mkBlock 300 399 3].

Definition three_asns : list asn.ASN :=
  [asn.mkASN 0 99 "A"; asn.mkASN 100 199 "B"; asn.mkASN 300 399 "C"].

(** Three stored ranges that a fourth one overlaps. *)
Definition apart_blocks : list blocks.Block :=
  [blocks.mkBlock 0 1 1; blocks.mkBlock 10 11 2; blocks.mkBlock 20 21 3].

Definition wide_block : blocks.Block := blocks.mkBlock 0 21 4.

(** The two entries of section 8, as records of [countries_list]. *)
Definition two_countries : rows :=
  [["France"; "FR"]; ["États-Unis"; "US"]]%string.

(** A table with one well-formed line and one line of two columns. *)
Definition one_good_one_bad : rows :=
  [["16777216"; "16777471"; "17"]; ["1"; "2"]]%string.

(** A row of a range table that the loaders skip: not three columns, or
    a numeric field that is not a decimal uint32 (for ASNs the third column
    is text). *)
Definition bad_block_row (values : list string) : Prop :=
  length values <> 3 \/ exists v, v ∈ values /\ ParseUint v 32 = None.

Definition bad_asn_row (values : list string) : Prop :=
  length values <> 3 \/
  exists v, v ∈ take 2 values /\ ParseUint v 32 = None.

(** ** Vocabulary for the container's invariants *)

Section BTreeSpec.
Context {A : Type} {Item_A : Item A}.

(** How a stored item [y] stands to a key [k], as [find] sees it: 2 when
    the key is less than [y], 0 when [y] is less than the key, 1 when
    neither holds (the two match). *)
Definition rank (k y : A) : nat :=
  if Less k y then 2 else if Less y k then 0 else 1.

(** A sequence is laid out for the key [k] when the ranks never go down. *)
Definition le_rank (k x y : A) : Prop := rank k x <= rank k y.
Definition mono (k : A) (l : list A) : Prop := StronglySorted (le_rank k) l.

(** Children and items of a node taken in turn: [pre] stops after an item,
    [post] starts with one. *)
Fixpoint pre (css : list (list A)) (its : list A) : list A :=
  match css, its with
  | c :: css', x :: its' => c ++ x :: pre css' its'
  | _, _ => []
  end.

Fixpoint post (its : list A) (css : list (list A)) : list A :=
  match its, css with
  | x :: its', c :: css' => x :: c ++ post its' css'
  | _, _ => []
  end.

(** The items of a node and of its subtrees from left to right: those of a
    leaf as they are, otherwise a child before each item and one after the
    last. *)
Definition flat (css : list (list A)) (its : list A) : list A :=
  match css with
  | [] => its
  | c :: css' => c ++ post its css'
  end.

Fixpoint elements (n : node A) : list A :=
  let 'Node its chs := n in flat (map elements chs) its.

Definition tree_elements (t : BTree A) : list A :=
  match root t with
  | None => []
  | Some r => elements r
  end.

(** A node is a leaf, or has one child more than it has items. *)
#[warnings="-register-all"]
Inductive wf : node A -> Prop :=
| wf_Node its chs :
    chs = [] \/ length chs = S (length its) ->
    Forall wf chs ->
    wf (Node its chs).

Definition tree_wf (t : BTree A) : Prop :=
  2 <= degree t /\
  match root t with
  | None => True
  | Some r => wf r
  end.

(** What an insertion of [item] does to the sequence of items: with
    nothing returned, [item] went between what is less than it and what it
    is less than; with [x] returned, [item] took the place of [x], which
    matched it. *)
Definition inserted (item : A) (E E' : list A) (out : option A) : Prop :=
  match out with
  | None =>
      exists l1 l2, E = l1 ++ l2 /\ E' = l1 ++ item :: l2 /\
        Forall (fun y => rank item y = 0) l1 /\
        Forall (fun y => rank item y = 2) l2
  | Some x =>
      exists l1 l2, E = l1 ++ x :: l2 /\ E' = l1 ++ item :: l2 /\
        rank item x = 1
  end.

(** What an insertion into a subtree has to deliver. *)
Definition insert_ok (fuel : nat) (item : A) (maxItems : nat) (n : node A) : Prop :=
  exists n' out,
    insert fuel n item maxItems = Ok (n', out) /\ wf n' /\
    inserted item (elements n) (elements n') out.

(** An insertion that returns, with a well-shaped subtree. *)
Definition insert_returns (fuel : nat) (item : A) (maxItems : nat) (n : node A) : Prop :=
  exists n' out, insert fuel n item maxItems = Ok (n', out) /\ wf n'.

End BTreeSpec.

(** ** Vocabulary for ordered indexes *)

Section OrderedSpec.
Context {A : Type} {Item_A : Item A}.

Definition lt (x y : A) : Prop := Less x y = true.

(** Two items are apart when one of them is less than the other; they
    match when neither is. *)
Definition apart (x y : A) : Prop := Less x y = true \/ Less y x = true.
Definition matches (k y : A) : Prop := Less k y = false /\ Less y k = false.

Definition sorted (l : list A) : Prop := StronglySorted lt l.

(** All items of a list are apart from each other. *)
Definition pairwise_apart (l : list A) : Prop := StronglySorted apart l.

(** A key is a point, among the items that satisfy [ok], when it cannot
    match two items of which one is less than the other. *)
Definition point (ok : A -> Prop) (k : A) : Prop :=
  forall x y, ok x -> ok y -> Less x y = true -> matches k x -> matches k y -> False.

End OrderedSpec.

(** ** Vocabulary for ranges

    [lo] and [hi] are the two bounds of a record ([LowIP] and [HighIP]). *)

Section RangeSpec.
Context {A : Type} (lo hi : A -> Z).

Definition valid (r : A) : Prop := (lo r <= hi r)%Z.
Definition holds (r : A) (p : Z) : Prop := (lo r <= p <= hi r)%Z.
Definition disjoint (a b : A) : Prop := (hi a < lo b)%Z \/ (hi b < lo a)%Z.

End RangeSpec.

(** ** Callers of the reader, and a decoder to check its output against *)

Local Open Scope Z_scope.

(** Calls of [Read] one after the other, on buffers whose lengths are
    given; the bytes of every call are collected. The buffered reader that
    [csv.NewReader(&flr)] puts over the transcoder in [LoadLocFile] calls
    [Read] like this, with the free part of its buffer, whose length changes
    from call to call. *)
Fixpoint read_seq (flr : fileLatin1Reader) (sizes : list nat) (acc : list Z)
  : result (fileLatin1Reader * list Z) :=
  match sizes with
  | [] => Ok (flr, acc)
  | len_p :: rest =>
      '(flr', out, _) ← Read flr len_p;
      read_seq flr' rest (acc ++ out)
  end.

(** A reference decoder, not part of the sources: UTF-8 as RFC 3629
    defines it, for the code points below U+0800. A byte below 0x80 is its
    own code point; a lead byte 0xC2..0xDF with a continuation byte
    0x80..0xBF is the code point made of the five low bits of the first and
    the six low bits of the second; anything else is refused. *)
Fixpoint utf8_decode (bs : list Z) : option (list Z) :=
  match bs with
  | [] => Some []
  | b :: rest =>
      if (0 <=? b) && (b <? 0x80) then
        match utf8_decode rest with
        | Some cps => Some (b :: cps)
        | None => None
        end
      else if (0xC2 <=? b) && (b <=? 0xDF) then
        match rest with
        | c :: rest' =>
            if (0x80 <=? c) && (c <=? 0xBF) then
              match utf8_decode rest' with
              | Some cps =>
                  Some (Z.lor (Z.shiftl (Z.land b 0x1F) 6) (Z.land c 0x3F) :: cps)
              | None => None
              end
            else None
        | [] => None
        end
      else None
  end.

(** A source of bytes: every element is in 0..255. *)
Definition bytes (src : list Z) : Prop := Forall (fun b => 0 <= b < 256) src.

(** A source of ASCII bytes only. *)
Definition ascii_only (src : list Z) : Prop := Forall (fun b => b < 0x80) src.

Local Close Scope Z_scope.

(** ** Insertions into a container that holds anything *)

Section PlacedSpec.
Context {A : Type} {Item_A : Item A}.

(** What an insertion of [item] does to the sequence of items when nothing
    is known of what is stored: with nothing returned, [item] went in at
    one place; with [x] returned, [item] took the place of [x], which
    matched it. *)
Definition placed (item : A) (E E' : list A) (out : option A) : Prop :=
  match out with
  | None => exists l1 l2, E = l1 ++ l2 /\ E' = l1 ++ item :: l2
  | Some x =>
      exists l1 l2, E = l1 ++ x :: l2 /\ E' = l1 ++ item :: l2 /\ rank item x = 1
  end.

Definition insert_places (fuel : nat) (item : A) (maxItems : nat) (n : node A) : Prop :=
  exists n' out,
    insert fuel n item maxItems = Ok (n', out) /\ wf n' /\
    placed item (elements n) (elements n') out.

(** A tree that insertions have built: well shaped, its counter the number
    of items it holds. *)
Definition tree_ok (t : BTree A) : Prop :=
  tree_wf t /\ count t = length (tree_elements t).

End PlacedSpec.

(** ** The records of the files, one by one *)

(** The records a loader of a range table gets before the reader refuses
    a line, and whether it refuses one. *)
Fixpoint read_records (rs : reads) : rows :=
  match rs with
  | Values values :: rest => values :: read_records rest
  | _ => []
  end.

Fixpoint refused (rs : reads) : bool :=
  match rs with
  | [] => false
  | ReadError :: _ => true
  | Values _ :: rest => refused rest
  end.

(** *** Lines that the csv reader takes or refuses

    [csv.Reader] with [LazyQuotes] false, on a line that is not empty and
    of which no field starts with a quote: the fields are what stands
    between the commas, and a quote in one of them is the error
    [ErrBareQuote]. Fields that start with a quote are read in another way
    and are left out here ([None]). *)

Definition quote : ascii := "034"%char.

(** The line split at its commas; [cur] is the field being read, last
    character first. *)
Fixpoint fields_of (cs cur : list ascii) : list (list ascii) :=
  match cs with
  | [] => [rev cur]
  | c :: cs' =>
      if Ascii.eqb c "," then rev cur :: fields_of cs' []
      else fields_of cs' (c :: cur)
  end.

Definition split_commas (line : string) : list string :=
  map string_of_list_ascii (fields_of (list_ascii_of_string line) []).

Definition has_quote (field : string) : bool :=
  existsb (Ascii.eqb quote) (list_ascii_of_string field).

Definition starts_quoted (field : string) : bool :=
  match field with
  | String c _ => Ascii.eqb c quote
  | EmptyString => false
  end.

Definition read_line (line : string) : option csv_read :=
  let fields := split_commas line in
  match line with
  | EmptyString => None
  | _ =>
      if existsb starts_quoted fields then None
      else if existsb has_quote fields then Some ReadError
      else Some (Values fields)
  end.

(** A file line by line, none of them empty or with a quoted field. *)
Definition read_lines (lines : list string) : option reads := mapM read_line lines.

(** The line of [4,5,x], a double quote and [y]: split at its commas it
    has three columns, the third of which is no number. *)
Definition refused_line : string := ("4,5,x" ++ String quote "y")%string.

(** A blocks file of three lines, the second one refused by the reader,
    and the two lines around it alone. *)
Definition with_refused_line : list string :=
  ["1,2,3"%string; refused_line; "10,20,30"%string].

Definition without_refused_line : list string := ["1,2,3"; "10,20,30"]%string.

(** What one turn of the loop of [LoadBlocksFile] takes from a record of
    the file: the block it stores, or nothing for a record it skips. *)
Definition parse_block (values : list string) : option blocks.Block :=
  match values with
  | [v0; v1; v2] =>
      match ParseUint v0 32, ParseUint v1 32, ParseUint v2 32 with
      | Some low_ip, Some high_ip, Some loc_id =>
          Some (blocks.mkBlock low_ip high_ip loc_id)
      | _, _, _ => None
      end
  | _ => None
  end.

(** The same for [LoadASNFile]: the third column is kept as it is. *)
Definition parse_asn (values : list string) : option asn.ASN :=
  match values with
  | [v0; v1; v2] =>
      match ParseUint v0 32, ParseUint v1 32 with
      | Some low_ip, Some high_ip => Some (asn.mkASN low_ip high_ip v2)
      | _, _ => None
      end
  | _ => None
  end.

(** The same for [LoadCountries]: the name comes first in a record, the
    code first in a [Country]. *)
Definition parse_country (values : list string) : option countries.Country :=
  match values with
  | [v0; v1] => Some (countries.mkCountry v1 v0)
  | _ => None
  end.

(** The same for [LoadLocFile]: the index and the location stored there. *)
Definition parse_location (values : list string) : option (Z * Location) :=
  match values with
  | [v0; v1; v2; v3; v4; v5; v6; v7; v8] =>
      match Atoi v0 with
      | Some locId => Some (locId, mkLocation v1 v2 v3 v4 v5 v6 v7 v8)
      | None => None
      end
  | _ => None
  end.

(** Go compares strings for equality byte by byte. *)
#[global] Instance string_eq_dec : EqDecision string := String.string_dec.

(** The last item of a list with a given key: what a table holds for the
    key when a later record takes the place of an earlier one. *)
Fixpoint last_with {B K : Type} `{EqDecision K} (key : B -> K) (k : K) (l : list B)
  : option B :=
  match l with
  | [] => None
  | x :: l' =>
      match last_with key k l' with
      | Some y => Some y
      | None => if decide (key x = k) then Some x else None
      end
  end.

(** Records of a blocks file whose ranges overlap, one of them with its
    low address above its high address. *)
Definition overlapping_rows : rows :=
  [["0"; "10"; "1"]; ["5"; "3"; "2"]; ["5"; "20"; "3"]; ["x"; "1"; "4"]]%string.

(** The same records as the reader returns them, then a line it refuses
    and a record after that line. *)
Definition overlapping_reads : reads :=
  map Values overlapping_rows ++ [ReadError; Values ["100"; "200"; "9"]%string].

(** What the reader returns on a blocks file of five lines: a well-formed
    one, one of two columns, a well-formed one, a refused one, and a last
    one that is never read. *)
Definition disjoint_reads : reads :=
  [Values ["16777216"; "16777471"; "17"]; Values ["1"; "2"]; Values ["1"; "2"; "3"];
   ReadError; Values ["2"; "5"; "9"]]%string.

(** Records of a list of countries with a code that comes twice and a
    record of three columns. *)
Definition repeated_countries : rows :=
  [["France"; "FR"]; ["Etats-Unis"; "US"]; ["a"; "b"; "c"];
   ["United States"; "US"]]%string.

(** A table of countries that holds, for every code, the last of the
    countries [cs] with that code, and nothing else. *)
Definition holds_last (t : countries.Countries) (cs : list countries.Country) : Prop :=
  tree_wf t /\ sorted (tree_elements t) /\
  (forall x, x ∈ tree_elements t ->
     last_with countries.Code (countries.Code x) cs = Some x) /\
  (forall k y, last_with countries.Code k cs = Some y -> y ∈ tree_elements t).

(** The name [GetCountry] is to return for a code, given the countries
    loaded in turn. *)
Definition country_name (cs : list countries.Country) (code : string) : string :=
  match last_with countries.Code code cs with
  | Some c => countries.Name c
  | None => ""
  end.

(** The location [LoadLocFile] is to leave at an index, given the pairs
    of index and location loaded in turn. *)
Definition location_at (ps : list (Z * Location)) (k : nat) : Location :=
  match last_with fst (Z.of_nat k) ps with
  | Some p => p.2
  | None => empty_Location
  end.

(** Tables in the manner of TestGeoLocIPv4 and of the package's example:
    the address 54.88.55.63 in a block of 256 addresses, its location at
    index 1, the organization that holds 54.80.0.0 to 54.95.255.255. *)
Definition test_location : Location :=
  mkLocation "US" "VA" "Ashburn" "20147" "39.0335" "-77.4838" "511" "703".

Definition test_block : blocks.Block := blocks.mkBlock 911750912 911751167 1.

Definition test_asn : asn.ASN :=
  asn.mkASN 911212544 912261119 "AS14618 Amazon.com, Inc.".

Definition test_world : World :=
  mkWorld (Some SyslogWriter)
    (Some (2%nat, [["1"; "US"; "VA"; "Ashburn"; "20147"; "39.0335"; "-77.4838";
                    "511"; "703"]]%string))
    (Some [Values ["911750912"; "911751167"; "1"]%string])
    (Some [Values ["911212544"; "912261119"; "AS14618 Amazon.com, Inc."]%string])
    [["Etats-Unis"; "US"]]%string
    None.

Definition test_globals : Globals :=
  mkGlobals (Some [empty_Location; test_location])
    (Some (mkBTree 4 1 (Some (Node [test_block] []))))
    (Some (mkBTree 4 1 (Some (Node [test_asn] []))))
    (Some SyslogWriter)
    (Some (mkBTree 4 1 (Some (Node [countries.mkCountry "US" "Etats-Unis"] []))))
    None.

(** A result of [GeoLocIPv4] with another address in its [Ip] field. *)
Definition with_Ip (ip : list Z) (r : GeoLocIp) : GeoLocIp :=
  mkGeoLocIp ip (Block_ r) (Location_ r) (ASN_ r) (CountryName r) (RegionName r).

(** The IPv6 address 2001:db8::3658:373f, whose last four bytes are those
    of 54.88.55.63. *)
Definition test_ip6 : list Z :=
  [0x20; 0x01; 0x0d; 0xb8; 0; 0; 0; 0; 0; 0; 0; 0; 54; 88; 55; 63]%Z.

(** ** Fetching the files

    [ageFile], [download], [extractFile] and [DownloadMaxmindFiles] act on
    the file system, the network and zip archives. What those give is an
    input here ([Outside]); what the functions decide from it, the order in
    which they act, what they log and what they return is translated from
    the sources. *)

Local Open Scope Z_scope.

(** [func ageFile(filename string) int]: [stat] is [None] when [os.Stat]
    fails, and otherwise the integer [int(time.Since(fi.ModTime()).Hours())],
    negative for a file stamped in the future. Go's [/] on integers
    truncates toward zero. *)
Definition ageFile (stat : option Z) : Z :=
  match stat with
  | None => -1
  | Some hours => hours ÷ 24
  end.

(** How far [download] gets: [os.Create] fails, [http.Get] fails,
    [io.Copy] fails, or the body has been copied. *)
Inductive download_io := CreateFails | GetFails | CopyFails | Copied.

(** [func download(url string, filename string) error]; [true] is a
    non-nil error. *)
Definition download (w : option Writer) (io : download_io) : result bool :=
  match io with
  | CreateFails => _ ← log w; Ok true
  | GetFails => _ ← log w; Ok true
  | CopyFails => _ ← log w; Ok true
  | Copied => Ok false
  end.

(** How far [extractFile] gets: [os.Create] fails, [in_file.Open] fails,
    or the copy is made; the error of that [io.Copy] is dropped, so
    [copied] does not show in what is returned. *)
Inductive extract_io := NoCreate | NoOpen | Extracted (copied : bool).

(** [func extractFile(in_file *zip.File, out_file string) error] *)
Definition extractFile (w : option Writer) (io : extract_io) : result bool :=
  match io with
  | NoCreate => _ ← log w; Ok true
  | NoOpen => _ ← log w; Ok true
  | Extracted _ => _ ← log w; Ok false
  end.

(** [path.Base]: trailing slashes are removed, then what is after the last
    slash is kept; the empty path gives ".", a path of slashes "/". The
    helpers work on the path reversed. *)
Fixpoint strip_slashes (r : list ascii) : list ascii :=
  match r with
  | c :: r' => if Ascii.eqb c "/" then strip_slashes r' else r
  | [] => []
  end.

Fixpoint last_element (r : list ascii) : list ascii :=
  match r with
  | c :: r' => if Ascii.eqb c "/" then [] else c :: last_element r'
  | [] => []
  end.

Definition Base (path : string) : string :=
  match path with
  | EmptyString => "."
  | _ =>
      match strip_slashes (rev (list_ascii_of_string path)) with
      | [] => "/"
      | r => string_of_list_ascii (rev (last_element r))
      end
  end.

Definition url_zipfile_asn : string :=
  "http://download.maxmind.com/download/geoip/database/asnum/GeoIPASNum2.zip".
Definition url_zipfile_city : string :=
  "http://geolite.maxmind.com/download/geoip/database/GeoLiteCity_CSV/GeoLiteCity-latest.zip".
Definition zipfile_asn : string := "/tmp/GeoIPASNum2.zip".
Definition zipfile_city : string := "/tmp/GeoLiteCity-latest.zip".
Definition file_asn : string := "GeoIPASNum2.csv".
Definition file_blocks : string := "GeoLiteCity-Blocks.csv".
Definition file_location : string := "GeoLiteCity-Location.csv".
Definition ASN_FILE : string := "/tmp/GeoIPASNum2.csv".
Definition BLOCKS_FILE : string := "/tmp/GeoLiteCity-Blocks.csv".
Definition LOCATIONS_FILE : string := "/tmp/GeoLiteCity-Location.csv".

(** A file of an archive, as [zip.OpenReader] lists it: its name, and how
    its extraction goes. *)
Definition entry : Type := string * extract_io.

(** What [DownloadMaxmindFiles] meets: for each of the two archives what
    [os.Stat] gives, how a download of it goes, and the files
    [zip.OpenReader] finds in it ([None] when it cannot be read). *)
Record Outside := mkOutside {
  stat_asn : option Z;
  get_asn : download_io;
  zip_asn : option (list entry);
  stat_city : option Z;
  get_city : download_io;
  zip_city : option (list entry)
}.

(** What the function does to the outside, in order: calls of [download]
    and of [extractFile]. *)
Inductive event :=
| Download (url filename : string)
| Extract (name out_file : string).

(** The errors it returns: one that a callee gave, or one of its own. *)
Inductive download_error :=
| Failed
| BadContent
| CannotExtractASN
| CannotExtractBlocks
| CannotExtractLocations.

(** The loop [for _, f := range city_zip.File]. *)
Fixpoint extract_city (w : option Writer) (files : list entry) (ev : list event)
  : result (option download_error * list event) :=
  match files with
  | [] => Ok (None, ev)
  | f :: rest =>
      if String.eqb (Base f.1) file_blocks then
        e ← extractFile w f.2;
        if (e : bool) then Ok (Some CannotExtractBlocks, ev ++ [Extract f.1 BLOCKS_FILE])
        else extract_city w rest (ev ++ [Extract f.1 BLOCKS_FILE])
      else if String.eqb (Base f.1) file_location then
        e ← extractFile w f.2;
        if (e : bool) then Ok (Some CannotExtractLocations, ev ++ [Extract f.1 LOCATIONS_FILE])
        else extract_city w rest (ev ++ [Extract f.1 LOCATIONS_FILE])
      else extract_city w rest ev
  end.

(** The first half of [DownloadMaxmindFiles] and the second have the same
    start: the archive is fetched when it is missing or eight days old. *)
Definition refresh (w : option Writer) (stat : option Z) (io : download_io)
    (url filename : string) (ev : list event) : result (bool * list event) :=
  let age := ageFile stat in
  if (age =? -1) || (8 <=? age) then
    _ ← log w;
    e ← download w io;
    Ok (e, ev ++ [Download url filename])
  else
    _ ← log w; Ok (false, ev).

(** [func DownloadMaxmindFiles() error]: the error returned ([None] for
    nil) and what was done. *)
Definition DownloadMaxmindFiles (w : option Writer) (o : Outside)
  : result (option download_error * list event) :=
  '(err, ev) ← refresh w (stat_asn o) (get_asn o) url_zipfile_asn zipfile_asn [];
  if (err : bool) then Ok (Some Failed, ev)
  else
    match zip_asn o with
    | None => _ ← log w; Ok (Some Failed, ev)
    | Some asn_files =>
        first ← index asn_files 0;
        if negb (String.eqb first.1 file_asn) then _ ← log w; Ok (Some BadContent, ev)
        else
          e ← extractFile w first.2;
          let ev := ev ++ [Extract first.1 ASN_FILE] in
          if (e : bool) then Ok (Some CannotExtractASN, ev)
          else
            '(err, ev) ← refresh w (stat_city o) (get_city o)
                                 url_zipfile_city zipfile_city ev;
            if (err : bool) then Ok (Some Failed, ev)
            else
              match zip_city o with
              | None => _ ← log w; Ok (Some Failed, ev)
              | Some city_files => extract_city w city_files ev
              end
    end.

(** Whether an archive is fetched again. *)
Definition stale (stat : option Z) : bool :=
  (ageFile stat =? -1) || (8 <=? ageFile stat).

(** The extractions the loop over the city archive is to make. *)
Definition city_extractions (files : list entry) : list event :=
  omap (fun f : entry =>
          if String.eqb (Base f.1) file_blocks then Some (Extract f.1 BLOCKS_FILE)
          else if String.eqb (Base f.1) file_location
               then Some (Extract f.1 LOCATIONS_FILE)
               else None) files.

(** A file of the city archive that the loop takes: its base name is the
    name of the blocks file or of the locations file. *)
Definition wanted (f : entry) : Prop :=
  Base f.1 = file_blocks \/ Base f.1 = file_location.

(** An outside where everything goes well: both archives a day old, the
    city archive with its files in a directory. *)
Definition fine_outside : Outside :=
  mkOutside (Some 30) Copied (Some [("GeoIPASNum2.csv"%string, Extracted true)])
            (Some 30) Copied
            (Some [("GeoLiteCity_20150106/GeoLiteCity-Blocks.csv"%string, Extracted true);
                   ("GeoLiteCity_20150106/GeoLiteCity-Location.csv"%string, Extracted true);
                   ("GeoLiteCity_20150106/LICENSE.txt"%string, NoOpen)]).

Local Close Scope Z_scope.
(** * Proofs

    ** The transcoder *)

Local Open Scope Z_scope.


Lemma utf8_second_range b : 0x80 <= utf8_second b <= 0xBF.
Proof.
  unfold utf8_second.
  change 0x3f with (Z.ones 6). rewrite Z.land_ones by lia.
  assert (Hm : 0 <= b mod 2 ^ 6 < 64) by (apply Z.mod_pos_bound; lia).
  set (x := b mod 2 ^ 6) in *. clearbody x.
  assert (Hall : forallb (fun n => (128 <=? Z.lor 128 (Z.of_nat n)) &&
                                   (Z.lor 128 (Z.of_nat n) <=? 191)) (seq 0 64) = true)
    by (vm_compute; reflexivity).
  rewrite forallb_forall in Hall.
  specialize (Hall (Z.to_nat x)).
  rewrite Z2Nat.id in Hall by lia.
  assert (Hin : In (Z.to_nat x) (seq 0 64)) by (apply in_seq; lia).
  apply Hall in Hin. apply andb_true_iff in Hin as [H1 H2].
  apply Z.leb_le in H1, H2. lia.
Qed.

Lemma utf8_second_nonzero b : utf8_second b <> 0.
Proof. pose proof (utf8_second_range b). lia. Qed.

Lemma pend_second b : pend (utf8_second b) = [utf8_second b].
Proof.
  unfold pend. destruct (Z.eqb_spec (utf8_second b) 0) as [E|]; [|done].
  by apply utf8_second_nonzero in E.
Qed.

Lemma expand_byte_low b : b < 0x80 -> expand_byte b = [b].
Proof. intros. unfold expand_byte. by destruct (Z.ltb_spec b 0x80); [|lia]. Qed.

Lemma expand_byte_high b :
  0x80 <= b -> expand_byte b = [utf8_first b; utf8_second b].
Proof. intros. unfold expand_byte. by destruct (Z.ltb_spec b 0x80); [lia|]. Qed.

Lemma latin1_to_utf8_app l1 l2 :
  latin1_to_utf8 (l1 ++ l2) = latin1_to_utf8 l1 ++ latin1_to_utf8 l2.
Proof. apply flat_map_app. Qed.

(** What one run of the loop does: it takes [j] bytes of [buf]; the bytes
    written, with the byte left pending, are the expansion of those [j]. *)
Lemma transfer_spec len_p buf : forall i out cur i' out' cur',
  transfer len_p buf i out cur = (i', out', cur') ->
  cur = 0 \/ (len_p <= length out)%nat ->
  exists j : nat,
    i' = (i + j)%nat /\ (j <= length buf)%nat /\
    out' ++ pend cur' = out ++ pend cur ++ latin1_to_utf8 (take j buf) /\
    (cur' = 0 \/ (len_p <= length out')%nat) /\
    (cur' = cur \/ exists b, b ∈ buf /\ 0x80 <= b /\ cur' = utf8_second b) /\
    (j = 0%nat -> cur' = cur /\ out' = out) /\
    (buf <> [] -> (length out < len_p)%nat -> (0 < j)%nat) /\
    (length out <= length out')%nat /\
    (buf <> [] -> (length out < len_p)%nat -> (length out < length out')%nat).
Proof.
  induction buf as [|b rest IH]; intros i out cur i' out' cur' Ht Hc; simpl in Ht.
  - inversion Ht; subst. exists 0%nat. simpl. rewrite app_nil_r.
    repeat split; auto; try lia; done.
  - destruct (Nat.leb_spec len_p (length out)) as [Hfull|Hroom].
    { inversion Ht; subst. exists 0%nat. simpl. rewrite app_nil_r.
      repeat split; auto; try lia. }
    destruct Hc as [->|Hc]; [|lia].
    destruct (Z.ltb_spec b 0x80) as [Hlo|Hhi].
    + apply IH in Ht as (j & -> & Hj & Hout & Hfin & Hcur & _ & _ & Hlen & _); [|by left].
      rewrite length_app in Hlen; simpl in Hlen.
      exists (S j). simpl. rewrite expand_byte_low by done.
      repeat split; try lia; auto.
      * rewrite Hout. simpl. by rewrite <- !app_assoc.
      * destruct Hcur as [->|(b' & Hb' & Hge' & ->)]; [by left|right].
        exists b'. split; [by right|done].
    + rewrite length_app in Ht. simpl in Ht.
      destruct (Nat.leb_spec len_p (length out + 1)) as [Hfull|Hroom'].
      * apply IH in Ht as (j & -> & Hj & Hout & Hfin & Hcur & Hz & _ & Hlen & _);
          [|right; rewrite length_app; simpl; lia].
        rewrite length_app in Hlen; simpl in Hlen.
        exists (S j). simpl. rewrite expand_byte_high by done.
        repeat split; try lia; auto.
        -- rewrite Hout, pend_second. simpl. by rewrite <- !app_assoc.
        -- right. destruct Hcur as [->|(b' & Hb' & Hge' & ->)].
           ++ exists b. split; [by left|done].
           ++ exists b'. split; [by right|done].
      * apply IH in Ht as (j & -> & Hj & Hout & Hfin & Hcur & _ & _ & Hlen & _); [|by left].
        rewrite !length_app in Hlen; simpl in Hlen.
        exists (S j). simpl. rewrite expand_byte_high by done.
        repeat split; try lia; auto.
        -- rewrite Hout. simpl. by rewrite <- !app_assoc.
        -- destruct Hcur as [->|(b' & Hb' & Hge' & ->)]; [by left|right].
           exists b'. split; [by right|done].
Qed.


Lemma file_Read_spec f len_p buf err f1 :
  file_Read f len_p = (buf, err, f1) ->
  buf = take len_p (drop (pos f) (content f)) /\
  f1 = mkFile (content f) (pos f + length buf) /\
  (err = Some EOF <-> buf = [] /\ len_p <> 0%nat) /\
  (err = None \/ err = Some EOF).
Proof.
  unfold file_Read. intros H. inversion H; subst; clear H.
  repeat split; try (intros [? ?]); try intros ?.
  - destruct (take len_p (drop (pos f) (content f))); simpl in *; [done|discriminate].
  - destruct (Nat.eqb_spec len_p 0); simpl in *; [|done].
    by rewrite andb_false_r in *.
  - rewrite H. simpl. by destruct (Nat.eqb_spec len_p 0).
  - destruct (_ && _); auto.
Qed.

(** One call of [Read] that does not start pending with an empty buffer:
    it returns, the offset advances by the [i] source bytes taken, and the
    bytes written plus the byte left pending are the old pending byte
    followed by the expansion of exactly those [i] source bytes. *)
Lemma Read_spec flr len_p :
  (0 < len_p)%nat \/ currentChar flr = 0 ->
  exists (i : nat) flr' out err,
    Read flr len_p = Ok (flr', out, err) /\
    content (file flr') = content (file flr) /\
    pos (file flr') = (pos (file flr) + i)%nat /\
    (i <= length (drop (pos (file flr)) (content (file flr))))%nat /\
    out ++ pend (currentChar flr') =
      pend (currentChar flr) ++
      latin1_to_utf8 (take i (drop (pos (file flr)) (content (file flr)))) /\
    (currentChar flr' = 0 \/
     exists b, b ∈ content (file flr) /\ 0x80 <= b /\ currentChar flr' = utf8_second b) /\
    (err = Some EOF <->
       (length (content (file flr)) <= pos (file flr))%nat /\ len_p <> 0%nat) /\
    (err = None \/ err = Some EOF) /\
    (currentChar flr <> 0 -> exists out', out = currentChar flr :: out') /\
    (currentChar flr = 0 -> (pos (file flr) < length (content (file flr)))%nat ->
       (0 < len_p)%nat -> (0 < i)%nat) /\
    (i = 0%nat -> currentChar flr' = 0) /\
    ((0 < len_p)%nat ->
     (pos (file flr) < length (content (file flr)))%nat \/ currentChar flr <> 0 ->
     (0 < length out)%nat).
Proof.
  intros Hpre. destruct flr as [f cur]. cbn [file currentChar] in *.
  set (cont := content f). set (p := pos f).
  unfold Read. cbn [file currentChar].
  destruct (file_Read f len_p) as [[buf ferr] f1] eqn:Hfr.
  apply file_Read_spec in Hfr as (Hbuf & -> & Heof & Herr).
  fold cont p in Hbuf |- *.
  set (flush := if cur =? 0 then Ok ([], cur)
                else if (0 <? len_p)%nat then Ok ([cur], 0) else Panic IndexOutOfRange).
  assert (Hflush : exists out0, flush = Ok (out0, 0) /\ out0 = pend cur /\
                                (length out0 <= 1)%nat /\
                                (cur = 0 -> out0 = [])).
  { unfold flush, pend. destruct (Z.eqb_spec cur 0) as [->|Hne].
    - exists []. simpl. repeat split; auto; lia.
    - destruct Hpre as [Hpos|]; [|done].
      destruct (Nat.ltb_spec 0 len_p); [|lia].
      exists [cur]. simpl. repeat split; auto; lia. }
  destruct Hflush as (out0 & -> & Hout0 & Hlen0 & Hnil). cbn [mbind result_bind].
  destruct (transfer len_p buf 0 out0 0) as [[i out] cur'] eqn:Ht.
  apply transfer_spec in Ht as (j & Hi & Hj & Hout & Hfin & Hcur & Hz & Hprog & Hlen & Hgrow);
    [|by left].
  simpl in Hi. subst i.
  assert (Hseek : file_Seek (mkFile cont (p + length buf)) (Z.of_nat j - Z.of_nat (length buf))
                  = mkFile cont (p + j)).
  { unfold file_Seek. simpl.
    destruct (Z.ltb_spec (Z.of_nat (p + length buf) + (Z.of_nat j - Z.of_nat (length buf))) 0);
      [lia|]. f_equal. lia. }
  rewrite Hseek.
  assert (Hlenbuf : (length buf <= length (drop p cont))%nat).
  { rewrite Hbuf, length_take. lia. }
  assert (Htake : take j buf = take j (drop p cont)).
  { rewrite Hbuf, take_take. f_equal. rewrite Hbuf, length_take in Hj. lia. }
  assert (Hcur' : cur' = 0 \/ exists b, b ∈ cont /\ 0x80 <= b /\ cur' = utf8_second b).
  { destruct Hcur as [->|(b & Hb & Hge & ->)]; [by left|right].
    exists b. split; [|done]. rewrite Hbuf in Hb.
    apply elem_of_take in Hb as (k & Hb & _).
    rewrite lookup_drop in Hb. by eapply list_elem_of_lookup_2. }
  assert (Hempty : buf = [] <-> (length cont <= p)%nat \/ len_p = 0%nat).
  { rewrite Hbuf. split.
    - intros E. apply (f_equal length) in E. rewrite length_take, length_drop in E.
      simpl in E. lia.
    - intros [? | ->]; [|done]. rewrite drop_ge by done. by rewrite take_nil. }
  assert (Hfinal : forall e,
            (e = Some EOF <-> (length cont <= p)%nat /\ len_p <> 0%nat) ->
            (e = None \/ e = Some EOF) ->
            exists (i : nat) flr' out1 err,
              Ok (mkReader (mkFile cont (p + j)) cur', out, e) = Ok (flr', out1, err) /\
              content (file flr') = cont /\ pos (file flr') = (p + i)%nat /\
              (i <= length (drop p cont))%nat /\
              out1 ++ pend (currentChar flr') =
                pend cur ++ latin1_to_utf8 (take i (drop p cont)) /\
              (currentChar flr' = 0 \/
               exists b, b ∈ cont /\ 0x80 <= b /\ currentChar flr' = utf8_second b) /\
              (err = Some EOF <-> (length cont <= p)%nat /\ len_p <> 0%nat) /\
              (err = None \/ err = Some EOF) /\
              (cur <> 0 -> exists out', out1 = cur :: out') /\
              (cur = 0 -> (p < length cont)%nat -> (0 < len_p)%nat -> (0 < i)%nat) /\
              (i = 0%nat -> currentChar flr' = 0) /\
              ((0 < len_p)%nat -> (p < length cont)%nat \/ cur <> 0 ->
               (0 < length out1)%nat)).
  { intros e He1 He2. exists j, (mkReader (mkFile cont (p + j)) cur'), out, e. simpl.
    split; [done|]. split; [done|]. split; [done|]. split; [lia|].
    split. { rewrite Hout, Hout0, Htake. simpl. done. }
    split; [done|]. split; [done|]. split; [done|].
    split.
    { intros Hne. subst out0. unfold pend in Hout.
      destruct (Z.eqb_spec cur 0); [done|].
      destruct out as [|o out'].
      - simpl in Hout. unfold pend in Hout. destruct (cur' =? 0); simpl in Hout.
        + discriminate.
        + inversion Hout; subst.
          destruct Hfin as [->|Hfull]; [|simpl in Hfull; lia].
          destruct Hcur'; [done|]. by destruct Hcur.
      - simpl in Hout. inversion Hout; subst. by exists out'. }
    split.
    { intros Hc0 Hp Hl. apply Hprog.
      - intros E. apply Hempty in E. lia.
      - rewrite (Hnil Hc0). simpl. lia. }
    split; [intros ->; by destruct Hz|].
    intros Hl [Hp|Hne].
    - destruct (Z.eq_dec cur 0) as [Hc0|Hne].
      + enough (length out0 < length out)%nat by lia. apply Hgrow.
        * intros E. apply Hempty in E. lia.
        * rewrite (Hnil Hc0). simpl. lia.
      + subst out0. unfold pend in Hlen. destruct (Z.eqb_spec cur 0); [done|].
        simpl in Hlen. lia.
    - subst out0. unfold pend in Hlen. destruct (Z.eqb_spec cur 0); [done|].
      simpl in Hlen. lia. }
  destruct ferr as [[]|].
  - (* the file is at its end: nothing was read, nothing can be left pending *)
    assert (Hb : buf = []) by (by apply Heof).
    assert (j = 0%nat) by (rewrite Hb in Hj; simpl in Hj; lia). subst j.
    destruct Hz as [Hc0 _]; [done|]. rewrite Hc0. cbn [Z.eqb negb].
    rewrite Hc0 in Hfinal.
    apply Hfinal; [|by right]. split; [intros _|done].
    destruct Heof as [Heof _]. destruct Heof as [He Hl]; [done|].
    split; [|done]. apply Hempty in He. lia.
  - apply Hfinal; [|by left]. split; [done|]. intros [Hl Hn].
    destruct Heof as [_ Heof]. exfalso.
    assert (buf = []) by (apply Hempty; lia). by specialize (Heof (conj H Hn)).
Qed.

Lemma pend_nonzero c : c <> 0 -> pend c = [c].
Proof. intros. unfold pend. by destruct (Z.eqb_spec c 0). Qed.

Lemma drain_spec len_p : (0 < len_p)%nat -> forall fuel flr acc,
  (rounds flr < fuel)%nat ->
  drain fuel flr len_p acc =
    Ok (acc ++ pend (currentChar flr) ++
        latin1_to_utf8 (drop (pos (file flr)) (content (file flr)))).
Proof.
  intros Hk. induction fuel as [|fuel IH]; intros flr acc Hfuel; [lia|].
  destruct (Read_spec flr len_p) as
    (i & flr' & out & err & HR & Hcont & Hpos & Hi & Hout & Hcur & Heof & Herr
       & Hhead & Hprog & Hz & Hne); [by left|].
  simpl. rewrite HR. cbn [mbind result_bind].
  destruct (Nat.le_gt_cases (length (content (file flr))) (pos (file flr))) as [Hend|Hmore].
  - (* nothing left in the file *)
    rewrite length_drop in Hi. assert (i = 0%nat) by lia. subst i.
    rewrite (Hz eq_refl) in Hout. simpl in Hout. rewrite app_nil_r in Hout.
    rewrite drop_ge by done. simpl. rewrite !app_nil_r in *. subst out.
    assert (He : err = Some EOF) by (apply Heof; split; [done|lia]). subst err.
    unfold pend. destruct (Z.eqb_spec (currentChar flr) 0); simpl.
    + by rewrite app_nil_r.
    + done.
  - assert (He : err = None).
    { destruct Herr as [|He]; [done|]. apply Heof in He. lia. }
    subst err.
    destruct (Nat.ltb_spec 0 (length out)) as [_|Hempty]; [|specialize (Hne Hk); lia].
    rewrite IH.
    + f_equal. rewrite Hcont, Hpos.
      rewrite <- (take_drop i (drop (pos (file flr)) (content (file flr)))) at 1.
      rewrite latin1_to_utf8_app, drop_drop.
      rewrite <- !app_assoc. f_equal.
      rewrite !app_assoc. f_equal. done.
    + unfold rounds in *. rewrite Hcont, Hpos.
      destruct (Z.eqb_spec (currentChar flr) 0) as [Hc0|Hcn].
      * specialize (Hprog Hc0 Hmore Hk). destruct (currentChar flr' =? 0); lia.
      * destruct (Nat.eq_dec i 0%nat) as [->|].
        -- rewrite (Hz eq_refl). simpl. lia.
        -- destruct (currentChar flr' =? 0); lia.
Qed.

Lemma latin1_to_utf8_length src : length (latin1_to_utf8 src) = utf8_len src.
Proof.
  induction src as [|b src IH]; [done|].
  unfold latin1_to_utf8, utf8_len in *. simpl.
  rewrite length_app, IH. unfold expand_byte. by destruct (b <? 0x80).
Qed.

Lemma read_all_spec (src : list Z) (len_p : nat) :
  (1 <= len_p)%nat -> read_all src len_p = Ok (latin1_to_utf8 src).
Proof.
  intros Hk. unfold read_all. rewrite drain_spec.
  - by simpl.
  - lia.
  - unfold rounds, open. simpl. lia.
Qed.

Example sample_5 : read_all sample 5 = Ok (latin1_to_utf8 sample).
Proof. vm_compute. reflexivity. Qed.

(** C2. For every source and every destination buffer of at least one byte
    (1, 3 and 5 among them), the read loop returns, and the bytes it
    collects are the per-byte expansion of the whole source: a byte below
    0x80 unchanged, a byte from 0x80 as [0xC0 | (b & 0xC0) >> 6] then
    [0x80 | (b & 0x3F)]. The result does not depend on the buffer size. *)
Theorem read_all_is_expansion (src : list Z) (len_p : nat) :
  (1 <= len_p)%nat ->
  read_all src len_p = Ok (latin1_to_utf8 src) /\
  read_all src 1 = read_all src len_p /\
  read_all src 3 = read_all src len_p /\
  read_all src 5 = read_all src len_p.
Proof.
  intros Hk. rewrite !read_all_spec by lia. done.
Qed.

Lemma read_all_is_expansion_witness :
  (1 <= 3)%nat /\ read_all sample 3 = Ok (latin1_to_utf8 sample).
Proof.
  split; [lia|]. apply (read_all_is_expansion sample 3). lia.
Defined.

(** C3. A call of [Read] (on a buffer that is not empty, or with nothing
    pending) returns with the file offset at its old value plus the number
    [i] of source bytes taken in this call, never past the end of the file:
    the bytes written in the call, followed by the byte left pending, are
    the byte that was pending followed by the expansion of exactly the
    source bytes at offsets [pos .. pos + i), so the next call starts at the
    first source byte not yet taken. *)
Theorem Read_repositions (flr : fileLatin1Reader) (len_p : nat) :
  (0 < len_p)%nat \/ currentChar flr = 0 ->
  exists (i : nat) flr' out err,
    Read flr len_p = Ok (flr', out, err) /\
    content (file flr') = content (file flr) /\
    pos (file flr') = (pos (file flr) + i)%nat /\
    (i <= length (content (file flr)) - pos (file flr))%nat /\
    out ++ pend (currentChar flr') =
      pend (currentChar flr) ++
      latin1_to_utf8 (take i (drop (pos (file flr)) (content (file flr)))).
Proof.
  intros Hpre.
  destruct (Read_spec flr len_p Hpre) as
    (i & flr' & out & err & HR & Hcont & Hpos & Hi & Hout & _).
  exists i, flr', out, err. rewrite length_drop in Hi. done.
Qed.

Lemma Read_repositions_witness :
  exists (i : nat) flr' out err,
    Read (open sample) 5 = Ok (flr', out, err) /\
    content (file flr') = sample /\
    pos (file flr') = (0 + i)%nat /\
    (i <= length sample - 0)%nat /\
    out ++ pend (currentChar flr') =
      pend 0 ++ latin1_to_utf8 (take i (drop 0 sample)).
Proof.
  apply (Read_repositions (open sample) 5). left. simpl. lia.
Defined.

Lemma Read_total_inv flr len_p flr' out err :
  Read flr len_p = Ok (flr', out, err) ->
  (0 < len_p)%nat \/ currentChar flr = 0.
Proof.
  intros HR. destruct (Nat.eq_dec len_p 0%nat) as [->|]; [|left; lia].
  right. destruct (Z.eq_dec (currentChar flr) 0) as [|Hne]; [done|].
  unfold Read in HR. destruct (file_Read (file flr) 0) as [[buf ferr] f1].
  destruct (Z.eqb_spec (currentChar flr) 0); [done|]. simpl in HR. discriminate.
Qed.

Lemma reachable_content src flr :
  reachable src flr -> content (file flr) = src.
Proof.
  induction 1 as [|flr len_p flr' out err _ IH HR]; [done|].
  destruct (Read_spec flr len_p) as (i & flr2 & out2 & err2 & HR2 & Hcont & _).
  { by eapply Read_total_inv. }
  rewrite HR in HR2. inversion HR2; subst. congruence.
Qed.

(** Where a pending byte comes from. *)
Lemma reachable_pending src flr :
  reachable src flr ->
  currentChar flr = 0 \/
  exists b, b ∈ src /\ 0x80 <= b /\ currentChar flr = utf8_second b.
Proof.
  intros Hr. destruct Hr as [|flr len_p flr' out err Hr HR]; [by left|].
  destruct (Read_spec flr len_p) as
    (i & flr2 & out2 & err2 & HR2 & _ & _ & _ & _ & Hcur & _).
  { by eapply Read_total_inv. }
  rewrite HR in HR2. inversion HR2; subst flr2.
  by rewrite (reachable_content _ _ Hr) in Hcur.
Qed.

(** The state the second call starts from when the one source byte 0xE9 is
    read through a one-byte buffer. *)
Example one_byte_buffer_first_call :
  Read (open [0xE9]) 1 = Ok (mkReader (mkFile [0xE9] 1) 0xA9, [0xC3], None).
Proof. vm_compute. reflexivity. Qed.

(** C4, as stated, fails: with the file at its end and 0xA9 pending, the
    call that writes the pending byte returns it together with io.EOF, not
    with a nil error. *)
Lemma pending_at_eof_counterexample :
  let flr := mkReader (mkFile [0xE9] 1) 0xA9 in
  Read (open [0xE9]) 1 = Ok (flr, [0xC3], None) /\
  Read flr 1 = Ok (mkReader (mkFile [0xE9] 1) 0, [0xA9], Some EOF) /\
  ~ (exists flr' out, Read flr 1 = Ok (flr', out, None)).
Proof.
  split; [vm_compute; reflexivity|].
  split; [vm_compute; reflexivity|].
  intros (flr' & out & H). vm_compute in H. discriminate.
Qed.

(** C4, amended. When the file is at its end and a byte is pending, the
    call writes that one byte and returns it with io.EOF, leaving nothing
    pending and the file where it was; no call returns io.EOF with a byte
    still pending; and a read loop that takes the bytes of a call before it
    looks at the error collects, from any source, as many bytes as the sum
    over the source bytes of 1 or 2. *)
Theorem pending_byte_delivered_with_eof :
  (forall flr len_p,
     (0 < len_p)%nat -> currentChar flr <> 0 ->
     (length (content (file flr)) <= pos (file flr))%nat ->
     Read flr len_p = Ok (mkReader (file flr) 0, [currentChar flr], Some EOF)) /\
  (forall flr len_p flr' out,
     Read flr len_p = Ok (flr', out, Some EOF) -> currentChar flr' = 0) /\
  (forall src len_p,
     (0 < len_p)%nat ->
     exists out, read_all src len_p = Ok out /\ length out = utf8_len src).
Proof.
  split; [|split].
  - intros flr len_p Hk Hc Hend.
    destruct (Read_spec flr len_p) as
      (i & flr' & out & err & HR & Hcont & Hpos & Hi & Hout & _ & Heof & _ & _ & _ & Hz & _);
      [by left|].
    rewrite length_drop in Hi. assert (i = 0%nat) by lia. subst i.
    rewrite (Hz eq_refl) in Hout. simpl in Hout. rewrite !app_nil_r in Hout.
    rewrite pend_nonzero in Hout by done. subst out.
    assert (He : err = Some EOF) by (apply Heof; split; [done|lia]). subst err.
    rewrite HR. do 3 f_equal.
    destruct flr' as [[c' p'] cur']. destruct flr as [[c p] cur]. simpl in *.
    rewrite (Hz eq_refl). f_equal. f_equal; [done|lia].
  - intros flr len_p flr' out HR.
    destruct (Read_spec flr len_p) as
      (i & flr2 & out2 & err2 & HR2 & _ & _ & Hi & _ & _ & Heof & _ & _ & _ & Hz & _).
    { by eapply Read_total_inv. }
    rewrite HR in HR2. inversion HR2; subst flr2 out2 err2.
    apply Hz. destruct Heof as [Heof _]. destruct Heof as [Hend _]; [done|].
    rewrite length_drop in Hi. lia.
  - intros src len_p Hk. exists (latin1_to_utf8 src). split.
    + apply read_all_spec. lia.
    + apply latin1_to_utf8_length.
Qed.

Lemma pending_byte_delivered_with_eof_witness :
  Read (mkReader (mkFile [0xE9] 1) 0xA9) 1 =
    Ok (mkReader (mkFile [0xE9] 1) 0, [0xA9], Some EOF) /\
  (exists out, read_all sample 5 = Ok out /\ length out = utf8_len sample).
Proof.
  destruct pending_byte_delivered_with_eof as (H1 & _ & H3). split.
  - apply (H1 (mkReader (mkFile [0xE9] 1) 0xA9) 1%nat); simpl; lia.
  - apply (H3 sample 5%nat). lia.
Defined.

(** The loop only appends to what is already written. *)
Lemma transfer_keeps_head len_p buf : forall i o out cur i' out' cur',
  transfer len_p buf i (o :: out) cur = (i', out', cur') ->
  exists t, out' = o :: t.
Proof.
  induction buf as [|b rest IH]; intros i o out cur i' out' cur' H; simpl in H.
  - inversion H. eauto.
  - destruct (len_p <=? S (length out))%nat; [inversion H; eauto|].
    destruct (b <? 128).
    + by apply (IH _ _ (out ++ [b])) in H.
    + destruct (len_p <=? _)%nat.
      * by apply (IH _ _ (out ++ [utf8_first b])) in H.
      * by apply (IH _ _ ((out ++ [utf8_first b]) ++ [utf8_second b])) in H.
Qed.

(** C10. The field [currentChar] of a reader that a program can hold is 0
    or the second byte [0x80 | (b & 0x3f)] of a source byte [b >= 0x80]; that
    byte lies in 0x80..0xBF, so it is never the idle value 0. A call of
    [Read] on a non-empty buffer that starts with the field set writes it
    first, and runs the transfer loop with one byte written and the field
    back at 0. *)
Theorem currentChar_sound (src : list Z) (flr : fileLatin1Reader) :
  reachable src flr ->
  (currentChar flr = 0 \/
   exists b, b ∈ src /\ 0x80 <= b /\ currentChar flr = utf8_second b /\
             0x80 <= currentChar flr <= 0xBF) /\
  pending_ok (currentChar flr) /\
  forall len_p, (0 < len_p)%nat -> currentChar flr <> 0 ->
    exists i flr' out' err,
      Read flr len_p = Ok (flr', currentChar flr :: out', err) /\
      transfer len_p (take len_p (drop (pos (file flr)) (content (file flr))))
               0 [currentChar flr] 0
        = (i, currentChar flr :: out', currentChar flr').
Proof.
  intros Hr. pose proof (reachable_pending _ _ Hr) as Hp.
  split; [|split].
  - destruct Hp as [|(b & Hb & Hge & Hc)]; [by left|right].
    exists b. repeat split; auto; rewrite Hc; apply utf8_second_range.
  - destruct Hp as [|(b & Hb & Hge & Hc)]; [by left|right].
    rewrite Hc. apply utf8_second_range.
  - intros len_p Hk Hne.
    unfold Read, file_Read. cbn [mbind result_bind].
    destruct (Z.eqb_spec (currentChar flr) 0) as [|_]; [done|].
    destruct (Nat.ltb_spec 0 len_p) as [_|]; [|lia].
    cbn [mbind result_bind].
    set (buf := take len_p (drop (pos (file flr)) (content (file flr)))).
    destruct (transfer len_p buf 0 [currentChar flr] 0) as [[i out] cur'] eqn:Ht.
    pose proof Ht as Hspec.
    apply transfer_spec in Hspec as (j & _ & _ & _ & _ & _ & _ & _ & Hlen & _); [|by left].
    destruct out as [|c out']; [simpl in Hlen; lia|].
    assert (c = currentChar flr) as ->.
    { apply transfer_keeps_head in Ht as (t & Ht). by inversion Ht. }
    exists i.
    destruct (if (length buf =? 0)%nat && negb (len_p =? 0)%nat then Some EOF else None)
      as [[]|]; [destruct (negb (cur' =? 0))|]; eauto.
Qed.

Lemma currentChar_sound_witness :
  let flr := mkReader (mkFile [0xE9] 1) 0xA9 in
  reachable [0xE9] flr /\ pending_ok (currentChar flr).
Proof.
  assert (Hr : reachable [0xE9] (mkReader (mkFile [0xE9] 1) 0xA9)).
  { eapply reachable_Read; [apply reachable_open|].
    exact one_byte_buffer_first_call. }
  split; [exact Hr|].
  exact (proj1 (proj2 (currentChar_sound [0xE9] _ Hr))).
Defined.

Local Close Scope Z_scope.

(** ** The ordered container *)

Section BTreeFacts.
Context {A : Type} {Item_A : Item A}.
Implicit Types (k item x y : A) (s l its : list A) (n : node A).

Lemma half_between i j : i < j -> i <= (i + j) / 2 < j.
Proof.
  intros. pose proof (Nat.div_mod_eq (i + j) 2).
  pose proof (Nat.mod_upper_bound (i + j) 2). lia.
Qed.

(** [sort.Search] on a predicate that, once true, stays true below [n]. *)
Lemma search_loop_spec (f : nat -> bool) (n : nat) :
  (forall a b, a <= b -> b < n -> f a = true -> f b = true) ->
  forall fuel i j,
    i <= j -> j <= n -> j - i <= fuel ->
    (forall a, a < i -> f a = false) ->
    (forall a, j <= a -> a < n -> f a = true) ->
    let r := search_loop fuel f i j in
    r <= n /\ (forall a, a < r -> f a = false) /\
    (forall a, r <= a -> a < n -> f a = true).
Proof.
  intros Hmono. induction fuel as [|fuel IH]; intros i j Hij Hjn Hfuel Hlo Hhi;
    cbn [search_loop].
  - assert (i = j) by lia. subst. repeat split; auto; lia.
  - destruct (Nat.ltb_spec i j) as [Hlt|Hge].
    + pose proof (half_between i j Hlt) as Hh.
      destruct (f ((i + j) / 2)) eqn:Hf; cbn [negb].
      * apply IH; try lia; auto.
        intros a Ha Han. apply (Hmono ((i + j) / 2)); auto.
      * apply IH; try lia; auto.
        intros a Ha. destruct (f a) eqn:Hfa; [|done].
        rewrite <- Hf. symmetry. apply (Hmono a); auto; lia.
    + assert (i = j) by lia. subst. repeat split; auto; lia.
Qed.

Lemma Search_spec (f : nat -> bool) (n : nat) :
  (forall a b, a <= b -> b < n -> f a = true -> f b = true) ->
  Search n f <= n /\ (forall a, a < Search n f -> f a = false) /\
  (forall a, Search n f <= a -> a < n -> f a = true).
Proof.
  intros Hmono. apply (search_loop_spec f n Hmono n 0 n); auto; try lia.
Qed.

Lemma rank_le_2 k y : rank k y <= 2.
Proof. unfold rank. destruct (Less k y), (Less y k); lia. Qed.

Lemma rank_2 k y : rank k y = 2 <-> Less k y = true.
Proof. unfold rank. destruct (Less k y), (Less y k); split; (done || lia). Qed.

Lemma rank_0 k y : rank k y = 0 <-> Less k y = false /\ Less y k = true.
Proof.
  unfold rank. destruct (Less k y), (Less y k); split;
    try done; try lia; by intros [? ?].
Qed.

Lemma rank_1 k y : rank k y = 1 <-> Less k y = false /\ Less y k = false.
Proof.
  unfold rank. destruct (Less k y), (Less y k); split;
    try done; try lia; by intros [? ?].
Qed.

Lemma StronglySorted_lookup_lt (R : relation A) l a b x y :
  StronglySorted R l -> l !! a = Some x -> l !! b = Some y -> a < b -> R x y.
Proof.
  intros Hs. revert a b. induction Hs as [|z l Hs IH Hall]; intros a b Ha Hb Hab.
  - done.
  - destruct b as [|b]; [lia|]. simpl in Hb.
    destruct a as [|a]; simpl in Ha.
    + inversion Ha; subst. rewrite Forall_forall in Hall.
      apply Hall. by eapply list_elem_of_lookup_2.
    + apply (IH a b); auto. lia.
Qed.

(** [find] on a sequence laid out for the key. *)
Lemma find_spec s k :
  mono k s ->
  match find s k with
  | (i, true) => exists y, s !! i = Some y /\ rank k y = 1
  | (i, false) =>
      i <= length s /\
      Forall (fun y => rank k y = 0) (take i s) /\
      Forall (fun y => rank k y = 2) (drop i s)
  end.
Proof.
  intros Hm. unfold find.
  set (f := fun i => match s !! i with Some x => Less k x | None => false end).
  assert (Hf : forall a, f a = true <-> exists x, s !! a = Some x /\ rank k x = 2).
  { intros a. unfold f. destruct (s !! a) as [x|].
    - rewrite <- rank_2. split; [eauto|]. by intros (? & [= <-] & ?).
    - split; [done|]. by intros (? & ? & ?). }
  destruct (Search_spec f (length s)) as (Hn & Hlo & Hhi).
  { intros a b Hab Hb Ha. apply Hf in Ha as (x & Hx & Hr).
    destruct (lookup_lt_is_Some_2 s b Hb) as [y Hy].
    apply Hf. exists y. split; [done|].
    destruct (Nat.eq_dec a b) as [->|]; [congruence|].
    pose proof (StronglySorted_lookup_lt _ _ a b x y Hm Hx Hy ltac:(lia)) as Hle.
    unfold le_rank in Hle. pose proof (rank_le_2 k y). lia. }
  set (r := Search (length s) f) in *.
  assert (Hdrop : Forall (fun y => rank k y = 2) (drop r s)).
  { apply Forall_lookup. intros i y Hy. rewrite lookup_drop in Hy.
    assert (Hlt : r + i < length s) by (by eapply lookup_lt_Some).
    pose proof (Hhi (r + i) ltac:(lia) Hlt) as Ht.
    apply Hf in Ht as (x & Hx & Hr). congruence. }
  destruct r as [|r'] eqn:Er.
  - split; [lia|]. split; [by rewrite take_0|done].
  - destruct (lookup_lt_is_Some_2 s r' ltac:(lia)) as [y Hy]. rewrite Hy.
    assert (Hny : Less k y = false).
    { pose proof (Hlo r' ltac:(lia)) as Hfr. unfold f in Hfr. by rewrite Hy in Hfr. }
    destruct (Less y k) eqn:Hyk; simpl.
    + split; [lia|]. split; [|done].
      apply Forall_lookup. intros i x Hx.
      apply lookup_take_Some in Hx as [Hx Hi].
      assert (Hy0 : rank k y = 0) by (by apply rank_0).
      destruct (Nat.eq_dec i r') as [->|]; [congruence|].
      pose proof (StronglySorted_lookup_lt _ _ i r' x y Hm Hx Hy ltac:(lia)) as Hle.
      unfold le_rank in Hle. lia.
    + exists y. split; [done|]. by apply rank_1.
Qed.

(** *** Sequences of children and items *)

Lemma flat_step (c0 : list A) (cs : list (list A)) x its :
  cs <> [] -> flat (c0 :: cs) (x :: its) = c0 ++ x :: flat cs its.
Proof. intros Hne. destruct cs as [|c1 cs]; [done|]. done. Qed.

Lemma flat_middle (cs1 cs2 : list (list A)) (c : list A) is1 is2 :
  length cs1 = length is1 ->
  flat (cs1 ++ c :: cs2) (is1 ++ is2) = pre cs1 is1 ++ c ++ post is2 cs2.
Proof.
  revert is1. induction cs1 as [|c0 cs1 IH]; intros [|x is1] Hlen; try done.
  rewrite <- !app_comm_cons. rewrite flat_step by (by destruct cs1).
  rewrite IH by (simpl in Hlen; lia). simpl. by rewrite <- !app_assoc.
Qed.

(** Replacing one item of a node replaces it in the sequence. *)
Lemma flat_item (cs : list (list A)) is1 is2 y :
  cs = [] \/ length cs = S (length (is1 ++ y :: is2)) ->
  exists l1 l2, forall z, flat cs (is1 ++ z :: is2) = l1 ++ z :: l2.
Proof.
  intros [->|Hlen].
  - exists is1, is2. done.
  - assert (Hsplit : exists cs1 c cs2, cs = cs1 ++ c :: cs2 /\ length cs1 = length is1 /\
                                        cs2 <> []).
    { exists (take (length is1) cs).
      rewrite length_app in Hlen. simpl in Hlen.
      destruct (lookup_lt_is_Some_2 cs (length is1) ltac:(lia)) as [c Hc].
      exists c, (drop (S (length is1)) cs). split; [by rewrite take_drop_middle|].
      split; [rewrite length_take; lia|].
      intros E. apply (f_equal length) in E. rewrite length_drop in E. simpl in E. lia. }
    destruct Hsplit as (cs1 & c & cs2 & -> & Hl1 & Hne).
    destruct cs2 as [|c2 cs2]; [done|].
    exists (pre cs1 is1 ++ c), (c2 ++ post is2 cs2). intros z.
    rewrite flat_middle by done. simpl. by rewrite <- !app_assoc.
Qed.

Lemma pre_snoc (cs : list (list A)) (c : list A) its x :
  length cs = length its ->
  pre (cs ++ [c]) (its ++ [x]) = pre cs its ++ c ++ [x].
Proof.
  revert its. induction cs as [|c0 cs IH]; intros [|y its] Hlen; simpl in *; try done.
  rewrite IH by lia. by rewrite <- !app_assoc.
Qed.

Lemma flat_snoc (cs : list (list A)) (c : list A) its :
  length cs = length its -> flat (cs ++ [c]) its = pre cs its ++ c.
Proof.
  intros Hlen. rewrite <- (app_nil_r its) at 1. rewrite flat_middle by done.
  simpl. by rewrite app_nil_r.
Qed.

Lemma flat_cons (c : list A) (cs : list (list A)) its :
  flat (c :: cs) its = c ++ post its cs.
Proof. done. Qed.

(** The items of a node are among its elements, in their order. *)
Lemma post_sublist its (cs : list (list A)) :
  length cs = length its -> its `sublist_of` post its cs.
Proof.
  revert cs. induction its as [|x its IH]; intros [|c cs] Hlen; simpl in *; try done.
  apply sublist_skip. apply sublist_inserts_l. apply IH. lia.
Qed.

Lemma flat_sublist its (cs : list (list A)) :
  cs = [] \/ length cs = S (length its) -> its `sublist_of` flat cs its.
Proof.
  intros [->|Hlen]; [done|]. destruct cs as [|c cs]; [done|]. simpl in *.
  apply sublist_inserts_l. apply post_sublist. lia.
Qed.

Lemma StronglySorted_sublist (R : relation A) l1 l2 :
  l1 `sublist_of` l2 -> StronglySorted R l2 -> StronglySorted R l1.
Proof.
  induction 1 as [|x l1 l2 Hsub IH|x l1 l2 Hsub IH]; intros Hs.
  - done.
  - apply StronglySorted_cons in Hs as [Hall Hs].
    apply StronglySorted_cons. split; [|auto].
    rewrite Forall_forall in *. intros y Hy. apply Hall.
    by eapply elem_of_sublist.
  - apply StronglySorted_cons in Hs as [_ Hs]. auto.
Qed.

(** Before the first item that the key does not follow, everything has
    rank 0; from the first item the key is less than, everything has
    rank 2. *)
Lemma pre_rank0 k (cs : list (list A)) its rest :
  length cs = length its ->
  mono k (pre cs its ++ rest) ->
  Forall (fun y => rank k y = 0) its ->
  Forall (fun y => rank k y = 0) (pre cs its).
Proof.
  revert its. induction cs as [|c cs IH]; intros [|x its] Hlen Hm Hall; simpl in *;
    try done.
  apply Forall_cons in Hall as [Hx Hall].
  rewrite <- app_assoc in Hm. simpl in Hm.
  apply StronglySorted_app in Hm as (Hcx & _ & Hm).
  apply StronglySorted_cons in Hm as [_ Hm].
  apply Forall_app. split.
  - apply Forall_forall. intros y Hy.
    assert (Hle : le_rank k y x) by (apply Hcx; [done|apply list_elem_of_here]).
    unfold le_rank in Hle. lia.
  - apply Forall_cons. split; [done|]. apply IH; auto; lia.
Qed.

Lemma post_rank2 k its (cs : list (list A)) :
  mono k (post its cs) ->
  Forall (fun y => rank k y = 2) its ->
  Forall (fun y => rank k y = 2) (post its cs).
Proof.
  intros Hm Hall. destruct its as [|x its]; [done|]. destruct cs as [|c cs]; [done|].
  simpl in *. apply Forall_cons in Hall as [Hx _].
  apply StronglySorted_cons in Hm as [Hrest _].
  apply Forall_cons. split; [done|].
  eapply Forall_impl; [exact Hrest|]. intros y Hy. unfold le_rank in Hy.
  pose proof (rank_le_2 k y). lia.
Qed.

(** *** Nodes *)

Lemma wf_inv its (chs : list (node A)) :
  wf (Node its chs) ->
  (chs = [] \/ length chs = S (length its)) /\ Forall wf chs.
Proof. by inversion 1. Qed.

Lemma height_le_children b its (chs : list (node A)) :
  height (Node its chs) <= S b <-> Forall (fun c => height c <= b) chs.
Proof.
  cbn [height]. induction chs as [|c chs IH]; simpl.
  - split; [done|lia].
  - rewrite Forall_cons. split.
    + intros H. split; [lia|]. apply IH. lia.
    + intros [Hc H]. apply IH in H. lia.
Qed.

Lemma height_pos n : 1 <= height n.
Proof. destruct n. cbn [height]. lia. Qed.

Lemma elements_leaf its : elements (Node its []) = its.
Proof. done. Qed.

Lemma elements_middle is1 is2 (ch1 ch2 : list (node A)) c :
  length ch1 = length is1 ->
  elements (Node (is1 ++ is2) (ch1 ++ c :: ch2)) =
    pre (map elements ch1) is1 ++ elements c ++ post is2 (map elements ch2).
Proof.
  intros Hlen. cbn [elements]. rewrite List.map_app. simpl.
  apply flat_middle. by rewrite List.length_map.
Qed.

Lemma items_sublist its (chs : list (node A)) :
  wf (Node its chs) -> its `sublist_of` elements (Node its chs).
Proof.
  intros [Hshape _]%wf_inv. cbn [elements]. apply flat_sublist.
  destruct Hshape as [->|Hlen]; [by left|right]. by rewrite List.length_map.
Qed.

(** An inner node seen from its child number [i]. *)
Lemma internal_at its (chs : list (node A)) i :
  length chs = S (length its) -> i <= length its ->
  exists ch1 c ch2,
    chs = ch1 ++ c :: ch2 /\ length ch1 = i /\
    length ch1 = length (take i its) /\ length ch2 = length (drop i its).
Proof.
  intros Hlen Hi.
  destruct (lookup_lt_is_Some_2 chs i ltac:(lia)) as [c Hc].
  exists (take i chs), c, (drop (S i) chs).
  rewrite take_drop_middle by done.
  rewrite !length_take, !length_drop. repeat split; lia.
Qed.

(** The three stretches of an inner node's sequence around a child, when
    the items before the child have rank 0 and those after it rank 2. *)
Lemma around_child k is1 is2 (cs1 cs2 : list (list A)) (ec : list A) :
  length cs1 = length is1 ->
  mono k (pre cs1 is1 ++ ec ++ post is2 cs2) ->
  Forall (fun y => rank k y = 0) is1 ->
  Forall (fun y => rank k y = 2) is2 ->
  Forall (fun y => rank k y = 0) (pre cs1 is1) /\ mono k ec /\
  Forall (fun y => rank k y = 2) (post is2 cs2).
Proof.
  intros Hlen Hm H0 H2. split; [by eapply pre_rank0|].
  apply StronglySorted_app in Hm as (_ & _ & Hm).
  apply StronglySorted_app in Hm as (_ & Hec & Hpost).
  split; [done|]. by apply post_rank2.
Qed.

Lemma index_middle {B} (l1 l2 : list B) (e : B) :
  index (l1 ++ e :: l2) (length l1) = Ok e.
Proof. unfold index. by rewrite list_lookup_middle. Qed.

Lemma insert_middle {B} (l1 l2 : list B) (e e' : B) :
  <[length l1 := e']> (l1 ++ e :: l2) = l1 ++ e' :: l2.
Proof.
  rewrite insert_app_r_alt by lia. by rewrite Nat.sub_diag.
Qed.

(** *** Lookup *)

Lemma get_unfold its (chs : list (node A)) key :
  get (Node its chs) key =
    let '(i, found) := find its key in
    if found then x ← index its i; Ok (Some x)
    else if 0 <? length chs then c ← index chs i; get c key
    else Ok None.
Proof.
  cbn [get]. destruct (find its key) as [i found]. destruct found; [done|].
  destruct (0 <? length chs); [|done].
  revert i. induction chs as [|c chs IH]; intros [|i]; done.
Qed.

(** [get] returns: with an item that matches the key, or with nothing when
    no item of the subtree matches. *)
Lemma get_spec key : forall h n,
  height n <= h -> wf n -> mono key (elements n) ->
  exists o, get n key = Ok o /\
    match o with
    | Some x => x ∈ elements n /\ rank key x = 1
    | None => Forall (fun y => rank key y <> 1) (elements n)
    end.
Proof.
  induction h as [|h IH]; intros n Hh Hwf Hm.
  { pose proof (height_pos n). lia. }
  destruct n as [its chs].
  pose proof (items_sublist _ _ Hwf) as Hsub.
  destruct (wf_inv _ _ Hwf) as [Hshape Hchs].
  pose proof (find_spec its key (StronglySorted_sublist _ _ _ Hsub Hm)) as Hfind.
  rewrite get_unfold. destruct (find its key) as [i [|]].
  - destruct Hfind as (y & Hy & Hr). unfold index. rewrite Hy. simpl.
    exists (Some y). split; [done|]. split; [|done].
    eapply elem_of_sublist; [|exact Hsub]. by eapply list_elem_of_lookup_2.
  - destruct Hfind as (Hi & H0 & H2).
    destruct Hshape as [->|Hlen].
    + exists None. split; [done|].
      rewrite elements_leaf, <- (take_drop i its). apply Forall_app. split.
      * eapply Forall_impl; [exact H0|]. simpl. intros y ->. done.
      * eapply Forall_impl; [exact H2|]. simpl. intros y ->. done.
    + destruct (Nat.ltb_spec 0 (length chs)) as [_|]; [|lia].
      destruct (internal_at its chs i Hlen Hi) as (ch1 & c & ch2 & -> & Hl1 & Hl1' & Hl2).
      assert (HE : elements (Node its (ch1 ++ c :: ch2)) =
                   pre (map elements ch1) (take i its) ++ elements c ++
                   post (drop i its) (map elements ch2)).
      { rewrite <- (take_drop i its) at 1. by apply elements_middle. }
      rewrite HE in Hm |- *. clear HE.
      assert (Hidx : index (ch1 ++ c :: ch2) i = Ok c)
        by (rewrite <- Hl1; apply index_middle).
      rewrite Hidx. cbn [mbind result_bind].
      destruct (around_child key (take i its) (drop i its) (map elements ch1)
                  (map elements ch2) (elements c)) as (HP & Hmc & HQ);
        [by rewrite List.length_map|done|done|done|].
      apply Forall_app in Hchs as [_ [Hwfc _]%Forall_cons].
      apply height_le_children in Hh.
      apply Forall_app in Hh as [_ [Hhc _]%Forall_cons].
      destruct (IH c Hhc Hwfc Hmc) as (o & Hget & Ho).
      exists o. split; [done|]. destruct o as [x|].
      * destruct Ho as [Hx Hr]. split; [|done].
        apply elem_of_app. right. apply elem_of_app. by left.
      * apply Forall_app. split; [|apply Forall_app; split; [done|]].
        -- eapply Forall_impl; [exact HP|]. simpl. intros y ->. done.
        -- eapply Forall_impl; [exact HQ|]. simpl. intros y ->. done.
Qed.

(** *** Splitting *)

Lemma split_spec its (chs : list (node A)) mid :
  wf (Node its chs) -> mid < length its ->
  exists m first second,
    split (Node its chs) mid = Ok (m, first, second) /\
    wf first /\ wf second /\
    elements (Node its chs) = elements first ++ m :: elements second /\
    (forall b, height (Node its chs) <= b -> height first <= b /\ height second <= b).
Proof.
  intros Hwf Hmid. destruct (wf_inv _ _ Hwf) as [Hshape Hchs].
  destruct (lookup_lt_is_Some_2 its mid Hmid) as [m Hm].
  unfold split, index. rewrite Hm. cbn [mbind result_bind].
  destruct Hshape as [->|Hlen].
  - exists m, (Node (take mid its) []), (Node (drop (S mid) its) []).
    split; [done|]. split; [by constructor; [left|]|]. split; [by constructor; [left|]|].
    split; [by rewrite !elements_leaf, take_drop_middle|].
    intros b Hb. cbn [height] in *. simpl in *. lia.
  - destruct (internal_at its chs mid Hlen ltac:(lia))
      as (ch1 & c & ch2 & Hch & Hl1 & Hl1' & Hl2).
    rewrite length_drop in Hl2.
    destruct ch2 as [|c2 ch2]; [simpl in Hl2; lia|]. simpl in Hl2.
    destruct chs as [|c0 chs0] eqn:Echs; [by destruct ch1|]. rewrite <- Echs in *.
    clear Echs c0 chs0.
    destruct (Nat.leb_spec (S mid) (length chs)) as [_|]; [|lia].
    exists m, (Node (take mid its) (take (S mid) chs)),
           (Node (drop (S mid) its) (drop (S mid) chs)).
    split; [done|].
    split.
    { constructor; [right|by apply Forall_take]. rewrite !length_take. lia. }
    split.
    { constructor; [right|by apply Forall_drop]. rewrite !length_drop. lia. }
    split.
    { rewrite <- (take_drop_middle its mid m Hm) at 1. rewrite Hch.
      rewrite elements_middle by (rewrite length_take; lia).
      replace (take (S mid) (ch1 ++ c :: c2 :: ch2)) with (ch1 ++ [c]).
      2:{ rewrite (cons_middle c ch1 (c2 :: ch2)), app_assoc.
          rewrite take_app_length'; [done|].
          rewrite length_app. simpl. lia. }
      replace (drop (S mid) (ch1 ++ c :: c2 :: ch2)) with (c2 :: ch2).
      2:{ rewrite (cons_middle c ch1 (c2 :: ch2)), app_assoc.
          rewrite drop_app_length'; [done|].
          rewrite length_app. simpl. lia. }
      cbn [elements]. rewrite List.map_app. simpl.
      rewrite flat_snoc by (rewrite List.length_map, length_take; lia).
      by rewrite <- !app_assoc. }
    intros [|b] Hb; [pose proof (height_pos (Node its chs)); lia|].
    apply height_le_children in Hb.
    split; apply height_le_children; [by apply Forall_take|by apply Forall_drop].
Qed.

Lemma insertAt_middle {B} (l1 l2 : list B) (e : B) :
  insertAt (l1 ++ l2) (length l1) e = Ok (l1 ++ e :: l2).
Proof.
  unfold insertAt. rewrite length_app.
  destruct (Nat.leb_spec (length l1) (length l1 + length l2)); [|lia].
  by rewrite take_app_length, drop_app_length.
Qed.

(** [maybeSplitChild] at child [c] either leaves the node alone, or puts
    the two halves of [c] in its place with the middle item between them. *)
Lemma maybeSplitChild_spec is1 is2 (ch1 ch2 : list (node A)) c maxItems :
  1 <= maxItems -> length ch1 = length is1 -> wf c ->
  maybeSplitChild (Node (is1 ++ is2) (ch1 ++ c :: ch2)) (length ch1) maxItems
    = Ok (Node (is1 ++ is2) (ch1 ++ c :: ch2), false) \/
  exists m first second,
    maybeSplitChild (Node (is1 ++ is2) (ch1 ++ c :: ch2)) (length ch1) maxItems
      = Ok (Node (is1 ++ m :: is2) (ch1 ++ first :: second :: ch2), true) /\
    wf first /\ wf second /\
    elements c = elements first ++ m :: elements second /\
    (forall b, height c <= b -> height first <= b /\ height second <= b).
Proof.
  intros Hmax Hlen Hwfc. unfold maybeSplitChild.
  rewrite index_middle. cbn [mbind result_bind].
  destruct (Nat.ltb_spec (length (items c)) maxItems) as [|Hfull]; [by left|right].
  destruct c as [cits cchs]. cbn [items] in Hfull.
  destruct (split_spec cits cchs (maxItems / 2) Hwfc)
    as (m & first & second & Hsplit & Hwf1 & Hwf2 & Hel & Hh).
  { pose proof (Nat.div_lt maxItems 2). lia. }
  exists m, first, second. rewrite Hsplit. cbn [mbind result_bind].
  rewrite Hlen at 1. rewrite insertAt_middle. cbn [mbind result_bind].
  rewrite insert_middle.
  replace (S (length ch1)) with (length (ch1 ++ [first]))
    by (rewrite length_app; simpl; lia).
  rewrite (cons_middle first ch1 ch2), app_assoc, insertAt_middle.
  cbn [mbind result_bind]. rewrite <- app_assoc. done.
Qed.

Lemma elements_after_split is1 is2 (ch1 ch2 : list (node A)) c first second m :
  length ch1 = length is1 ->
  elements c = elements first ++ m :: elements second ->
  elements (Node (is1 ++ m :: is2) (ch1 ++ first :: second :: ch2)) =
  elements (Node (is1 ++ is2) (ch1 ++ c :: ch2)).
Proof.
  intros Hlen Hc. rewrite !elements_middle by done. rewrite Hc. simpl.
  by rewrite <- !app_assoc.
Qed.

(** *** Insertion *)

Lemma inserted_around item (P Q E E' : list A) out :
  Forall (fun y => rank item y = 0) P ->
  Forall (fun y => rank item y = 2) Q ->
  inserted item E E' out ->
  inserted item (P ++ E ++ Q) (P ++ E' ++ Q) out.
Proof.
  intros HP HQ Hins. destruct out as [x|]; simpl in *.
  - destruct Hins as (l1 & l2 & -> & -> & Hr).
    exists (P ++ l1), (l2 ++ Q). by rewrite <- !app_assoc.
  - destruct Hins as (l1 & l2 & -> & -> & H0 & H2).
    exists (P ++ l1), (l2 ++ Q). rewrite <- !app_assoc.
    repeat split; try done; by apply Forall_app.
Qed.

Lemma descend_spec item maxItems fuel is1 is2 (ch1 ch2 : list (node A)) c :
  (forall n, height n <= fuel -> wf n -> mono item (elements n) ->
             insert_ok fuel item maxItems n) ->
  height c <= fuel ->
  length ch1 = length is1 -> length ch2 = length is2 ->
  Forall wf (ch1 ++ c :: ch2) ->
  mono item (elements (Node (is1 ++ is2) (ch1 ++ c :: ch2))) ->
  Forall (fun y => rank item y = 0) is1 ->
  Forall (fun y => rank item y = 2) is2 ->
  exists n' out,
    descend (fun c => insert fuel c item maxItems) (is1 ++ is2) (ch1 ++ c :: ch2)
            (length ch1) = Ok (n', out) /\ wf n' /\
    inserted item (elements (Node (is1 ++ is2) (ch1 ++ c :: ch2))) (elements n') out.
Proof.
  intros IH Hhc Hl1 Hl2 Hwf Hm H0 H2.
  rewrite elements_middle in Hm |- * by done.
  destruct (around_child item is1 is2 (map elements ch1) (map elements ch2) (elements c))
    as (HP & Hmc & HQ); [by rewrite List.length_map|done|done|done|].
  pose proof Hwf as Hwf'.
  apply Forall_app in Hwf' as [Hwf1 [Hwfc Hwf2]%Forall_cons].
  destruct (IH c Hhc Hwfc Hmc) as (c' & out & Hins & Hwfc' & Hspec).
  unfold descend. rewrite index_middle. cbn [mbind result_bind].
  rewrite Hins. cbn [mbind result_bind]. rewrite insert_middle.
  exists (Node (is1 ++ is2) (ch1 ++ c' :: ch2)), out. split; [done|].
  split.
  - constructor.
    + right. rewrite !length_app. simpl. lia.
    + apply Forall_app. split; [done|]. by apply Forall_cons.
  - rewrite elements_middle by done. by apply inserted_around.
Qed.

Lemma insert_spec item maxItems : 1 <= maxItems -> forall fuel n,
  height n <= fuel -> wf n -> mono item (elements n) ->
  insert_ok fuel item maxItems n.
Proof.
  intros Hmax. induction fuel as [|fuel IH]; intros n Hh Hwf Hm.
  { pose proof (height_pos n). lia. }
  destruct n as [its chs]. unfold insert_ok.
  pose proof (items_sublist _ _ Hwf) as Hsub.
  destruct (wf_inv _ _ Hwf) as [Hshape Hchs].
  pose proof (find_spec its item (StronglySorted_sublist _ _ _ Hsub Hm)) as Hfind.
  cbn [insert]. destruct (find its item) as [i [|]].
  - (* an item of this node matches: it is replaced *)
    destruct Hfind as (y & Hy & Hr). unfold index. rewrite Hy. cbn [mbind result_bind].
    exists (Node (<[i:=item]> its) chs), (Some y). split; [done|].
    assert (Hi : i < length its) by (by eapply lookup_lt_Some).
    split.
    { constructor; [|done]. rewrite length_insert. done. }
    destruct (flat_item (map elements chs) (take i its) (drop (S i) its) y)
      as (l1 & l2 & Hflat).
    { destruct Hshape as [->|Hlen]; [by left|right].
      rewrite List.length_map, take_drop_middle by done. done. }
    exists l1, l2. cbn [elements].
    rewrite insert_take_drop by done. rewrite <- !Hflat.
    rewrite take_drop_middle by done. done.
  - destruct Hfind as (Hi & H0 & H2).
    destruct Hshape as [->|Hlen].
    + (* a leaf: the item goes in at [i] *)
      cbn [length Nat.eqb]. unfold insertAt.
      destruct (Nat.leb_spec i (length its)); [|lia]. cbn [mbind result_bind].
      exists (Node (take i its ++ item :: drop i its) []), None.
      split; [done|]. split; [by constructor; [left|]|].
      exists (take i its), (drop i its). rewrite !elements_leaf.
      by rewrite take_drop.
    + (* an inner node: down into child [i], split first when it is full *)
      destruct (Nat.eqb_spec (length chs) 0) as [|_]; [lia|].
      destruct (internal_at its chs i Hlen Hi) as (ch1 & c & ch2 & -> & Hl1 & Hl1' & Hl2).
      set (is1 := take i its) in *. set (is2 := drop i its) in *.
      assert (Hits : its = is1 ++ is2) by (unfold is1, is2; by rewrite take_drop).
      clearbody is1 is2. subst its. subst i.
      pose proof Hchs as Hchs'.
      apply Forall_app in Hchs' as [Hwf1 [Hwfc Hwf2]%Forall_cons].
      apply height_le_children in Hh.
      pose proof Hh as Hh'.
      apply Forall_app in Hh' as [_ [Hhc _]%Forall_cons].
      destruct (maybeSplitChild_spec is1 is2 ch1 ch2 c maxItems Hmax Hl1' Hwfc)
        as [Hno|(m & first & second & Hsp & Hwff & Hwfs & Hel & Hhs)].
      * rewrite Hno. cbn [mbind result_bind].
        apply descend_spec; auto.
      * rewrite Hsp. cbn [mbind result_bind].
        assert (Hidx : index (is1 ++ m :: is2) (length ch1) = Ok m)
          by (rewrite Hl1'; apply index_middle).
        rewrite Hidx. cbn [mbind result_bind].
        destruct (Hhs fuel Hhc) as [Hhf Hhsnd].
        pose proof (elements_after_split is1 is2 ch1 ch2 c first second m Hl1' Hel) as HE.
        rewrite <- HE in Hm |- *.
        assert (Hwf' : Forall wf (ch1 ++ first :: second :: ch2)).
        { apply Forall_app. split; [done|]. repeat (constructor; [done|]); done. }
        destruct (Less item m) eqn:Him.
        { (* the item is less than the middle item: into the first half *)
          apply descend_spec; auto.
          - simpl. lia.
          - apply Forall_cons. split; [by apply rank_2|done]. }
        destruct (Less m item) eqn:Hmi.
        { (* the middle item is less: into the second half *)
          replace (S (length ch1)) with (length (ch1 ++ [first]))
            by (rewrite length_app; simpl; lia).
          revert Hm.
          rewrite (cons_middle m is1 is2), (cons_middle first ch1 (second :: ch2)).
          rewrite !app_assoc. intros Hm.
          apply descend_spec; auto.
          - rewrite !length_app. simpl. lia.
          - by rewrite <- app_assoc.
          - apply Forall_app. split; [done|]. apply Forall_cons.
            split; [by apply rank_0|done]. }
        (* the middle item matches: it is replaced *)
        exists (Node (<[length ch1:=item]> (is1 ++ m :: is2))
                     (ch1 ++ first :: second :: ch2)), (Some m).
        split; [done|].
        split.
        { constructor; [right|done].
          rewrite length_insert, !length_app. simpl.
          rewrite !length_app in Hlen. simpl in Hlen. lia. }
        destruct (flat_item (map elements (ch1 ++ first :: second :: ch2)) is1 is2 m)
          as (l1 & l2 & Hflat).
        { right. rewrite List.length_map, !length_app. simpl.
          rewrite !length_app in Hlen. simpl in Hlen. lia. }
        exists l1, l2. cbn [elements].
        rewrite Hl1', insert_middle. rewrite <- !Hflat.
        split; [done|]. split; [done|]. by apply rank_1.
Qed.

(** *** Insertion always returns

    Whatever the comparator answers, an insertion into a well-shaped tree
    indexes inside its slices and gives back a well-shaped tree. *)

Lemma search_loop_bound (f : nat -> bool) : forall fuel i j,
  i <= j -> i <= search_loop fuel f i j <= j.
Proof.
  induction fuel as [|fuel IH]; intros i j Hij; cbn [search_loop]; [lia|].
  destruct (Nat.ltb_spec i j) as [Hlt|]; [|lia].
  pose proof (half_between i j Hlt).
  destruct (negb (f ((i + j) / 2))).
  - specialize (IH ((i + j) / 2 + 1) j). lia.
  - specialize (IH i ((i + j) / 2)). lia.
Qed.

Lemma find_bound s item :
  (find s item).1 <= length s /\
  ((find s item).2 = true -> (find s item).1 < length s).
Proof.
  unfold find.
  set (f := fun i => match s !! i with Some x => Less item x | None => false end).
  pose proof (search_loop_bound f (length s) 0 (length s) ltac:(lia)) as Hb.
  fold (Search (length s) f) in Hb.
  destruct (Search (length s) f) as [|r]; simpl; [split; [lia|done]|].
  destruct (s !! r) as [y|]; simpl; [|split; [lia|done]].
  destruct (negb (Less y item)); simpl; split; (lia || done).
Qed.

Lemma descend_total item maxItems fuel is1 is2 (ch1 ch2 : list (node A)) c :
  insert_returns fuel item maxItems c ->
  length ch1 = length is1 -> length ch2 = length is2 ->
  Forall wf (ch1 ++ c :: ch2) ->
  exists n' out,
    descend (fun c => insert fuel c item maxItems) (is1 ++ is2) (ch1 ++ c :: ch2)
            (length ch1) = Ok (n', out) /\ wf n'.
Proof.
  intros (c' & out & Hins & Hwfc') Hl1 Hl2 Hwf.
  unfold descend. rewrite index_middle. cbn [mbind result_bind].
  rewrite Hins. cbn [mbind result_bind]. rewrite insert_middle.
  eexists _, out. split; [done|].
  apply Forall_app in Hwf as [Hwf1 [_ Hwf2]%Forall_cons].
  constructor.
  - right. rewrite !length_app. simpl. lia.
  - apply Forall_app. split; [done|]. by apply Forall_cons.
Qed.

Lemma insert_total item maxItems : 1 <= maxItems -> forall fuel n,
  height n <= fuel -> wf n -> insert_returns fuel item maxItems n.
Proof.
  intros Hmax. induction fuel as [|fuel IH]; intros n Hh Hwf.
  { pose proof (height_pos n). lia. }
  destruct n as [its chs]. unfold insert_returns.
  destruct (wf_inv _ _ Hwf) as [Hshape Hchs].
  pose proof (find_bound its item) as [Hi Hfound].
  cbn [insert]. destruct (find its item) as [i found]. simpl in Hi, Hfound.
  destruct found.
  - destruct (lookup_lt_is_Some_2 its i (Hfound eq_refl)) as [y Hy].
    unfold index. rewrite Hy. cbn [mbind result_bind].
    eexists _, _. split; [done|]. constructor; [|done]. by rewrite length_insert.
  - destruct Hshape as [->|Hlen].
    + cbn [length Nat.eqb]. unfold insertAt.
      destruct (Nat.leb_spec i (length its)); [|lia]. cbn [mbind result_bind].
      eexists _, _. split; [done|]. by constructor; [left|].
    + destruct (Nat.eqb_spec (length chs) 0) as [|_]; [lia|].
      destruct (internal_at its chs i Hlen Hi) as (ch1 & c & ch2 & -> & Hl1 & Hl1' & Hl2).
      set (is1 := take i its) in *. set (is2 := drop i its) in *.
      assert (Hits : its = is1 ++ is2) by (unfold is1, is2; by rewrite take_drop).
      clearbody is1 is2. subst its. subst i.
      pose proof Hchs as Hchs'.
      apply Forall_app in Hchs' as [Hwf1 [Hwfc Hwf2]%Forall_cons].
      apply height_le_children in Hh.
      pose proof Hh as Hh'.
      apply Forall_app in Hh' as [_ [Hhc _]%Forall_cons].
      destruct (maybeSplitChild_spec is1 is2 ch1 ch2 c maxItems Hmax Hl1' Hwfc)
        as [Hno|(m & first & second & Hsp & Hwff & Hwfs & Hel & Hhs)].
      * rewrite Hno. cbn [mbind result_bind]. apply descend_total; auto.
      * rewrite Hsp. cbn [mbind result_bind].
        assert (Hidx : index (is1 ++ m :: is2) (length ch1) = Ok m)
          by (rewrite Hl1'; apply index_middle).
        rewrite Hidx. cbn [mbind result_bind].
        destruct (Hhs fuel Hhc) as [Hhf Hhsnd].
        assert (Hwf' : Forall wf (ch1 ++ first :: second :: ch2)).
        { apply Forall_app. split; [done|]. repeat (constructor; [done|]); done. }
        destruct (Less item m).
        { apply descend_total; auto. simpl. lia. }
        destruct (Less m item).
        { replace (S (length ch1)) with (length (ch1 ++ [first]))
            by (rewrite length_app; simpl; lia).
          rewrite (cons_middle m is1 is2), (cons_middle first ch1 (second :: ch2)).
          rewrite !app_assoc.
          apply descend_total; auto.
          - rewrite !length_app. simpl. lia.
          - by rewrite <- app_assoc. }
        eexists _, _. split; [done|]. constructor; [right|done].
        rewrite length_insert, !length_app. simpl.
        rewrite !length_app in Hlen. simpl in Hlen. lia.
Qed.

Lemma ReplaceOrInsert_total (t : BTree A) item :
  tree_wf t -> exists t' out, ReplaceOrInsert t item = Ok (t', out) /\ tree_wf t'.
Proof.
  intros [Hd Hwf]. unfold ReplaceOrInsert, tree_wf in *.
  destruct (root t) as [r|].
  - assert (Hmax : 1 <= maxItems t) by (unfold maxItems; lia).
    assert (Hr1 : exists r1,
               (if maxItems t <=? length (items r)
                then '(item2, first, second) ← split r (maxItems t / 2);
                     Ok (Node [item2] [first; second])
                else Ok r) = Ok r1 /\ wf r1).
    { destruct (Nat.leb_spec (maxItems t) (length (items r))) as [Hfull|]; [|eauto].
      destruct r as [its chs]. cbn [items] in Hfull.
      destruct (split_spec its chs (maxItems t / 2) Hwf)
        as (m & first & second & Hsplit & Hwf1 & Hwf2 & _).
      { pose proof (Nat.div_lt (maxItems t) 2). lia. }
      rewrite Hsplit. cbn [mbind result_bind].
      eexists. split; [done|].
      constructor; [by right|]. repeat (constructor; [done|]); done. }
    destruct Hr1 as (r1 & -> & Hwf1). cbn [mbind result_bind].
    destruct (insert_total item (maxItems t) Hmax (height r1) r1 (le_n _) Hwf1)
      as (r2 & out & Hins & Hwf2).
    rewrite Hins. cbn [mbind result_bind].
    eexists _, out. split; [done|]. simpl. done.
  - eexists _, None. split; [done|]. simpl. split; [done|]. by constructor; [left|].
Qed.

Lemma insert_all_total l : forall (t : BTree A),
  tree_wf t -> exists t', insert_all t l = Ok t' /\ tree_wf t'.
Proof.
  induction l as [|x l IH]; intros t Hwf; [by exists t|].
  destruct (ReplaceOrInsert_total t x Hwf) as (t1 & out & Hins & Hwf1).
  simpl. rewrite Hins. cbn [mbind result_bind]. by apply IH.
Qed.

(** *** The tree as a whole *)

Lemma New_spec d : 2 <= d ->
  exists t : BTree A,
    New d = Ok t /\ tree_wf t /\ tree_elements t = [] /\ count t = 0 /\ degree t = d.
Proof.
  intros Hd. unfold New. destruct (Nat.leb_spec d 1); [lia|].
  eexists. split; [done|]. repeat split; simpl; auto.
Qed.

Lemma ReplaceOrInsert_spec (t : BTree A) item :
  tree_wf t -> mono item (tree_elements t) ->
  exists t' out,
    ReplaceOrInsert t item = Ok (t', out) /\ tree_wf t' /\
    inserted item (tree_elements t) (tree_elements t') out /\
    count t' = match out with None => S (count t) | Some _ => count t end.
Proof.
  intros [Hd Hwf] Hm. unfold ReplaceOrInsert, tree_elements in *.
  destruct (root t) as [r|].
  - assert (Hmax : 1 <= maxItems t) by (unfold maxItems; lia).
    assert (Hr1 : exists r1,
               (if maxItems t <=? length (items r)
                then '(item2, first, second) ← split r (maxItems t / 2);
                     Ok (Node [item2] [first; second])
                else Ok r) = Ok r1 /\ wf r1 /\ elements r1 = elements r).
    { destruct (Nat.leb_spec (maxItems t) (length (items r))) as [Hfull|]; [|eauto].
      destruct r as [its chs]. cbn [items] in Hfull.
      destruct (split_spec its chs (maxItems t / 2) Hwf)
        as (m & first & second & Hsplit & Hwf1 & Hwf2 & Hel & _).
      { pose proof (Nat.div_lt (maxItems t) 2). lia. }
      rewrite Hsplit. cbn [mbind result_bind].
      exists (Node [m] [first; second]). split; [done|]. split.
      - constructor; [by right|]. repeat (constructor; [done|]); done.
      - rewrite Hel. cbn [elements]. simpl. by rewrite app_nil_r. }
    destruct Hr1 as (r1 & -> & Hwf1 & Hel). cbn [mbind result_bind].
    rewrite <- Hel in Hm |- *.
    destruct (insert_spec item (maxItems t) Hmax (height r1) r1 (le_n _) Hwf1 Hm)
      as (r2 & out & Hins & Hwf2 & Hspec).
    rewrite Hins. cbn [mbind result_bind].
    eexists _, out. split; [done|]. simpl. repeat split; auto.
  - eexists _, None. split; [done|]. simpl. repeat split; auto.
    exists [], []. by repeat split.
Qed.

Lemma Get_spec (t : BTree A) key :
  tree_wf t -> mono key (tree_elements t) ->
  exists o, Get t key = Ok o /\
    match o with
    | Some x => x ∈ tree_elements t /\ rank key x = 1
    | None => Forall (fun y => rank key y <> 1) (tree_elements t)
    end.
Proof.
  intros [_ Hwf] Hm. unfold Get, tree_elements in *. destruct (root t) as [r|].
  - by apply (get_spec key (height r)).
  - by exists None.
Qed.

(** A sequence whose ranks are 0, then 1 for one item, then 2 is laid out
    for the key, and the lookup finds that item. *)
Lemma mono_around k l1 l2 x :
  Forall (fun y => rank k y = 0) l1 -> Forall (fun y => rank k y = 2) l2 ->
  mono k (l1 ++ x :: l2).
Proof.
  intros H0 H2.
  assert (Hconst : forall c l, Forall (fun y => rank k y = c) l -> mono k l).
  { intros c l Hc. induction Hc as [|y l Hy Hc IH]; constructor; [done|].
    eapply Forall_impl; [exact Hc|]. intros z Hz. simpl in Hz. unfold le_rank. lia. }
  apply StronglySorted_app. split; [|split; [by eapply Hconst|]].
  - intros y z Hy Hz. rewrite Forall_forall in H0. unfold le_rank.
    rewrite (H0 y Hy). lia.
  - constructor; [by eapply Hconst|].
    eapply Forall_impl; [exact H2|]. intros z Hz. simpl in Hz. unfold le_rank.
    pose proof (rank_le_2 k x). lia.
Qed.

Lemma Get_around (t : BTree A) k l1 l2 x :
  tree_wf t -> tree_elements t = l1 ++ x :: l2 ->
  Forall (fun y => rank k y = 0) l1 -> rank k x = 1 ->
  Forall (fun y => rank k y = 2) l2 ->
  Get t k = Ok (Some x).
Proof.
  intros Hwf HE H0 Hx H2.
  destruct (Get_spec t k Hwf) as (o & -> & Ho).
  { rewrite HE. by apply mono_around. }
  rewrite HE in Ho. destruct o as [z|].
  - destruct Ho as [Hz Hr]. apply elem_of_app in Hz as [Hz|Hz].
    + rewrite Forall_forall in H0. rewrite (H0 z Hz) in Hr. done.
    + apply elem_of_cons in Hz as [->|Hz]; [done|].
      rewrite Forall_forall in H2. rewrite (H2 z Hz) in Hr. done.
  - apply Forall_app in Ho as [_ [Hn _]%Forall_cons]. done.
Qed.

(** *** Indexes whose items are apart from each other *)

Section Ordered.
Variable ok : A -> Prop.
Hypothesis Less_trans :
  forall x y z, ok y -> Less x y = true -> Less y z = true -> Less x z = true.

Lemma sorted_mono k l : ok k -> Forall ok l -> sorted l -> mono k l.
Proof.
  intros Hk Hok Hs. induction Hs as [|x l Hs IH Hall]; [constructor|].
  apply Forall_cons in Hok as [Hx Hok].
  constructor; [by apply IH|].
  rewrite Forall_forall in *. intros y Hy. specialize (Hall y Hy).
  specialize (Hok y Hy). unfold lt, le_rank, rank in *.
  destruct (Less k y) eqn:Hky; [destruct (Less k x), (Less x k); lia|].
  destruct (Less k x) eqn:Hkx.
  { rewrite (Less_trans k x y Hx Hkx Hall) in Hky. done. }
  destruct (Less y k) eqn:Hyk; [|destruct (Less x k); lia].
  by rewrite (Less_trans x y k Hok Hall Hyk).
Qed.

Lemma inserted_sorted item E E' :
  sorted E -> inserted item E E' None -> sorted E'.
Proof.
  intros Hs (l1 & l2 & -> & -> & H0 & H2).
  apply StronglySorted_app in Hs as (H12 & Hs1 & Hs2).
  apply StronglySorted_app. split; [|split; [done|]].
  - intros x y Hx Hy. apply elem_of_cons in Hy as [->|Hy]; [|by apply H12].
    rewrite Forall_forall in H0. apply H0, rank_0 in Hx. by destruct Hx.
  - apply StronglySorted_cons. split; [|done].
    eapply Forall_impl; [exact H2|]. intros y Hy. by apply rank_2.
Qed.

Lemma apart_rank x y : apart x y -> rank x y <> 1.
Proof. intros [H|H] [H1 H2]%rank_1; congruence. Qed.

(** Inserting items that are apart from each other and from what the tree
    holds: every insertion returns, nothing is replaced, and the tree holds
    its old items and the new ones, in order. *)
Lemma insert_all_spec l : forall (t : BTree A),
  tree_wf t -> sorted (tree_elements t) ->
  Forall ok (tree_elements t) -> Forall ok l ->
  pairwise_apart l ->
  Forall (fun x => Forall (apart x) (tree_elements t)) l ->
  exists t',
    insert_all t l = Ok t' /\ tree_wf t' /\ sorted (tree_elements t') /\
    tree_elements t' ≡ₚ tree_elements t ++ l /\
    count t' = count t + length l.
Proof.
  induction l as [|x l IH]; intros t Hwf Hs Hok Hokl Hap Hnew.
  - exists t. rewrite app_nil_r. simpl.
    split; [done|]. split; [done|]. split; [done|]. split; [done|lia].
  - apply Forall_cons in Hokl as [Hx Hokl].
    apply StronglySorted_cons in Hap as [Hxl Hap].
    apply Forall_cons in Hnew as [Hxt Hnew].
    destruct (ReplaceOrInsert_spec t x Hwf (sorted_mono x _ Hx Hok Hs))
      as (t1 & out & Hins & Hwf1 & Hspec & Hcount).
    destruct out as [y|].
    { destruct Hspec as (l1 & l2 & HE & _ & Hr). exfalso.
      rewrite Forall_forall in Hxt.
      apply (apart_rank x y); [|done]. apply Hxt. rewrite HE.
      apply elem_of_app. right. left. }
    pose proof (inserted_sorted _ _ _ Hs Hspec) as Hs1.
    destruct Hspec as (l1 & l2 & HE & HE' & _).
    assert (Hperm : tree_elements t1 ≡ₚ x :: tree_elements t).
    { rewrite HE, HE'. symmetry. apply Permutation_middle. }
    destruct (IH t1) as (t' & Hall & Hwf' & Hs' & Hperm' & Hcount'); auto.
    + rewrite Hperm. by apply Forall_cons.
    + rewrite Forall_forall in *. intros y Hy.
      rewrite Hperm. apply Forall_cons. split; [|auto].
      destruct (Hxl y Hy) as [?|?]; [by right|by left].
    + exists t'. simpl. rewrite Hins. cbn [mbind result_bind].
      split; [done|]. split; [done|]. split; [done|]. split.
      * rewrite Hperm', Hperm. simpl. apply Permutation_middle.
      * lia.
Qed.

(** An index built from items that are apart from each other. *)
Lemma index_built d l :
  2 <= d -> Forall ok l -> pairwise_apart l ->
  exists t : BTree A,
    (t0 ← New d; insert_all t0 l) = Ok t /\ tree_wf t /\
    sorted (tree_elements t) /\ tree_elements t ≡ₚ l /\ Len t = length l.
Proof.
  intros Hd Hok Hap.
  destruct (New_spec d Hd) as (t0 & -> & Hwf0 & HE0 & Hc0 & _). cbn [mbind result_bind].
  destruct (insert_all_spec l t0) as (t & -> & Hwf & Hs & Hperm & Hcount); auto.
  { rewrite HE0. constructor. }
  { by rewrite HE0. }
  { apply Forall_forall. intros x _. by rewrite HE0. }
  rewrite HE0 in Hperm. simpl in Hperm.
  exists t. repeat split; auto; try apply Hwf. unfold Len. lia.
Qed.

(** Lookup of a point in a sorted tree. *)
Lemma sorted_lookup (t : BTree A) k :
  tree_wf t -> sorted (tree_elements t) -> Forall ok (tree_elements t) ->
  ok k -> point ok k ->
  (forall x, x ∈ tree_elements t -> matches k x -> Get t k = Ok (Some x)) /\
  ((forall x, x ∈ tree_elements t -> ~ matches k x) -> Get t k = Ok None).
Proof.
  intros Hwf Hs Hokt Hk Hpt.
  destruct (Get_spec t k Hwf (sorted_mono k _ Hk Hokt Hs)) as (o & -> & Ho).
  split.
  - intros x Hx Hmx. destruct o as [y|].
    + destruct Ho as [Hy Hr]. apply rank_1 in Hr.
      destruct (list_elem_of_lookup_1 _ _ Hy) as [j Hj].
      destruct (list_elem_of_lookup_1 _ _ Hx) as [i Hi].
      rewrite Forall_forall in Hokt.
      destruct (Nat.lt_total i j) as [Hij|[->|Hji]]; [| congruence |]; exfalso.
      * apply (Hpt x y); auto. eapply (StronglySorted_lookup_lt lt); eauto.
      * apply (Hpt y x); auto. eapply (StronglySorted_lookup_lt lt); eauto.
    + exfalso. rewrite Forall_forall in Ho.
      apply (Ho x Hx). by apply rank_1.
  - intros Hnone. destruct o as [y|]; [|done]. exfalso.
    destruct Ho as [Hy Hr]. apply (Hnone y Hy). by apply rank_1.
Qed.

(** Lookup in an index built from items that are apart from each other. *)
Lemma index_lookup d l :
  2 <= d -> Forall ok l -> pairwise_apart l ->
  exists t, (t0 ← New d; insert_all t0 l) = Ok t /\ Len t = length l /\
    forall k, ok k -> point ok k ->
      (forall x, x ∈ l -> matches k x -> Get t k = Ok (Some x)) /\
      ((forall x, x ∈ l -> ~ matches k x) -> Get t k = Ok None).
Proof.
  intros Hd Hok Hap.
  destruct (index_built d l Hd Hok Hap) as (t & Ht & Hwf & Hs & Hperm & Hlen).
  exists t. split; [done|]. split; [done|]. intros k Hk Hpt.
  assert (Hokt : Forall ok (tree_elements t)) by (by rewrite Hperm).
  destruct (sorted_lookup t k Hwf Hs Hokt Hk Hpt) as [Hin Hout].
  split.
  - intros x Hx. apply Hin. by rewrite Hperm.
  - intros Hnone. apply Hout. intros x Hx. apply Hnone. by rewrite <- Hperm.
Qed.

End Ordered.

Lemma index_total d (l : list A) :
  2 <= d -> exists t : BTree A, (t0 ← New d; insert_all t0 l) = Ok t /\ tree_wf t.
Proof.
  intros Hd. destruct (New_spec d Hd) as (t0 & -> & Hwf0 & _).
  cbn [mbind result_bind]. by apply insert_all_total.
Qed.

End BTreeFacts.

(** ** Range indexes: Blocks and ASNs *)

Section RangeIndex.
Context {A : Type} {Item_A : Item A} (lo hi : A -> Z) (key : Z -> A).
Hypothesis Less_range : forall x y, Less x y = (hi x <? lo y)%Z.
Hypothesis key_point : forall p, lo (key p) = p /\ hi (key p) = p.

Local Abbreviation valid := (valid lo hi).
Local Abbreviation holds := (holds lo hi).
Local Abbreviation disjoint := (disjoint lo hi).

Lemma range_trans x y z :
  valid y -> Less x y = true -> Less y z = true -> Less x z = true.
Proof.
  unfold valid. rewrite !Less_range. rewrite !Z.ltb_lt. lia.
Qed.

Lemma range_matches p r : matches (key p) r <-> holds r p.
Proof.
  unfold matches, holds. rewrite !Less_range.
  destruct (key_point p) as [-> ->]. rewrite !Z.ltb_ge. lia.
Qed.

Lemma range_apart a b : apart a b <-> disjoint a b.
Proof. unfold apart, disjoint. rewrite !Less_range, !Z.ltb_lt. done. Qed.

Lemma range_rank1 r x : rank r x = 1 <-> ~ disjoint r x.
Proof.
  rewrite rank_1. unfold disjoint. rewrite !Less_range, !Z.ltb_ge. lia.
Qed.

Lemma range_key_valid p : valid (key p).
Proof. unfold valid. destruct (key_point p) as [-> ->]. lia. Qed.

Lemma range_key_point p : point valid (key p).
Proof.
  intros x y Hx Hy Hlt Hmx%range_matches Hmy%range_matches.
  rewrite Less_range in Hlt. apply Z.ltb_lt in Hlt. unfold holds in *. lia.
Qed.

Lemma pairwise_of_lookup (R : relation A) (l : list A) :
  (forall i j a b, i < j -> l !! i = Some a -> l !! j = Some b -> R a b) ->
  StronglySorted R l.
Proof.
  induction l as [|x l IH]; intros H; [constructor|].
  constructor.
  - apply IH. intros i j a b Hij Ha Hb. apply (H (S i) (S j)); auto. lia.
  - apply Forall_lookup. intros j b Hb. apply (H 0 (S j)); auto. lia.
Qed.

(** Lookup in an index built from valid, pairwise disjoint ranges. *)
Lemma range_index_lookup (rs : list A) :
  Forall valid rs ->
  (forall i j a b, i <> j -> rs !! i = Some a -> rs !! j = Some b -> disjoint a b) ->
  exists t, (t0 ← New 4; insert_all t0 rs) = Ok t /\ Len t = length rs /\
    forall p,
      (forall r, r ∈ rs -> holds r p -> Get t (key p) = Ok (Some r)) /\
      ((forall r, r ∈ rs -> ~ holds r p) -> Get t (key p) = Ok None).
Proof.
  intros Hvalid Hdisj.
  destruct (index_lookup valid range_trans 4 rs) as (t & Ht & Hlen & Hget);
    [lia|done| |].
  { apply pairwise_of_lookup. intros i j a b Hij Ha Hb.
    apply range_apart. apply (Hdisj i j); auto. lia. }
  exists t. split; [done|]. split; [done|]. intros p.
  destruct (Hget (key p) (range_key_valid p) (range_key_point p)) as [Hin Hout].
  split.
  - intros r Hr Hh. apply Hin; [done|]. by apply range_matches.
  - intros Hnone. apply Hout. intros r Hr Hm%range_matches. by apply (Hnone r).
Qed.

Lemma range_sorted_before l1 l2 x y :
  sorted (l1 ++ x :: l2) -> y ∈ l1 -> (hi y < lo x)%Z.
Proof.
  intros Hs Hy. apply StronglySorted_app in Hs as (H12 & _ & _).
  specialize (H12 y x Hy ltac:(left)). unfold lt in H12.
  rewrite Less_range in H12. by apply Z.ltb_lt.
Qed.

Lemma range_sorted_after l1 l2 x y :
  sorted (l1 ++ x :: l2) -> y ∈ l2 -> (hi x < lo y)%Z.
Proof.
  intros Hs Hy. apply StronglySorted_app in Hs as (_ & _ & Hs).
  apply StronglySorted_cons in Hs as [Hall _]. rewrite Forall_forall in Hall.
  specialize (Hall y Hy). unfold lt in Hall.
  rewrite Less_range in Hall. by apply Z.ltb_lt.
Qed.

Lemma range_rank p r :
  (rank (key p) r = 0 <-> (hi r < p)%Z /\ (lo r <= p)%Z) /\
  (rank (key p) r = 1 <-> holds r p) /\
  (rank (key p) r = 2 <-> (p < lo r)%Z).
Proof.
  rewrite rank_0, rank_1, rank_2. unfold holds. rewrite !Less_range.
  destruct (key_point p) as [-> ->]. rewrite !Z.ltb_ge, !Z.ltb_lt. lia.
Qed.

(** Inserting a valid range that overlaps stored ranges into a sorted
    tree of valid ranges. *)
Lemma range_overlap_insert (t : BTree A) (r : A) :
  tree_wf t -> sorted (tree_elements t) -> Forall valid (tree_elements t) ->
  valid r -> (exists x, x ∈ tree_elements t /\ ~ disjoint r x) ->
  exists t' x l1 l2,
    ReplaceOrInsert t r = Ok (t', Some x) /\ ~ disjoint r x /\
    tree_elements t = l1 ++ x :: l2 /\ tree_elements t' = l1 ++ r :: l2 /\
    Len t' = Len t /\
    (forall p, holds r p -> holds x p -> Get t' (key p) = Ok (Some r)) /\
    ((forall y, y ∈ l1 ++ l2 -> disjoint r y) ->
     forall p, holds r p -> Get t' (key p) = Ok (Some r)).
Proof.
  intros Hwf Hs Hval Hr (x0 & Hx0 & Hov).
  destruct (ReplaceOrInsert_spec t r Hwf) as (t' & out & Hins & Hwf' & Hspec & Hcount).
  { by apply (sorted_mono valid range_trans). }
  destruct out as [x|].
  2:{ exfalso. destruct Hspec as (l1 & l2 & HE & _ & H0 & H2).
      apply range_rank1 in Hov. rewrite HE in Hx0.
      rewrite Forall_forall in H0, H2.
      apply elem_of_app in Hx0 as [Hin|Hin]; [rewrite (H0 _ Hin) in Hov|
                                             rewrite (H2 _ Hin) in Hov]; done. }
  destruct Hspec as (l1 & l2 & HE & HE' & Hrx).
  exists t', x, l1, l2. split; [done|]. split; [by apply range_rank1|].
  split; [done|]. split; [done|]. split; [done|].
  rewrite HE in Hs, Hval.
  assert (Hvx : valid x).
  { rewrite Forall_forall in Hval. apply Hval. apply elem_of_app. right. left. }
  split.
  - intros p Hrp Hxp. apply (Get_around t' (key p) l1 l2 r Hwf' HE').
    + apply Forall_forall. intros y Hy. apply range_rank.
      pose proof (range_sorted_before _ _ _ _ Hs Hy).
      assert (valid y).
      { rewrite Forall_forall in Hval. apply Hval. apply elem_of_app. by left. }
      unfold holds, valid in *. lia.
    + by apply range_rank.
    + apply Forall_forall. intros y Hy. apply range_rank.
      pose proof (range_sorted_after _ _ _ _ Hs Hy). unfold holds in *. lia.
  - intros Hothers p Hrp. apply (Get_around t' (key p) l1 l2 r Hwf' HE').
    + apply Forall_forall. intros y Hy. apply range_rank.
      pose proof (range_sorted_before _ _ _ _ Hs Hy).
      assert (valid y).
      { rewrite Forall_forall in Hval. apply Hval. apply elem_of_app. by left. }
      assert (Hd : disjoint r y) by (apply Hothers, elem_of_app; by left).
      apply range_rank1 in Hrx. unfold disjoint, holds, valid in *. lia.
    + by apply range_rank.
    + apply Forall_forall. intros y Hy. apply range_rank.
      pose proof (range_sorted_after _ _ _ _ Hs Hy).
      assert (valid y).
      { rewrite Forall_forall in Hval. apply Hval. apply elem_of_app.
        right. by right. }
      assert (Hd : disjoint r y) by (apply Hothers, elem_of_app; by right).
      apply range_rank1 in Hrx. unfold disjoint, holds, valid in *. lia.
Qed.

(** The same for a tree built from pairwise disjoint ranges. *)
Lemma range_index_overlap (rs : list A) (r : A) :
  Forall valid rs ->
  (forall i j a b, i <> j -> rs !! i = Some a -> rs !! j = Some b -> disjoint a b) ->
  valid r -> (exists x, x ∈ rs /\ ~ disjoint r x) ->
  exists t t' x l1 l2,
    (t0 ← New 4; insert_all t0 rs) = Ok t /\
    ReplaceOrInsert t r = Ok (t', Some x) /\
    x ∈ rs /\ ~ disjoint r x /\
    tree_elements t = l1 ++ x :: l2 /\ tree_elements t' = l1 ++ r :: l2 /\
    l1 ++ x :: l2 ≡ₚ rs /\
    Len t = length rs /\ Len t' = length rs /\
    (forall p, holds r p -> holds x p -> Get t' (key p) = Ok (Some r)) /\
    ((forall y, y ∈ l1 ++ l2 -> disjoint r y) ->
     forall p, holds r p -> Get t' (key p) = Ok (Some r)).
Proof.
  intros Hvalid Hdisj Hr (x0 & Hx0 & Hov).
  destruct (index_built valid range_trans 4 rs) as (t & Ht & Hwf & Hs & Hperm & Hlen);
    [lia|done| |].
  { apply pairwise_of_lookup. intros i j a b Hij Ha Hb.
    apply range_apart. apply (Hdisj i j); auto. lia. }
  destruct (range_overlap_insert t r Hwf Hs) as
    (t' & x & l1 & l2 & Hins & Hx & HE & HE' & Hlen' & Hwin & Hall); auto.
  { by rewrite Hperm. }
  { exists x0. by rewrite Hperm. }
  exists t, t', x, l1, l2. rewrite <- HE. repeat split; auto; try lia.
  rewrite <- Hperm, HE. apply elem_of_app. right. left.
Qed.

End RangeIndex.

(** *** Blocks and ASNs as range indexes *)

Lemma Block_Less_range (x y : blocks.Block) :
  Less x y = (blocks.HighIP x <? blocks.LowIP y)%Z.
Proof. done. Qed.

Lemma Block_key_point p :
  blocks.LowIP (blocks.mkBlock p p 0) = p /\ blocks.HighIP (blocks.mkBlock p p 0) = p.
Proof. done. Qed.

Lemma ASN_Less_range (x y : asn.ASN) :
  Less x y = (asn.HighIP x <? asn.LowIP y)%Z.
Proof. done. Qed.

Lemma ASN_key_point p :
  asn.LowIP (asn.mkASN p p "") = p /\ asn.HighIP (asn.mkASN p p "") = p.
Proof. done. Qed.

Local Open Scope Z_scope.

Lemma three_blocks_disjoint i j a b :
  i <> j -> three_blocks !! i = Some a -> three_blocks !! j = Some b ->
  blocks.HighIP a < blocks.LowIP b \/ blocks.HighIP b < blocks.LowIP a.
Proof.
  destruct i as [|[|[|i]]], j as [|[|[|j]]]; intros Hij Ha Hb;
    try done; inversion Ha; inversion Hb; subst; simpl; lia.
Qed.

Lemma three_blocks_valid :
  Forall (fun r => blocks.LowIP r <= blocks.HighIP r) three_blocks.
Proof. repeat constructor; simpl; lia. Qed.

(** C1. Range records with [low <= high] that are pairwise
    non-overlapping, inserted one after the other into a fresh index
    (Blocks or ASNs): every insertion returns; then for every point [p],
    [Get(p)] returns the record whose range holds [p] when there is one, and
    nil when [p] lies outside every range. *)
Theorem range_lookup :
  (forall rs : list blocks.Block,
     Forall (fun r => blocks.LowIP r <= blocks.HighIP r) rs ->
     (forall i j a b, i <> j -> rs !! i = Some a -> rs !! j = Some b ->
        blocks.HighIP a < blocks.LowIP b \/ blocks.HighIP b < blocks.LowIP a) ->
     exists t : blocks.Blocks,
       (t0 ← New 4; insert_all t0 rs) = Ok t /\ Len t = length rs /\
       forall p,
         (forall r, r ∈ rs -> blocks.LowIP r <= p <= blocks.HighIP r ->
                    blocks.Get t p = Ok (Some r)) /\
         ((forall r, r ∈ rs -> ~ (blocks.LowIP r <= p <= blocks.HighIP r)) ->
          blocks.Get t p = Ok None)) /\
  (forall rs : list asn.ASN,
     Forall (fun r => asn.LowIP r <= asn.HighIP r) rs ->
     (forall i j a b, i <> j -> rs !! i = Some a -> rs !! j = Some b ->
        asn.HighIP a < asn.LowIP b \/ asn.HighIP b < asn.LowIP a) ->
     exists t : asn.ASNs,
       (t0 ← New 4; insert_all t0 rs) = Ok t /\ Len t = length rs /\
       forall p,
         (forall r, r ∈ rs -> asn.LowIP r <= p <= asn.HighIP r ->
                    asn.Get t p = Ok (Some r)) /\
         ((forall r, r ∈ rs -> ~ (asn.LowIP r <= p <= asn.HighIP r)) ->
          asn.Get t p = Ok None)).
Proof.
  split.
  - intros rs Hvalid Hdisj.
    exact (range_index_lookup blocks.LowIP blocks.HighIP (fun p => blocks.mkBlock p p 0)
             Block_Less_range Block_key_point rs Hvalid Hdisj).
  - intros rs Hvalid Hdisj.
    exact (range_index_lookup asn.LowIP asn.HighIP (fun p => asn.mkASN p p "")
             ASN_Less_range ASN_key_point rs Hvalid Hdisj).
Qed.

Lemma range_lookup_witness :
  exists t : blocks.Blocks,
    (t0 ← New 4; insert_all t0 three_blocks) = Ok t /\ Len t = length three_blocks /\
    forall p,
      (forall r, r ∈ three_blocks -> blocks.LowIP r <= p <= blocks.HighIP r ->
                 blocks.Get t p = Ok (Some r)) /\
      ((forall r, r ∈ three_blocks -> ~ (blocks.LowIP r <= p <= blocks.HighIP r)) ->
       blocks.Get t p = Ok None).
Proof.
  exact (proj1 range_lookup three_blocks three_blocks_valid three_blocks_disjoint).
Defined.

(** The round trip of section 8 on the model. *)
Example three_blocks_round_trip :
  exists t : blocks.Blocks,
    (t0 ← New 4; insert_all t0 three_blocks) = Ok t /\
    blocks.Get t 50 = Ok (Some (blocks.mkBlock 0 99 1)) /\
    blocks.Get t 150 = Ok (Some (blocks.mkBlock 100 199 2)) /\
    blocks.Get t 250 = Ok None /\
    blocks.Get t 399 = Ok (Some (blocks.mkBlock 300 399 3)) /\
    blocks.Get t 400 = Ok None.
Proof. eexists. split; [vm_compute; reflexivity|]. vm_compute. done. Qed.

(** C8, as stated, fails: the range [0,21] overlaps the three stored ranges
    [0,1], [10,11] and [20,21]; the insertion replaces the last of them
    only, [0,1] stays, and the lookup of 0, a point of both [0,1] and
    [0,21], returns the older [0,1]; the lookup of 5, a point of [0,21]
    alone, finds nothing. *)
Lemma overlap_counterexample :
  exists t t' : blocks.Blocks,
    (t0 ← New 4; insert_all t0 apart_blocks) = Ok t /\
    ReplaceOrInsert t wide_block = Ok (t', Some (blocks.mkBlock 20 21 3)) /\
    tree_elements t' = [blocks.mkBlock 0 1 1; blocks.mkBlock 10 11 2; wide_block] /\
    blocks.Get t' 0 = Ok (Some (blocks.mkBlock 0 1 1)) /\
    blocks.Get t' 0 <> Ok (Some wide_block) /\
    blocks.Get t' 5 = Ok None.
Proof.
  eexists _, _. split; [vm_compute; reflexivity|].
  split; [vm_compute; reflexivity|].
  vm_compute. repeat split; done.
Qed.

(** C8, amended. An insertion into an index (Blocks or ASNs) returns
    without an error whatever ranges were inserted before, overlapping or
    not. A range with [low <= high] that overlaps ranges stored in an index
    of pairwise non-overlapping ranges: the insertion puts the new range in the place of
    exactly one stored range that it overlaps and returns that one, so the
    number of stored ranges stays; the lookup of a point that lies in both
    the new range and the replaced one returns the new range; and when the
    new range overlaps no other stored range, the lookup of every point of
    the new range returns it. *)
Theorem overlapping_insert_replaces :
  (forall (rs : list blocks.Block) (r : blocks.Block),
     Forall (fun r => blocks.LowIP r <= blocks.HighIP r) rs ->
     (forall i j a b, i <> j -> rs !! i = Some a -> rs !! j = Some b ->
        blocks.HighIP a < blocks.LowIP b \/ blocks.HighIP b < blocks.LowIP a) ->
     blocks.LowIP r <= blocks.HighIP r ->
     (exists x, x ∈ rs /\
        ~ (blocks.HighIP r < blocks.LowIP x \/ blocks.HighIP x < blocks.LowIP r)) ->
     exists (t t' : blocks.Blocks) x l1 l2,
       (t0 ← New 4; insert_all t0 rs) = Ok t /\
       ReplaceOrInsert t r = Ok (t', Some x) /\
       x ∈ rs /\
       ~ (blocks.HighIP r < blocks.LowIP x \/ blocks.HighIP x < blocks.LowIP r) /\
       tree_elements t = l1 ++ x :: l2 /\ tree_elements t' = l1 ++ r :: l2 /\
       l1 ++ x :: l2 ≡ₚ rs /\
       Len t = length rs /\ Len t' = length rs /\
       (forall p, blocks.LowIP r <= p <= blocks.HighIP r ->
                  blocks.LowIP x <= p <= blocks.HighIP x ->
                  blocks.Get t' p = Ok (Some r)) /\
       ((forall y, y ∈ l1 ++ l2 ->
           blocks.HighIP r < blocks.LowIP y \/ blocks.HighIP y < blocks.LowIP r) ->
        forall p, blocks.LowIP r <= p <= blocks.HighIP r ->
                  blocks.Get t' p = Ok (Some r))) /\
  (forall (rs : list asn.ASN) (r : asn.ASN),
     Forall (fun r => asn.LowIP r <= asn.HighIP r) rs ->
     (forall i j a b, i <> j -> rs !! i = Some a -> rs !! j = Some b ->
        asn.HighIP a < asn.LowIP b \/ asn.HighIP b < asn.LowIP a) ->
     asn.LowIP r <= asn.HighIP r ->
     (exists x, x ∈ rs /\
        ~ (asn.HighIP r < asn.LowIP x \/ asn.HighIP x < asn.LowIP r)) ->
     exists (t t' : asn.ASNs) x l1 l2,
       (t0 ← New 4; insert_all t0 rs) = Ok t /\
       ReplaceOrInsert t r = Ok (t', Some x) /\
       x ∈ rs /\
       ~ (asn.HighIP r < asn.LowIP x \/ asn.HighIP x < asn.LowIP r) /\
       tree_elements t = l1 ++ x :: l2 /\ tree_elements t' = l1 ++ r :: l2 /\
       l1 ++ x :: l2 ≡ₚ rs /\
       Len t = length rs /\ Len t' = length rs /\
       (forall p, asn.LowIP r <= p <= asn.HighIP r ->
                  asn.LowIP x <= p <= asn.HighIP x ->
                  asn.Get t' p = Ok (Some r)) /\
       ((forall y, y ∈ l1 ++ l2 ->
           asn.HighIP r < asn.LowIP y \/ asn.HighIP y < asn.LowIP r) ->
        forall p, asn.LowIP r <= p <= asn.HighIP r ->
                  asn.Get t' p = Ok (Some r))) /\
  (forall (rs : list blocks.Block) (r : blocks.Block),
     exists (t t' : blocks.Blocks) out,
       (t0 ← New 4; insert_all t0 rs) = Ok t /\ ReplaceOrInsert t r = Ok (t', out)) /\
  (forall (rs : list asn.ASN) (r : asn.ASN),
     exists (t t' : asn.ASNs) out,
       (t0 ← New 4; insert_all t0 rs) = Ok t /\ ReplaceOrInsert t r = Ok (t', out)).
Proof.
  split; [|split; [|split]].
  - intros rs r Hvalid Hdisj Hr Hov.
    exact (range_index_overlap blocks.LowIP blocks.HighIP (fun p => blocks.mkBlock p p 0)
             Block_Less_range Block_key_point rs r Hvalid Hdisj Hr Hov).
  - intros rs r Hvalid Hdisj Hr Hov.
    exact (range_index_overlap asn.LowIP asn.HighIP (fun p => asn.mkASN p p "")
             ASN_Less_range ASN_key_point rs r Hvalid Hdisj Hr Hov).
  - intros rs r. destruct (index_total 4 rs) as (t & Ht & Hwf); [lia|].
    destruct (ReplaceOrInsert_total t r Hwf) as (t' & out & Hins & _). eauto.
  - intros rs r. destruct (index_total 4 rs) as (t & Ht & Hwf); [lia|].
    destruct (ReplaceOrInsert_total t r Hwf) as (t' & out & Hins & _). eauto.
Qed.

Lemma overlapping_insert_replaces_witness :
  exists (t t' : blocks.Blocks) x l1 l2,
    (t0 ← New 4; insert_all t0 three_blocks) = Ok t /\
    ReplaceOrInsert t (blocks.mkBlock 150 250 9) = Ok (t', Some x) /\
    x ∈ three_blocks /\
    ~ (250 < blocks.LowIP x \/ blocks.HighIP x < 150) /\
    tree_elements t = l1 ++ x :: l2 /\
    tree_elements t' = l1 ++ blocks.mkBlock 150 250 9 :: l2 /\
    l1 ++ x :: l2 ≡ₚ three_blocks /\
    Len t = length three_blocks /\ Len t' = length three_blocks /\
    (forall p, 150 <= p <= 250 -> blocks.LowIP x <= p <= blocks.HighIP x ->
               blocks.Get t' p = Ok (Some (blocks.mkBlock 150 250 9))) /\
    ((forall y, y ∈ l1 ++ l2 -> 250 < blocks.LowIP y \/ blocks.HighIP y < 150) ->
     forall p, 150 <= p <= 250 ->
               blocks.Get t' p = Ok (Some (blocks.mkBlock 150 250 9))).
Proof.
  apply (proj1 overlapping_insert_replaces three_blocks (blocks.mkBlock 150 250 9)
           three_blocks_valid three_blocks_disjoint).
  - simpl. lia.
  - exists (blocks.mkBlock 100 199 2). split.
    + right. left.
    + simpl. lia.
Defined.

Local Close Scope Z_scope.

(** ** The exact-key index: Countries *)

Lemma string_ltb_lt (a b : string) :
  String.ltb a b = true <-> OrderedTypeEx.String_as_OT.lt a b.
Proof.
  rewrite <- OrderedTypeEx.String_as_OT.cmp_lt.
  unfold String.ltb, OrderedTypeEx.String_as_OT.cmp.
  destruct (String.compare a b); split; (done || discriminate).
Qed.

Lemma string_ltb_trans (a b c : string) :
  String.ltb a b = true -> String.ltb b c = true -> String.ltb a c = true.
Proof.
  rewrite !string_ltb_lt. apply OrderedTypeEx.String_as_OT.lt_trans.
Qed.

Lemma string_ltb_irrefl (a : string) : String.ltb a a = false.
Proof.
  unfold String.ltb.
  assert (H : String.compare a a = Eq)
    by (by apply OrderedTypeEx.String_as_OT.cmp_eq).
  by rewrite H.
Qed.

Lemma string_ltb_total (a b : string) :
  String.ltb a b = false -> String.ltb b a = false -> a = b.
Proof.
  unfold String.ltb. rewrite (String.compare_antisym b a).
  destruct (String.compare a b) eqn:E; simpl; try done.
  intros _ _. by apply String.compare_eq_iff.
Qed.

Lemma Country_trans (x y z : countries.Country) :
  True -> Less x y = true -> Less y z = true -> Less x z = true.
Proof. intros _. apply string_ltb_trans. Qed.

Lemma Country_matches (k x : countries.Country) :
  matches k x <-> countries.Code k = countries.Code x.
Proof.
  unfold matches, Less, countries.Country_Less. split.
  - intros [H1 H2]. by apply string_ltb_total.
  - intros ->. split; apply string_ltb_irrefl.
Qed.

Lemma Country_point (k : countries.Country) : point (fun _ => True) k.
Proof.
  intros x y _ _ Hlt Hx%Country_matches Hy%Country_matches.
  unfold Less, countries.Country_Less in Hlt.
  rewrite <- Hx, <- Hy, string_ltb_irrefl in Hlt. done.
Qed.

Lemma Country_apart (x y : countries.Country) :
  countries.Code x <> countries.Code y -> apart x y.
Proof.
  intros Hne. unfold apart, Less, countries.Country_Less.
  destruct (String.ltb (countries.Code x) (countries.Code y)) eqn:E1; [by left|].
  destruct (String.ltb (countries.Code y) (countries.Code x)) eqn:E2; [by right|].
  by apply string_ltb_total in E1.
Qed.

(** C5. The exact-key index is the same container with the string
    order on codes: with ("FR","France") and ("US","États-Unis") loaded,
    [Get("FR")] is the record named France and [Get("ZZ")] is nil; and for
    any entries with distinct codes inserted into a fresh index, [Get(code)]
    returns the entry whose [Code] is exactly [code], or nil when there is
    none. *)
Theorem exact_key_lookup :
  (exists t : countries.Countries,
     countries.LoadCountries two_countries = Ok t /\
     countries.Get t "FR" = Ok (Some (countries.mkCountry "FR" "France")) /\
     countries.Get t "US" = Ok (Some (countries.mkCountry "US" "États-Unis")) /\
     countries.Get t "ZZ" = Ok None) /\
  (forall entries : list countries.Country,
     NoDup (countries.Code <$> entries) ->
     exists t : countries.Countries,
       (t0 ← New 4; insert_all t0 entries) = Ok t /\ Len t = length entries /\
       forall code : string,
         (forall c, c ∈ entries -> countries.Code c = code ->
                    countries.Get t code = Ok (Some c)) /\
         ((forall c, c ∈ entries -> countries.Code c <> code) ->
          countries.Get t code = Ok None)).
Proof.
  split.
  - eexists. split; [vm_compute; reflexivity|]. vm_compute. done.
  - intros entries Hnd.
    destruct (index_lookup (fun _ : countries.Country => True) Country_trans 4 entries)
      as (t & Ht & Hlen & Hget); [lia|by apply Forall_forall| |].
    { apply pairwise_of_lookup. intros i j a b Hij Ha Hb.
      apply Country_apart. intros Heq.
      assert (i = j); [|lia].
      eapply NoDup_lookup; [exact Hnd| |].
      - rewrite list_lookup_fmap, Ha. done.
      - rewrite list_lookup_fmap, Hb. simpl. by rewrite Heq. }
    exists t. split; [done|]. split; [done|]. intros code.
    destruct (Hget (countries.mkCountry code "") I (Country_point _)) as [Hin Hout].
    split.
    + intros c Hc Hcode. apply Hin; [done|]. apply Country_matches. done.
    + intros Hnone. apply Hout. intros c Hc Hm%Country_matches.
      apply (Hnone c Hc). done.
Qed.

Lemma exact_key_lookup_witness :
  exists t : countries.Countries,
    (t0 ← New 4;
     insert_all t0 [countries.mkCountry "FR" "France";
                    countries.mkCountry "US" "États-Unis"]) = Ok t /\
    Len t = 2 /\
    forall code : string,
      (forall c, c ∈ [countries.mkCountry "FR" "France";
                      countries.mkCountry "US" "États-Unis"] ->
                 countries.Code c = code -> countries.Get t code = Ok (Some c)) /\
      ((forall c, c ∈ [countries.mkCountry "FR" "France";
                       countries.mkCountry "US" "États-Unis"] ->
                  countries.Code c <> code) ->
       countries.Get t code = Ok None).
Proof.
  apply (proj2 exact_key_lookup
           [countries.mkCountry "FR" "France"; countries.mkCountry "US" "États-Unis"]).
  simpl. repeat constructor; rewrite ?elem_of_cons, ?elem_of_nil; intuition discriminate.
Defined.

(** ** The loaders *)

Lemma refused_app (l1 l2 : reads) : refused (l1 ++ l2) = refused l1 || refused l2.
Proof. induction l1 as [|[values|] l1 IH]; simpl; auto. Qed.

Lemma read_records_app (l1 l2 : reads) :
  read_records (l1 ++ l2) =
    if refused l1 then read_records l1 else read_records l1 ++ read_records l2.
Proof.
  induction l1 as [|[values|] l1 IH]; simpl; auto.
  rewrite IH. by destruct (refused l1).
Qed.

(** The loop of [LoadBlocksFile] record by record: the records before the
    first refused line are inserted in turn, then the error is logged if
    there is such a line. *)
Lemma blocks_load_reads w rs : forall t : blocks.Blocks,
  blocks.load w t rs =
    (t' ← insert_all t (omap parse_block (read_records rs));
     if refused rs then _ ← log w; Ok t' else Ok t').
Proof.
  induction rs as [|[values|] rs IH]; intros t; [done| |done].
  cbn [blocks.load read_records refused omap list_omap].
  unfold parse_block at 1.
  destruct values as [|v0 [|v1 [|v2 [|v3 vs]]]]; auto.
  destruct (ParseUint v0 32); auto.
  destruct (ParseUint v1 32); auto.
  destruct (ParseUint v2 32); auto.
  cbn [insert_all]. destruct (ReplaceOrInsert t _) as [[t' out]| |]; simpl; auto.
Qed.

Lemma asn_load_reads w rs : forall t : asn.ASNs,
  asn.load w t rs =
    (t' ← insert_all t (omap parse_asn (read_records rs));
     if refused rs then _ ← log w; Ok t' else Ok t').
Proof.
  induction rs as [|[values|] rs IH]; intros t; [done| |done].
  cbn [asn.load read_records refused omap list_omap].
  unfold parse_asn at 1.
  destruct values as [|v0 [|v1 [|v2 [|v3 vs]]]]; auto.
  destruct (ParseUint v0 32); auto.
  destruct (ParseUint v1 32); auto.
  cbn [insert_all]. destruct (ReplaceOrInsert t _) as [[t' out]| |]; simpl; auto.
Qed.

Lemma parse_block_bad values : bad_block_row values -> parse_block values = None.
Proof.
  intros [Hlen|(v & Hv & Hp)];
    destruct values as [|v0 [|v1 [|v2 [|v3 vs]]]]; simpl in *; try done.
  rewrite !elem_of_cons, elem_of_nil in Hv.
  destruct Hv as [->|[->|[->|[]]]]; rewrite Hp;
    repeat (destruct (ParseUint _ 32); try done).
Qed.

Lemma parse_asn_bad values : bad_asn_row values -> parse_asn values = None.
Proof.
  intros [Hlen|(v & Hv & Hp)];
    destruct values as [|v0 [|v1 [|v2 [|v3 vs]]]]; simpl in *; try done.
  rewrite !elem_of_cons, elem_of_nil in Hv.
  destruct Hv as [->|[->|[]]]; rewrite Hp;
    repeat (destruct (ParseUint _ 32); try done).
Qed.

Lemma blocks_load_skip w (t : blocks.Blocks) rs1 bad rs2 :
  bad_block_row bad ->
  blocks.load w t (rs1 ++ Values bad :: rs2) = blocks.load w t (rs1 ++ rs2).
Proof.
  intros Hbad%parse_block_bad. rewrite !blocks_load_reads.
  rewrite !read_records_app, !refused_app. cbn [read_records refused].
  destruct (refused rs1); [done|].
  rewrite !omap_app. cbn [omap list_omap]. by rewrite Hbad.
Qed.

Lemma asn_load_skip w (t : asn.ASNs) rs1 bad rs2 :
  bad_asn_row bad ->
  asn.load w t (rs1 ++ Values bad :: rs2) = asn.load w t (rs1 ++ rs2).
Proof.
  intros Hbad%parse_asn_bad. rewrite !asn_load_reads.
  rewrite !read_records_app, !refused_app. cbn [read_records refused].
  destruct (refused rs1); [done|].
  rewrite !omap_app. cbn [omap list_omap]. by rewrite Hbad.
Qed.

Lemma blocks_load_end lg (t : blocks.Blocks) rs1 rs2 :
  blocks.load (Some lg) t (rs1 ++ ReadError :: rs2) = blocks.load (Some lg) t rs1.
Proof.
  rewrite !blocks_load_reads, read_records_app, refused_app.
  cbn [read_records refused]. rewrite app_nil_r, orb_true_r.
  destruct (refused rs1); destruct (insert_all t _) as [t'| |]; done.
Qed.

Lemma asn_load_end lg (t : asn.ASNs) rs1 rs2 :
  asn.load (Some lg) t (rs1 ++ ReadError :: rs2) = asn.load (Some lg) t rs1.
Proof.
  rewrite !asn_load_reads, read_records_app, refused_app.
  cbn [read_records refused]. rewrite app_nil_r, orb_true_r.
  destruct (refused rs1); destruct (insert_all t _) as [t'| |]; done.
Qed.

(** [LoadBlocksFile] and [LoadASNFile] on a file that opens, in terms of
    the records before the first refused line. *)
Lemma LoadBlocksFile_reads w (rs : reads) (t : blocks.Blocks) :
  w <> None \/ refused rs = false ->
  (t0 ← New 4; insert_all t0 (omap parse_block (read_records rs))) = Ok t ->
  blocks.LoadBlocksFile w (Some rs) = Ok (Some t, false).
Proof.
  intros Hw. unfold blocks.LoadBlocksFile. destruct (New 4) as [t0| |]; try done.
  cbn [mbind result_bind]. rewrite blocks_load_reads. intros ->.
  cbn [mbind result_bind]. destruct (refused rs); [|done].
  destruct w; [done|]. by destruct Hw.
Qed.

Lemma LoadASNFile_reads w (rs : reads) (t : asn.ASNs) :
  w <> None \/ refused rs = false ->
  (t0 ← New 4; insert_all t0 (omap parse_asn (read_records rs))) = Ok t ->
  asn.LoadASNFile w (Some rs) = Ok (Some t, false).
Proof.
  intros Hw. unfold asn.LoadASNFile. destruct (New 4) as [t0| |]; try done.
  cbn [mbind result_bind]. rewrite asn_load_reads. intros ->.
  cbn [mbind result_bind]. destruct (refused rs); [|done].
  destruct w; [done|]. by destruct Hw.
Qed.

Lemma LoadBlocksFile_nil_refused (rs : reads) :
  refused rs = true -> blocks.LoadBlocksFile None (Some rs) = Panic NilDereference.
Proof.
  intros Hr. unfold blocks.LoadBlocksFile.
  destruct (index_total (A:=blocks.Block) 4 (omap parse_block (read_records rs)))
    as (t & Ht & _); [lia|].
  destruct (New 4) as [t0| |]; try done. cbn [mbind result_bind] in *.
  by rewrite blocks_load_reads, Ht, Hr.
Qed.

Lemma LoadASNFile_nil_refused (rs : reads) :
  refused rs = true -> asn.LoadASNFile None (Some rs) = Panic NilDereference.
Proof.
  intros Hr. unfold asn.LoadASNFile.
  destruct (index_total (A:=asn.ASN) 4 (omap parse_asn (read_records rs)))
    as (t & Ht & _); [lia|].
  destruct (New 4) as [t0| |]; try done. cbn [mbind result_bind] in *.
  by rewrite asn_load_reads, Ht, Hr.
Qed.

Example ParseUint_examples :
  ParseUint "16777216" 32 = Some 16777216%Z /\
  ParseUint "4294967295" 32 = Some 4294967295%Z /\
  ParseUint "4294967296" 32 = None /\
  ParseUint "" 32 = None /\ ParseUint "-1" 32 = None /\
  ParseUint "+1" 32 = None /\ ParseUint "12a" 32 = None /\
  ParseUint "1.0.0.0" 32 = None.
Proof. vm_compute. repeat split. Qed.

Example read_line_examples :
  read_lines ["16777216,16777471,17"; "1,2"]%string = Some (map Values one_good_one_bad) /\
  read_line refused_line = Some ReadError /\
  read_line "a,,b" = Some (Values ["a"; ""; "b"]%string) /\
  read_line (String quote "a,b") = None.
Proof. vm_compute. repeat split. Qed.

(** C7, as stated, fails: [refused_line] (4,5,x followed by a double quote
    and y) has three columns of which the third is no decimal number, so it
    is a line the statement has skipped; the csv reader refuses it, and the
    load of the blocks ends there. Of the three lines [1,2,3],
    [refused_line], [10,20,30] the load keeps the block of the first only,
    where the two lines around the refused one, alone, give two blocks. *)
Lemma refused_line_counterexample :
  length (split_commas refused_line) = 3 /\
  bad_block_row (split_commas refused_line) /\
  read_lines with_refused_line =
    Some [Values ["1"; "2"; "3"]; ReadError; Values ["10"; "20"; "30"]]%string /\
  read_lines without_refused_line =
    Some [Values ["1"; "2"; "3"]; Values ["10"; "20"; "30"]]%string /\
  (exists t,
     blocks.LoadBlocksFile (Some SyslogWriter)
       (Some [Values ["1"; "2"; "3"]; ReadError; Values ["10"; "20"; "30"]]%string)
       = Ok (Some t, false) /\
     Len t = 1 /\ tree_elements t = [blocks.mkBlock 1 2 3]) /\
  (exists t,
     blocks.LoadBlocksFile (Some SyslogWriter)
       (Some [Values ["1"; "2"; "3"]; Values ["10"; "20"; "30"]]%string)
       = Ok (Some t, false) /\
     Len t = 2 /\ tree_elements t = [blocks.mkBlock 1 2 3; blocks.mkBlock 10 20 30]).
Proof.
  split; [vm_compute; reflexivity|]. split.
  { right. exists (String "x" (String quote "y")). split; [|vm_compute; reflexivity].
    replace (split_commas refused_line)
      with ["4"; "5"; String "x" (String quote "y")]%string by (vm_compute; reflexivity).
    rewrite !elem_of_cons. auto. }
  split; [vm_compute; reflexivity|]. split; [vm_compute; reflexivity|].
  split; (eexists; split; [vm_compute; reflexivity|]; vm_compute; done).
Qed.

(** C7, amended. A record that the csv reader returns and that has not
    three columns, or whose low address, high address or (for blocks)
    location id is not a decimal uint32, leaves the tree as it is and the
    load goes on with what comes after it: the load gives what it gives
    without that record. A line that the reader refuses is not passed
    over: the load ends there, with what the lines before it gave and
    whatever comes after it. A load of a file that opens returns a tree and
    a nil error when the log writer is open or the reader refuses no line;
    with a nil writer and a refused line the log call panics. A table with
    one well-formed line followed by a line of two columns loads one
    entry. *)
Theorem malformed_rows_skipped :
  (forall w (t : blocks.Blocks) rs1 bad rs2,
     bad_block_row bad ->
     blocks.load w t (Values bad :: rs2) = blocks.load w t rs2 /\
     blocks.load w t (rs1 ++ Values bad :: rs2) = blocks.load w t (rs1 ++ rs2)) /\
  (forall w (t : asn.ASNs) rs1 bad rs2,
     bad_asn_row bad ->
     asn.load w t (Values bad :: rs2) = asn.load w t rs2 /\
     asn.load w t (rs1 ++ Values bad :: rs2) = asn.load w t (rs1 ++ rs2)) /\
  (forall lg (t : blocks.Blocks) rs1 rs2,
     blocks.load (Some lg) t (rs1 ++ ReadError :: rs2) = blocks.load (Some lg) t rs1) /\
  (forall lg (t : asn.ASNs) rs1 rs2,
     asn.load (Some lg) t (rs1 ++ ReadError :: rs2) = asn.load (Some lg) t rs1) /\
  (forall w rs, w <> None \/ refused rs = false ->
     exists t, blocks.LoadBlocksFile w (Some rs) = Ok (Some t, false)) /\
  (forall w rs, w <> None \/ refused rs = false ->
     exists t, asn.LoadASNFile w (Some rs) = Ok (Some t, false)) /\
  (forall rs, refused rs = true ->
     blocks.LoadBlocksFile None (Some rs) = Panic NilDereference /\
     asn.LoadASNFile None (Some rs) = Panic NilDereference) /\
  (read_lines ["16777216,16777471,17"; "1,2"]%string = Some (map Values one_good_one_bad) /\
   exists t, blocks.LoadBlocksFile (Some SyslogWriter) (Some (map Values one_good_one_bad))
               = Ok (Some t, false) /\ Len t = 1 /\
             tree_elements t = [blocks.mkBlock 16777216 16777471 17]) /\
  (exists t, asn.LoadASNFile (Some SyslogWriter) (Some (map Values one_good_one_bad))
               = Ok (Some t, false) /\ Len t = 1 /\
             tree_elements t = [asn.mkASN 16777216 16777471 "17"]).
Proof.
  split; [|split; [|split; [|split; [|split; [|split; [|split; [|split]]]]]]].
  - intros w t rs1 bad rs2 Hbad. split; [|by apply blocks_load_skip].
    by apply (blocks_load_skip w t [] bad rs2).
  - intros w t rs1 bad rs2 Hbad. split; [|by apply asn_load_skip].
    by apply (asn_load_skip w t [] bad rs2).
  - intros lg t rs1 rs2. apply blocks_load_end.
  - intros lg t rs1 rs2. apply asn_load_end.
  - intros w rs Hw.
    destruct (index_total (A:=blocks.Block) 4 (omap parse_block (read_records rs)))
      as (t & Ht & _); [lia|].
    exists t. by apply LoadBlocksFile_reads.
  - intros w rs Hw.
    destruct (index_total (A:=asn.ASN) 4 (omap parse_asn (read_records rs)))
      as (t & Ht & _); [lia|].
    exists t. by apply LoadASNFile_reads.
  - intros rs Hr. split; [by apply LoadBlocksFile_nil_refused|].
    by apply LoadASNFile_nil_refused.
  - split; [vm_compute; reflexivity|].
    eexists. split; [vm_compute; reflexivity|]. vm_compute. done.
  - eexists. split; [vm_compute; reflexivity|]. vm_compute. done.
Qed.

Lemma malformed_rows_skipped_witness :
  bad_block_row ["1"; "2"]%string /\
  blocks.load None (mkBTree 4 0 None) (Values ["1"; "2"]%string :: []) =
    blocks.load None (mkBTree 4 0 None) [] /\
  blocks.load None (mkBTree 4 0 None)
      ([Values ["16777216"; "16777471"; "17"]%string] ++ Values ["1"; "2"]%string :: [])
    = blocks.load None (mkBTree 4 0 None)
        ([Values ["16777216"; "16777471"; "17"]%string] ++ []).
Proof.
  assert (Hbad : bad_block_row ["1"; "2"]%string) by (left; simpl; lia).
  split; [exact Hbad|].
  exact (proj1 malformed_rows_skipped None (mkBTree 4 0 None)
           [Values ["16777216"; "16777471"; "17"]%string] ["1"; "2"]%string [] Hbad).
Defined.

(** *** Locations and the lookup *)

Lemma load_locations_app rs1 : forall loc_list rs2,
  load_locations loc_list (rs1 ++ rs2) =
    (l ← load_locations loc_list rs1; load_locations l rs2).
Proof.
  induction rs1 as [|values rs1 IH]; intros loc_list rs2; [done|]. simpl.
  destruct values as [|v0 [|v1 [|v2 [|v3 [|v4 [|v5 [|v6 [|v7 [|v8 [|v9 vs]]]]]]]]]]; auto.
  destruct (Atoi v0); auto.
  destruct (index_Z loc_list z); simpl; auto.
Qed.

Lemma load_locations_length rs : forall loc_list l,
  load_locations loc_list rs = Ok l -> length l = length loc_list.
Proof.
  induction rs as [|values rs IH]; intros loc_list l H; simpl in H.
  { by inversion H. }
  destruct values as [|v0 [|v1 [|v2 [|v3 [|v4 [|v5 [|v6 [|v7 [|v8 [|v9 vs]]]]]]]]]]; auto.
  destruct (Atoi v0); auto.
  destruct (index_Z loc_list z); simpl in H; try done.
  apply IH in H. by rewrite length_insert in H.
Qed.

Lemma index_Z_out {B} (s : list B) (i : Z) :
  (i < 0 \/ Z.of_nat (length s) <= i)%Z -> index_Z s i = Panic IndexOutOfRange.
Proof.
  intros Hi. unfold index_Z, index. destruct (Z.ltb_spec i 0); [done|].
  rewrite lookup_ge_None_2; [done|lia].
Qed.

Example Atoi_examples :
  Atoi "718" = Some 718%Z /\ Atoi "-3" = Some (-3)%Z /\ Atoi "+7" = Some 7%Z /\
  Atoi "" = None /\ Atoi "locId" = None /\ Atoi "9223372036854775808" = None.
Proof. vm_compute. repeat split. Qed.

(** C9. The location id is used as an index without a check. When
    [GeoLocIPv4] (all three tables loaded, sixteen bytes of address) finds a
    block whose [LocId] is not below the length of [locations], it panics
    with an index out of range. [LoadLocFile] stores a row of nine columns
    at [loc_list[locId]] in a slice of [line_count] entries: when the rows
    before it load and its id is negative or not below [line_count], the
    load panics with an index out of range. *)
Theorem location_index_unguarded :
  (forall g ip locs blks asns ip15 ip14 ip13 ip12 b,
     locations g = Some locs -> blocks_ g = Some blks -> asn_tree g = Some asns ->
     ip !! 15 = Some ip15 -> ip !! 14 = Some ip14 ->
     ip !! 13 = Some ip13 -> ip !! 12 = Some ip12 ->
     blocks.Get blks (ipv4_addr ip15 ip14 ip13 ip12) = Ok (Some b) ->
     (Z.of_nat (length locs) <= blocks.LocId b)%Z ->
     GeoLocIPv4 g ip = Panic IndexOutOfRange) /\
  (forall g w line_count rs1 l1 v0 v1 v2 v3 v4 v5 v6 v7 v8 rest locId,
     log_geolocip g <> None ->
     locations_file w =
       Some (line_count, rs1 ++ [v0; v1; v2; v3; v4; v5; v6; v7; v8] :: rest) ->
     load_locations (replicate line_count empty_Location) rs1 = Ok l1 ->
     Atoi v0 = Some locId ->
     (locId < 0 \/ Z.of_nat line_count <= locId)%Z ->
     LoadLocFile g w = Panic IndexOutOfRange).
Proof.
  split.
  - intros g ip locs blks asns ip15 ip14 ip13 ip12 b Hl Hb Ha H15 H14 H13 H12 Hget Hid.
    unfold GeoLocIPv4, index. rewrite Hl, Hb, Ha, H15, H14, H13, H12.
    cbn [mbind result_bind]. rewrite Hget. cbn [mbind result_bind].
    rewrite index_Z_out by (right; done). done.
  - intros g w n rs1 l1 v0 v1 v2 v3 v4 v5 v6 v7 v8 rest locId Hlog Hfile Hl1 Hatoi Hid.
    unfold LoadLocFile. rewrite Hfile.
    destruct (log_geolocip g) as [lg|]; [|done]. cbn [log mbind result_bind].
    rewrite load_locations_app, Hl1. cbn [mbind result_bind].
    simpl. rewrite Hatoi.
    rewrite index_Z_out; [done|].
    rewrite (load_locations_length _ _ _ Hl1), length_replicate. done.
Qed.

Lemma location_index_unguarded_witness :
  LoadLocFile (mkGlobals None None None (Some SyslogWriter) None None)
    (mkWorld (Some SyslogWriter)
       (Some (1, [] ++ ["5"; "US"; "MA"; "Medway"; "02053"; "42.1556"; "-71.4268";
                        "506"; "508"]%string :: []))
       None None [] None)
  = Panic IndexOutOfRange.
Proof.
  eapply (proj2 location_index_unguarded _ _ 1 [] _ "5"%string).
  - simpl. discriminate.
  - simpl. reflexivity.
  - simpl. reflexivity.
  - vm_compute. reflexivity.
  - right. simpl. lia.
Defined.

(** A block whose location id is past the end of [locations]. *)
Example GeoLocIPv4_panics :
  exists (blks : blocks.Blocks) (asns : asn.ASNs),
    (t0 ← New 4; insert_all t0 [blocks.mkBlock 0 4294967295 7]) = Ok blks /\
    New 4 = Ok asns /\
    GeoLocIPv4 (mkGlobals (Some [empty_Location]) (Some blks) (Some asns)
                          (Some SyslogWriter) None None) test_ip
      = Panic IndexOutOfRange.
Proof. eexists _, _. split; [vm_compute; reflexivity|]. split; vm_compute; reflexivity. Qed.

(** *** Lookups with nothing to find *)

Lemma GeoLocIPv4_not_ready g ip :
  locations g = None \/ blocks_ g = None \/ asn_tree g = None ->
  GeoLocIPv4 g ip = (_ ← log (log_geolocip g); Ok None).
Proof.
  unfold GeoLocIPv4. intros [H|[H|H]]; rewrite H; try done.
  - by destruct (locations g).
  - by destruct (locations g), (blocks_ g).
Qed.

(** What [init] leaves when a file cannot be opened. *)
Lemma init_file_missing w g :
  syslog w <> None -> init w = Ok g ->
  locations_file w = None \/ blocks_file w = None \/ asn_file w = None ->
  log_geolocip g <> None /\ (blocks_ g = None \/ asn_tree g = None).
Proof.
  intros Hlog Hinit Hmiss. unfold init in Hinit.
  destruct (syslog w) as [lg|] eqn:Hs; [|done]. clear Hlog.
  cbn [log log_geolocip mbind result_bind] in Hinit.
  unfold LoadLocFile in Hinit. cbn [log_geolocip log mbind result_bind] in Hinit.
  destruct (locations_file w) as [[n rs]|] eqn:Hloc.
  2:{ cbn [log mbind result_bind set_locations log_geolocip] in Hinit.
      inversion Hinit; subst; simpl. split; [done|by left]. }
  cbn [mbind result_bind] in Hinit.
  destruct (load_locations (replicate n empty_Location) rs) as [locs| |]; try done.
  cbn [mbind result_bind] in Hinit.
  destruct (countries.LoadCountries (countries_list w)) as [ct| |]; try done.
  cbn [mbind result_bind set_locations log_geolocip log] in Hinit.
  unfold blocks.LoadBlocksFile in Hinit.
  destruct (blocks_file w) as [brs|] eqn:Hblk.
  2:{ cbn [log mbind result_bind set_blocks log_geolocip] in Hinit.
      inversion Hinit; subst; simpl. split; [done|by left]. }
  destruct (New 4) as [t0| |]; try done. cbn [mbind result_bind] in Hinit.
  destruct (blocks.load (Some lg) t0 brs) as [bt| |]; try done.
  cbn [mbind result_bind set_blocks log_geolocip log] in Hinit.
  unfold asn.LoadASNFile in Hinit.
  destruct (asn_file w) as [ars|] eqn:Hasn.
  2:{ cbn [log mbind result_bind set_asn_tree log_geolocip] in Hinit.
      inversion Hinit; subst; simpl. split; [done|by right]. }
  destruct Hmiss as [?|[?|?]]; done.
Qed.

(** C6. An index with nothing stored answers every [Get] with nil (Blocks
    and ASNs). With syslog open, [GeoLocIPv4] returns nil whenever one of
    the tables is absent, in particular after an [init] that could not open
    one of the three files. With syslog closed, [init] leaves every table
    and the log writer nil, and [GeoLocIPv4] panics on the nil writer. *)
Theorem lookup_before_ready :
  (forall (t : blocks.Blocks) p, root t = None -> blocks.Get t p = Ok None) /\
  (forall (t : asn.ASNs) p, root t = None -> asn.Get t p = Ok None) /\
  (exists (b : blocks.Blocks) (a : asn.ASNs),
     New 4 = Ok b /\ root b = None /\ New 4 = Ok a /\ root a = None) /\
  (forall g ip,
     log_geolocip g <> None ->
     locations g = None \/ blocks_ g = None \/ asn_tree g = None ->
     GeoLocIPv4 g ip = Ok None) /\
  (forall w g ip,
     syslog w <> None -> init w = Ok g ->
     locations_file w = None \/ blocks_file w = None \/ asn_file w = None ->
     GeoLocIPv4 g ip = Ok None) /\
  (forall w ip,
     syslog w = None ->
     exists g, init w = Ok g /\
       locations g = None /\ blocks_ g = None /\ asn_tree g = None /\
       GeoLocIPv4 g ip = Panic NilDereference).
Proof.
  split; [|split; [|split; [|split; [|split]]]].
  - intros t p Hroot. unfold blocks.Get, Get. by rewrite Hroot.
  - intros t p Hroot. unfold asn.Get, Get. by rewrite Hroot.
  - eexists _, _. repeat split.
  - intros g ip Hlog Hmiss. rewrite GeoLocIPv4_not_ready by done.
    by destruct (log_geolocip g).
  - intros w g ip Hlog Hinit Hmiss.
    destruct (init_file_missing w g Hlog Hinit Hmiss) as [Hlg Hnone].
    rewrite GeoLocIPv4_not_ready by (destruct Hnone; auto).
    by destruct (log_geolocip g).
  - intros w ip Hs. unfold init. rewrite Hs.
    eexists. split; [done|]. simpl. repeat split.
Qed.

Lemma lookup_before_ready_witness :
  GeoLocIPv4 (mkGlobals (Some []) None None (Some SyslogWriter) None None) test_ip
    = Ok None /\
  exists g, init (mkWorld None None None None [] None) = Ok g /\
    locations g = None /\ blocks_ g = None /\ asn_tree g = None /\
    GeoLocIPv4 g test_ip = Panic NilDereference.
Proof.
  destruct lookup_before_ready as (_ & _ & _ & Hready & _ & Hnil). split.
  - apply Hready; simpl; [discriminate|]. right. by left.
  - apply Hnil. reflexivity.
Defined.

(** ** More on the transcoder *)

Local Open Scope Z_scope.

Lemma transfer_bound len_p buf : forall i out cur i' out' cur',
  transfer len_p buf i out cur = (i', out', cur') ->
  (length out <= len_p)%nat -> (length out' <= len_p)%nat.
Proof.
  induction buf as [|b rest IH]; intros i out cur i' out' cur' Ht Hb; simpl in Ht.
  - by inversion Ht; subst.
  - destruct (Nat.leb_spec len_p (length out)) as [Hfull|Hroom].
    { by inversion Ht; subst. }
    destruct (b <? 0x80).
    + eapply IH; [exact Ht|]. rewrite length_app. simpl. lia.
    + rewrite length_app in Ht. simpl in Ht.
      destruct (Nat.leb_spec len_p (length out + 1)).
      * eapply IH; [exact Ht|]. rewrite length_app. simpl. lia.
      * eapply IH; [exact Ht|]. rewrite !length_app. simpl. lia.
Qed.

Lemma Read_bound flr len_p flr' out err :
  Read flr len_p = Ok (flr', out, err) -> (length out <= len_p)%nat.
Proof.
  unfold Read. destruct (file_Read (file flr) len_p) as [[buf ferr] f1].
  destruct (Z.eqb_spec (currentChar flr) 0) as [Hc|Hc].
  - cbn [mbind result_bind].
    destruct (transfer len_p buf 0 [] (currentChar flr)) as [[i o] c] eqn:Ht.
    intros H. assert (out = o).
    { destruct ferr as [[]|]; [destruct (negb _)|]; by inversion H. }
    subst. eapply transfer_bound; [exact Ht|]. simpl. lia.
  - destruct (Nat.ltb_spec 0 len_p) as [Hk|Hk]; [|done]. cbn [mbind result_bind].
    destruct (transfer len_p buf 0 [currentChar flr] 0) as [[i o] c] eqn:Ht.
    intros H. assert (out = o).
    { destruct ferr as [[]|]; [destruct (negb _)|]; by inversion H. }
    subst. eapply transfer_bound; [exact Ht|]. simpl. lia.
Qed.

Lemma Read_empty_buffer flr :
  currentChar flr = 0 -> Read flr 0 = Ok (flr, [], None).
Proof.
  destruct flr as [[c p] cur]. simpl. intros ->.
  unfold Read, file_Read, file_Seek. simpl.
  destruct (Z.ltb_spec (Z.of_nat (p + 0) + (Z.of_nat 0 - Z.of_nat 0)) 0); [lia|].
  assert (E : Z.to_nat (Z.of_nat (p + 0) + (Z.of_nat 0 - Z.of_nat 0)) = p) by lia.
  by rewrite E.
Qed.

(** X1. A call of [Read] that returns has written at most [len(p)] bytes.
    On a buffer of length 0 with nothing pending it returns 0 bytes and a
    nil error and leaves the reader as it was, at the end of the file too;
    on a buffer of length 0 with a byte pending it panics at [p[0]]. *)
Theorem Read_within_buffer :
  (forall flr len_p flr' out err,
     Read flr len_p = Ok (flr', out, err) -> (length out <= len_p)%nat) /\
  (forall flr, currentChar flr = 0 -> Read flr 0 = Ok (flr, [], None)) /\
  (forall flr, currentChar flr <> 0 -> Read flr 0 = Panic IndexOutOfRange).
Proof.
  split; [exact Read_bound|]. split; [exact Read_empty_buffer|].
  intros flr Hc. unfold Read.
  destruct (file_Read (file flr) 0) as [[buf ferr] f1].
  by destruct (Z.eqb_spec (currentChar flr) 0).
Qed.

Lemma Read_within_buffer_witness :
  (length [0xC3; 0x80; 0xC3] <= 3)%nat /\
  Read (mkReader (mkFile sample 26) 0) 0 = Ok (mkReader (mkFile sample 26) 0, [], None) /\
  Read (mkReader (mkFile [0xE9] 1) 0xA9) 0 = Panic IndexOutOfRange.
Proof.
  destruct Read_within_buffer as (H1 & H2 & H3). split; [|split].
  - apply (H1 (open sample) 3%nat
              (mkReader (mkFile sample 2) 0x81) [0xC3; 0x80; 0xC3] None).
    vm_compute. reflexivity.
  - apply (H2 (mkReader (mkFile sample 26) 0)). reflexivity.
  - apply (H3 (mkReader (mkFile [0xE9] 1) 0xA9)). simpl. lia.
Defined.

(** X2. On a buffer that is not empty, [Read] returns; it returns no byte
    exactly when the file is exhausted and nothing is pending, and then the
    reader is left as it was; it returns io.EOF exactly when the file was
    exhausted when the call started. So it never returns 0 bytes with a nil
    error, and never io.EOF while source bytes are unread. *)
Theorem Read_progress (flr : fileLatin1Reader) (len_p : nat) :
  (0 < len_p)%nat ->
  exists flr' out err,
    Read flr len_p = Ok (flr', out, err) /\
    (out = [] <->
       (length (content (file flr)) <= pos (file flr))%nat /\ currentChar flr = 0) /\
    (err = Some EOF <-> (length (content (file flr)) <= pos (file flr))%nat) /\
    (err = None \/ err = Some EOF) /\
    (out = [] -> flr' = flr /\ err = Some EOF).
Proof.
  intros Hk.
  destruct (Read_spec flr len_p) as
    (i & flr' & out & err & HR & Hcont & Hpos & Hi & Hout & Hcur & Heof & Herr
       & Hhead & Hprog & Hz & Hne); [by left|].
  exists flr', out, err. split; [done|].
  rewrite length_drop in Hi.
  assert (Hempty : out = [] <->
            (length (content (file flr)) <= pos (file flr))%nat /\ currentChar flr = 0).
  { split.
    - intros ->. destruct (Nat.le_gt_cases (length (content (file flr))) (pos (file flr)))
        as [Hend|Hmore].
      + split; [done|]. destruct (Z.eq_dec (currentChar flr) 0) as [|Hc]; [done|].
        specialize (Hne Hk (or_intror Hc)). simpl in Hne. lia.
      + specialize (Hne Hk (or_introl Hmore)). simpl in Hne. lia.
    - intros [Hend Hc]. assert (i = 0%nat) by lia. subst i.
      rewrite (Hz eq_refl), Hc in Hout. simpl in Hout.
      by rewrite app_nil_r in Hout. }
  split; [done|]. split.
  { rewrite Heof. split; [by intros [? _]|]. intros. split; [done|lia]. }
  split; [done|].
  intros Ho. apply Hempty in Ho as [Hend Hc]. split.
  - assert (i = 0%nat) by lia. subst i.
    destruct flr as [[c p] cur], flr' as [[c' p'] cur']. simpl in *.
    rewrite (Hz eq_refl). subst. f_equal. f_equal. lia.
  - apply Heof. split; [done|lia].
Qed.

Lemma Read_progress_witness :
  exists flr' out err,
    Read (open sample) 5 = Ok (flr', out, err) /\
    (out = [] <->
       (length (content (file (open sample))) <= pos (file (open sample)))%nat /\
       currentChar (open sample) = 0) /\
    (err = Some EOF <->
       (length (content (file (open sample))) <= pos (file (open sample)))%nat) /\
    (err = None \/ err = Some EOF) /\
    (out = [] -> flr' = open sample /\ err = Some EOF).
Proof.
  apply (Read_progress (open sample) 5). lia.
Defined.

Lemma read_seq_spec sizes : forall flr acc,
  Forall (fun len_p => 0 < len_p)%nat sizes ->
  exists flr' out (k : nat),
    read_seq flr sizes acc = Ok (flr', out) /\
    content (file flr') = content (file flr) /\
    pos (file flr') = (pos (file flr) + k)%nat /\
    (k <= length (content (file flr)) - pos (file flr))%nat /\
    out ++ pend (currentChar flr') =
      acc ++ pend (currentChar flr) ++
      latin1_to_utf8 (take k (drop (pos (file flr)) (content (file flr)))).
Proof.
  induction sizes as [|len_p sizes IH]; intros flr acc Hs.
  { exists flr, acc, 0%nat. simpl. rewrite app_nil_r.
    repeat split; auto; lia. }
  apply Forall_cons in Hs as [Hk Hs].
  destruct (Read_spec flr len_p) as
    (i & flr1 & out1 & err & HR & Hcont & Hpos & Hi & Hout & _); [by left|].
  rewrite length_drop in Hi.
  destruct (IH flr1 (acc ++ out1) Hs) as (flr' & out & k & Hseq & Hc' & Hp' & Hk' & Ho').
  exists flr', out, (i + k)%nat. cbn [read_seq]. rewrite HR. cbn [mbind result_bind].
  rewrite Hseq. split; [done|]. rewrite Hcont, Hpos in *.
  split; [done|]. split; [lia|]. split; [lia|].
  rewrite Ho'. rewrite <- take_take_drop, latin1_to_utf8_app, drop_drop.
  rewrite <- !app_assoc. f_equal. rewrite !app_assoc. f_equal. exact Hout.
Qed.

(** X3. Calls of [Read] on buffers of any lengths of at least 1, changing
    from call to call, starting from the opened file: every call returns,
    and at every moment the bytes delivered so far, followed by the byte
    left pending, are the expansion of the source bytes before the file
    offset. No byte is lost, repeated or reordered by where the calls cut
    the stream. *)
Theorem read_seq_delivers (src : list Z) (sizes : list nat) :
  Forall (fun len_p => 0 < len_p)%nat sizes ->
  exists flr' out,
    read_seq (open src) sizes [] = Ok (flr', out) /\
    content (file flr') = src /\
    (pos (file flr') <= length src)%nat /\
    out ++ pend (currentChar flr') = latin1_to_utf8 (take (pos (file flr')) src).
Proof.
  intros Hs.
  destruct (read_seq_spec sizes (open src) [] Hs) as
    (flr' & out & k & Hseq & Hc & Hp & Hk & Ho).
  exists flr', out. simpl in *. rewrite Nat.sub_0_r in Hk.
  split; [done|]. split; [done|]. split; [lia|]. by rewrite Hp.
Qed.

Lemma read_seq_delivers_witness :
  exists flr' out,
    read_seq (open sample) [1; 4; 2; 7]%nat [] = Ok (flr', out) /\
    content (file flr') = sample /\
    (pos (file flr') <= length sample)%nat /\
    out ++ pend (currentChar flr') = latin1_to_utf8 (take (pos (file flr')) sample).
Proof.
  apply (read_seq_delivers sample [1; 4; 2; 7]%nat).
  repeat (constructor; [lia|]). constructor.
Defined.

(** The two bytes written for a source byte from 0x80 decode to it. *)
Lemma expand_high_decodes b :
  0x80 <= b < 256 ->
  (0 <=? utf8_first b) && (utf8_first b <? 0x80) = false /\
  (0xC2 <=? utf8_first b) && (utf8_first b <=? 0xDF) = true /\
  (0x80 <=? utf8_second b) && (utf8_second b <=? 0xBF) = true /\
  Z.lor (Z.shiftl (Z.land (utf8_first b) 0x1F) 6) (Z.land (utf8_second b) 0x3F) = b.
Proof.
  intros Hb.
  assert (Hall : forallb (fun n =>
            let b := Z.of_nat n in
            negb ((0 <=? utf8_first b) && (utf8_first b <? 0x80)) &&
            ((0xC2 <=? utf8_first b) && (utf8_first b <=? 0xDF)) &&
            ((0x80 <=? utf8_second b) && (utf8_second b <=? 0xBF)) &&
            (Z.lor (Z.shiftl (Z.land (utf8_first b) 0x1F) 6)
                   (Z.land (utf8_second b) 0x3F) =? b)) (seq 128 128) = true)
    by (vm_compute; reflexivity).
  rewrite forallb_forall in Hall. specialize (Hall (Z.to_nat b)).
  rewrite Z2Nat.id in Hall by lia.
  assert (Hin : In (Z.to_nat b) (seq 128 128)) by (apply in_seq; lia).
  apply Hall in Hin. cbv zeta in Hin.
  apply andb_true_iff in Hin as [Hin H4].
  apply andb_true_iff in Hin as [Hin H3].
  apply andb_true_iff in Hin as [H1 H2].
  apply negb_true_iff in H1. apply Z.eqb_eq in H4. done.
Qed.

Lemma utf8_decode_expansion src :
  bytes src -> utf8_decode (latin1_to_utf8 src) = Some src.
Proof.
  induction 1 as [|b src Hb _ IH]; [done|].
  change (latin1_to_utf8 (b :: src)) with (expand_byte b ++ latin1_to_utf8 src).
  unfold expand_byte. destruct (Z.ltb_spec b 0x80) as [Hlo|Hhi].
  - cbn [app utf8_decode].
    replace ((0 <=? b) && (b <? 0x80)) with true.
    + by rewrite IH.
    + symmetry. apply andb_true_iff. split; [apply Z.leb_le|apply Z.ltb_lt]; lia.
  - destruct (expand_high_decodes b) as (H1 & H2 & H3 & H4); [lia|].
    fold (utf8_first b). change (Z.lor 0x80 (Z.land b 0x3F)) with (utf8_second b).
    cbn [app utf8_decode]. rewrite H1, H2, H3, IH, H4. done.
Qed.

(** X4. What the read loop collects from a file of bytes, with any buffer
    of at least one byte, is well-formed UTF-8, and decoding it gives back
    the source, every byte being the code point of the same value: the
    conversion from ISO-8859-1 loses nothing. *)
Theorem read_all_decodes (src : list Z) (len_p : nat) :
  bytes src -> (1 <= len_p)%nat ->
  exists out, read_all src len_p = Ok out /\ utf8_decode out = Some src.
Proof.
  intros Hb Hk. exists (latin1_to_utf8 src).
  split; [by apply read_all_spec|by apply utf8_decode_expansion].
Qed.

Lemma sample_bytes : bytes sample.
Proof. unfold bytes, sample. repeat (constructor; [lia|]). constructor. Qed.

Lemma read_all_decodes_witness :
  exists out, read_all sample 5 = Ok out /\ utf8_decode out = Some sample.
Proof.
  apply (read_all_decodes sample 5); [exact sample_bytes|lia].
Defined.

Lemma transfer_ascii len_p buf : forall i out cur,
  ascii_only buf -> (length out + length buf <= len_p)%nat ->
  transfer len_p buf i out cur = ((i + length buf)%nat, out ++ buf, cur).
Proof.
  induction buf as [|b rest IH]; intros i out cur Ha Hl.
  { simpl. by rewrite Nat.add_0_r, app_nil_r. }
  apply Forall_cons in Ha as [Hb Ha]. simpl in Hl |- *.
  destruct (Nat.leb_spec len_p (length out)); [lia|].
  destruct (Z.ltb_spec b 0x80); [|lia].
  rewrite IH.
  - rewrite <- app_assoc. simpl. do 2 f_equal. lia.
  - done.
  - rewrite length_app. simpl. lia.
Qed.

(** X5. On a file of ASCII bytes the reader adds nothing to the file: with
    nothing pending, a call of [Read] gives the bytes and the error that
    [file.Read] gives for a buffer of the same length, leaves the file
    where [file.Read] leaves it, and leaves nothing pending. *)
Theorem Read_ascii_transparent (flr : fileLatin1Reader) (len_p : nat) :
  ascii_only (content (file flr)) -> currentChar flr = 0 ->
  Read flr len_p =
    (let '(buf, err, f1) := file_Read (file flr) len_p in Ok (mkReader f1 0, buf, err)).
Proof.
  intros Ha Hc. destruct flr as [[c p] cur]. simpl in *. subst cur.
  unfold Read, file_Read. cbn [file currentChar content pos].
  set (buf := take len_p (drop p c)).
  change (0 =? 0) with true. cbn [mbind result_bind].
  rewrite transfer_ascii.
  - unfold file_Seek. cbn [content pos app].
    replace (Z.of_nat (p + length buf) + (Z.of_nat (0 + length buf) - Z.of_nat (length buf))
             <? 0) with false by (symmetry; apply Z.ltb_ge; lia).
    replace (Z.to_nat (Z.of_nat (p + length buf) +
                       (Z.of_nat (0 + length buf) - Z.of_nat (length buf))))
      with (p + length buf)%nat by lia.
    change (negb (0 =? 0)) with false.
    by destruct ((length buf =? 0)%nat && negb (len_p =? 0)%nat).
  - unfold buf. by apply Forall_take, Forall_drop.
  - unfold buf. rewrite length_take. simpl. lia.
Qed.

Lemma Read_ascii_transparent_witness :
  Read (open [65; 66; 67; 68]) 3 =
    Ok (mkReader (mkFile [65; 66; 67; 68] 3) 0, [65; 66; 67], None).
Proof.
  apply (Read_ascii_transparent (open [65; 66; 67; 68]) 3).
  - unfold ascii_only. simpl. repeat (constructor; [lia|]). constructor.
  - reflexivity.
Defined.

Local Close Scope Z_scope.

(** ** The container with any comparator and any items

    What the search and the insertion do when the stored items are not
    known to be ordered for the item at hand (ranges that overlap, ranges
    with the low bound above the high one). *)

Section BTreeAny.
Context {A : Type} {Item_A : Item A}.
Implicit Types (k item x y : A) (s l its : list A) (n : node A).

(** Where the binary search stops to the right of its start, it has seen
    the predicate fail just before. *)
Lemma search_loop_pred (f : nat -> bool) : forall fuel i j,
  i <= j -> i < search_loop fuel f i j -> f (search_loop fuel f i j - 1) = false.
Proof.
  induction fuel as [|fuel IH]; intros i j Hij; cbn [search_loop]; [lia|].
  destruct (Nat.ltb_spec i j) as [Hlt|]; [|lia].
  pose proof (half_between i j Hlt) as Hh.
  destruct (f ((i + j) / 2)) eqn:Hf; cbn [negb].
  - intros Hr. apply IH; [lia|done].
  - intros _.
    pose proof (search_loop_bound f fuel ((i + j) / 2 + 1) j ltac:(lia)) as Hb.
    destruct (Nat.eq_dec (search_loop fuel f ((i + j) / 2 + 1) j) ((i + j) / 2 + 1))
      as [->|Hne].
    + by replace ((i + j) / 2 + 1 - 1) with ((i + j) / 2) by lia.
    + apply IH; lia.
Qed.

Lemma find_found s item i :
  find s item = (i, true) -> exists y, s !! i = Some y /\ rank item y = 1.
Proof.
  unfold find.
  set (f := fun i => match s !! i with Some x => Less item x | None => false end).
  pose proof (search_loop_pred f (length s) 0 (length s) ltac:(lia)) as Hp.
  fold (Search (length s) f) in Hp.
  destruct (Search (length s) f) as [|r]; [done|].
  specialize (Hp ltac:(lia)). replace (S r - 1) with r in Hp by lia.
  destruct (s !! r) as [y|] eqn:Hy; [|done].
  destruct (Less y item) eqn:Hyi; cbn [negb]; [done|].
  intros [= <-]. exists y. split; [done|].
  unfold f in Hp. rewrite Hy in Hp. apply rank_1. done.
Qed.

Lemma placed_around item (P Q E E' : list A) out :
  placed item E E' out -> placed item (P ++ E ++ Q) (P ++ E' ++ Q) out.
Proof.
  destruct out as [x|]; simpl.
  - intros (l1 & l2 & -> & -> & Hr). exists (P ++ l1), (l2 ++ Q).
    by rewrite <- !app_assoc.
  - intros (l1 & l2 & -> & ->). exists (P ++ l1), (l2 ++ Q).
    by rewrite <- !app_assoc.
Qed.

Lemma placed_elem_of item E E' out z :
  placed item E E' out -> z ∈ E' -> z = item \/ z ∈ E.
Proof.
  destruct out as [x|]; simpl.
  - intros (l1 & l2 & -> & -> & _). rewrite !elem_of_app, !elem_of_cons. tauto.
  - intros (l1 & l2 & -> & ->). rewrite !elem_of_app, !elem_of_cons. tauto.
Qed.

Lemma placed_item item E E' out : placed item E E' out -> item ∈ E'.
Proof.
  destruct out as [x|]; simpl.
  - intros (l1 & l2 & -> & -> & _). rewrite elem_of_app, elem_of_cons. tauto.
  - intros (l1 & l2 & -> & ->). rewrite elem_of_app, elem_of_cons. tauto.
Qed.

Lemma placed_length item E E' out :
  placed item E E' out ->
  length E' = match out with None => S (length E) | Some _ => length E end.
Proof.
  destruct out as [x|]; simpl.
  - intros (l1 & l2 & -> & -> & _). by rewrite !length_app.
  - intros (l1 & l2 & -> & ->). rewrite !length_app. simpl. lia.
Qed.

Lemma placed_out item E E' x :
  placed item E E' (Some x) -> x ∈ E /\ rank item x = 1.
Proof.
  simpl. intros (l1 & l2 & -> & -> & Hr). split; [|done].
  rewrite elem_of_app, elem_of_cons. tauto.
Qed.

Lemma descend_places item maxItems fuel is1 is2 (ch1 ch2 : list (node A)) c :
  insert_places fuel item maxItems c ->
  length ch1 = length is1 -> length ch2 = length is2 ->
  Forall wf (ch1 ++ c :: ch2) ->
  exists n' out,
    descend (fun c => insert fuel c item maxItems) (is1 ++ is2) (ch1 ++ c :: ch2)
            (length ch1) = Ok (n', out) /\ wf n' /\
    placed item (elements (Node (is1 ++ is2) (ch1 ++ c :: ch2))) (elements n') out.
Proof.
  intros (c' & out & Hins & Hwfc' & Hpl) Hl1 Hl2 Hwf.
  unfold descend. rewrite index_middle. cbn [mbind result_bind].
  rewrite Hins. cbn [mbind result_bind]. rewrite insert_middle.
  exists (Node (is1 ++ is2) (ch1 ++ c' :: ch2)), out. split; [done|].
  apply Forall_app in Hwf as [Hwf1 [_ Hwf2]%Forall_cons].
  split.
  - constructor.
    + right. rewrite !length_app. simpl. lia.
    + apply Forall_app. split; [done|]. by apply Forall_cons.
  - rewrite !elements_middle by done. by apply placed_around.
Qed.

Lemma insert_places_all item maxItems : 1 <= maxItems -> forall fuel n,
  height n <= fuel -> wf n -> insert_places fuel item maxItems n.
Proof.
  intros Hmax. induction fuel as [|fuel IH]; intros n Hh Hwf.
  { pose proof (height_pos n). lia. }
  destruct n as [its chs]. unfold insert_places.
  destruct (wf_inv _ _ Hwf) as [Hshape Hchs].
  pose proof (find_bound its item) as [Hi Hfound].
  pose proof (find_found its item) as Hff.
  cbn [insert]. destruct (find its item) as [i found]. simpl in Hi, Hfound.
  destruct found.
  - (* an item of this node matches: it is replaced *)
    destruct (Hff i eq_refl) as (y & Hy & Hr).
    unfold index. rewrite Hy. cbn [mbind result_bind].
    exists (Node (<[i:=item]> its) chs), (Some y). split; [done|].
    assert (Hil : i < length its) by (by eapply lookup_lt_Some).
    split.
    { constructor; [|done]. by rewrite length_insert. }
    destruct (flat_item (map elements chs) (take i its) (drop (S i) its) y)
      as (l1 & l2 & Hflat).
    { destruct Hshape as [->|Hlen]; [by left|right].
      rewrite List.length_map, take_drop_middle by done. done. }
    exists l1, l2. cbn [elements].
    rewrite insert_take_drop by done. rewrite <- !Hflat.
    rewrite take_drop_middle by done. done.
  - destruct Hshape as [->|Hlen].
    + (* a leaf: the item goes in at [i] *)
      cbn [length Nat.eqb]. unfold insertAt.
      destruct (Nat.leb_spec i (length its)); [|lia]. cbn [mbind result_bind].
      exists (Node (take i its ++ item :: drop i its) []), None.
      split; [done|]. split; [by constructor; [left|]|].
      exists (take i its), (drop i its). rewrite !elements_leaf.
      by rewrite take_drop.
    + (* an inner node *)
      destruct (Nat.eqb_spec (length chs) 0) as [|_]; [lia|].
      destruct (internal_at its chs i Hlen Hi) as (ch1 & c & ch2 & -> & Hl1 & Hl1' & Hl2).
      set (is1 := take i its) in *. set (is2 := drop i its) in *.
      assert (Hits : its = is1 ++ is2) by (unfold is1, is2; by rewrite take_drop).
      clearbody is1 is2. subst its. subst i.
      pose proof Hchs as Hchs'.
      apply Forall_app in Hchs' as [Hwf1 [Hwfc Hwf2]%Forall_cons].
      apply height_le_children in Hh.
      pose proof Hh as Hh'.
      apply Forall_app in Hh' as [_ [Hhc _]%Forall_cons].
      destruct (maybeSplitChild_spec is1 is2 ch1 ch2 c maxItems Hmax Hl1' Hwfc)
        as [Hno|(m & first & second & Hsp & Hwff & Hwfs & Hel & Hhs)].
      * rewrite Hno. cbn [mbind result_bind]. apply descend_places; auto.
      * rewrite Hsp. cbn [mbind result_bind].
        assert (Hidx : index (is1 ++ m :: is2) (length ch1) = Ok m)
          by (rewrite Hl1'; apply index_middle).
        rewrite Hidx. cbn [mbind result_bind].
        destruct (Hhs fuel Hhc) as [Hhf Hhsnd].
        pose proof (elements_after_split is1 is2 ch1 ch2 c first second m Hl1' Hel) as HE.
        rewrite <- HE.
        assert (Hwf' : Forall wf (ch1 ++ first :: second :: ch2)).
        { apply Forall_app. split; [done|]. repeat (constructor; [done|]); done. }
        destruct (Less item m) eqn:Him.
        { apply descend_places; auto. simpl. lia. }
        destruct (Less m item) eqn:Hmi.
        { replace (S (length ch1)) with (length (ch1 ++ [first]))
            by (rewrite length_app; simpl; lia).
          rewrite (cons_middle m is1 is2), (cons_middle first ch1 (second :: ch2)).
          rewrite !app_assoc.
          apply descend_places; auto.
          - rewrite !length_app. simpl. lia.
          - by rewrite <- app_assoc. }
        exists (Node (<[length ch1:=item]> (is1 ++ m :: is2))
                     (ch1 ++ first :: second :: ch2)), (Some m).
        split; [done|].
        split.
        { constructor; [right|done].
          rewrite length_insert, !length_app. simpl.
          rewrite !length_app in Hlen. simpl in Hlen. lia. }
        destruct (flat_item (map elements (ch1 ++ first :: second :: ch2)) is1 is2 m)
          as (l1 & l2 & Hflat).
        { right. rewrite List.length_map, !length_app. simpl.
          rewrite !length_app in Hlen. simpl in Hlen. lia. }
        exists l1, l2. cbn [elements].
        rewrite Hl1', insert_middle. rewrite <- !Hflat.
        split; [done|]. split; [done|]. by apply rank_1.
Qed.

Lemma ReplaceOrInsert_places (t : BTree A) item :
  tree_ok t ->
  exists t' out,
    ReplaceOrInsert t item = Ok (t', out) /\ tree_ok t' /\
    placed item (tree_elements t) (tree_elements t') out /\
    Len t' = match out with None => S (Len t) | Some _ => Len t end.
Proof.
  intros [[Hd Hwf] Hcount]. unfold ReplaceOrInsert, tree_ok, tree_wf, tree_elements, Len in *.
  destruct (root t) as [r|].
  - assert (Hmax : 1 <= maxItems t) by (unfold maxItems; lia).
    assert (Hr1 : exists r1,
               (if maxItems t <=? length (items r)
                then '(item2, first, second) ← split r (maxItems t / 2);
                     Ok (Node [item2] [first; second])
                else Ok r) = Ok r1 /\ wf r1 /\ elements r1 = elements r).
    { destruct (Nat.leb_spec (maxItems t) (length (items r))) as [Hfull|]; [|eauto].
      destruct r as [its chs]. cbn [items] in Hfull.
      destruct (split_spec its chs (maxItems t / 2) Hwf)
        as (m & first & second & Hsplit & Hwf1 & Hwf2 & Hel & _).
      { pose proof (Nat.div_lt (maxItems t) 2). lia. }
      rewrite Hsplit. cbn [mbind result_bind].
      exists (Node [m] [first; second]). split; [done|]. split.
      - constructor; [by right|]. repeat (constructor; [done|]); done.
      - rewrite Hel. cbn [elements]. simpl. by rewrite app_nil_r. }
    destruct Hr1 as (r1 & -> & Hwf1 & Hel). cbn [mbind result_bind].
    rewrite <- Hel in Hcount |- *.
    destruct (insert_places_all item (maxItems t) Hmax (height r1) r1 (le_n _) Hwf1)
      as (r2 & out & Hins & Hwf2 & Hpl).
    rewrite Hins. cbn [mbind result_bind].
    eexists _, out. split; [done|]. simpl.
    pose proof (placed_length _ _ _ _ Hpl) as Hlen.
    repeat split; auto. destruct out; lia.
  - eexists _, None. split; [done|]. simpl in *. repeat split; auto; try lia.
    by exists [], [].
Qed.

(** Any sequence of insertions: it returns, the tree holds only items that
    were stored before or are inserted, its counter is the number of items
    it holds, and the last item inserted is stored. *)
Lemma insert_all_places l : forall (t : BTree A),
  tree_ok t ->
  exists t', insert_all t l = Ok t' /\ tree_ok t' /\
    (forall x, x ∈ tree_elements t' -> x ∈ tree_elements t \/ x ∈ l) /\
    Len t' <= Len t + length l /\
    (forall l0 x, l = l0 ++ [x] -> x ∈ tree_elements t').
Proof.
  induction l as [|x l IH]; intros t Hok.
  { exists t. simpl. split; [done|]. split; [done|]. split; [by left|].
    split; [lia|]. intros l0 x E. by destruct l0. }
  destruct (ReplaceOrInsert_places t x Hok) as (t1 & out & Hins & Hok1 & Hpl & Hlen).
  destruct (IH t1 Hok1) as (t' & Hall & Hok' & Hsub & Hle & Hlast).
  exists t'. simpl. rewrite Hins. cbn [mbind result_bind].
  split; [done|]. split; [done|]. split; [|split].
  - intros z Hz. apply Hsub in Hz as [Hz|Hz]; [|right; by right].
    eapply placed_elem_of in Hz as [->|Hz]; [| |exact Hpl]; [right; by left|by left].
  - destruct out; lia.
  - intros l0 z E. destruct l0 as [|y l0]; simpl in E.
    + inversion E; subst. assert (Hx : z ∈ tree_elements t1) by (by eapply placed_item).
      clear -IH Hall Hx Hok1. simpl in Hall. inversion Hall; by subst.
    + inversion E; subst. by eapply Hlast.
Qed.

Lemma New_ok d : 2 <= d ->
  exists t : BTree A, New d = Ok t /\ tree_ok t /\ tree_elements t = [] /\ Len t = 0.
Proof.
  intros Hd. destruct (New_spec (A:=A) d Hd) as (t & HN & Hwf & Hel & Hc & _).
  exists t. unfold tree_ok, Len. rewrite Hel, Hc. done.
Qed.

Lemma elements_child its (chs : list (node A)) c x :
  wf (Node its chs) -> c ∈ chs -> x ∈ elements c -> x ∈ elements (Node its chs).
Proof.
  intros Hwf Hc Hx. destruct (wf_inv _ _ Hwf) as [[->|Hlen] _].
  { by apply elem_of_nil in Hc. }
  apply list_elem_of_lookup_1 in Hc as [i Hi].
  assert (Hil : i <= length its).
  { apply lookup_lt_Some in Hi. lia. }
  destruct (internal_at its chs i Hlen Hil) as (ch1 & c' & ch2 & -> & Hl1 & Hl1' & Hl2).
  rewrite <- Hl1, list_lookup_middle in Hi by done. inversion Hi; subst c'.
  rewrite <- (take_drop i its), elements_middle by done.
  rewrite !elem_of_app. tauto.
Qed.

(** The search in a well-shaped tree returns, and what it returns is
    stored and matches the key. *)
Lemma get_sound key : forall h n,
  height n <= h -> wf n ->
  exists o, get n key = Ok o /\
    forall x, o = Some x -> x ∈ elements n /\ rank key x = 1.
Proof.
  induction h as [|h IH]; intros n Hh Hwf.
  { pose proof (height_pos n). lia. }
  destruct n as [its chs].
  pose proof (items_sublist _ _ Hwf) as Hsub.
  destruct (wf_inv _ _ Hwf) as [Hshape Hchs].
  pose proof (find_bound its key) as [Hi Hfound].
  pose proof (find_found its key) as Hff.
  rewrite get_unfold. destruct (find its key) as [i found]. simpl in Hi, Hfound.
  destruct found.
  - destruct (Hff i eq_refl) as (y & Hy & Hr). unfold index. rewrite Hy. simpl.
    exists (Some y). split; [done|]. intros x [= <-]. split; [|done].
    eapply elem_of_sublist; [|exact Hsub]. by eapply list_elem_of_lookup_2.
  - destruct Hshape as [->|Hlen].
    + exists None. split; [done|]. done.
    + destruct (Nat.ltb_spec 0 (length chs)) as [_|]; [|lia].
      destruct (internal_at its chs i Hlen Hi) as (ch1 & c & ch2 & -> & Hl1 & Hl1' & Hl2).
      assert (Hidx : index (ch1 ++ c :: ch2) i = Ok c)
        by (rewrite <- Hl1; apply index_middle).
      rewrite Hidx. cbn [mbind result_bind].
      pose proof Hchs as Hchs'.
      apply Forall_app in Hchs' as [_ [Hwfc _]%Forall_cons].
      apply height_le_children in Hh.
      apply Forall_app in Hh as [_ [Hhc _]%Forall_cons].
      destruct (IH c Hhc Hwfc) as (o & Hget & Ho).
      exists o. split; [done|]. intros x Hx. destruct (Ho x Hx) as [Hin Hr].
      split; [|done]. eapply (elements_child _ _ c); [done| |done].
      rewrite elem_of_app, elem_of_cons. tauto.
Qed.

Lemma Get_sound (t : BTree A) key :
  tree_wf t ->
  exists o, Get t key = Ok o /\
    forall x, o = Some x -> x ∈ tree_elements t /\ rank key x = 1.
Proof.
  intros [_ Hwf]. unfold Get, tree_elements. destruct (root t) as [r|].
  - by apply (get_sound key (height r)).
  - exists None. split; [done|]. done.
Qed.

End BTreeAny.

(** ** The loaders and the lookups, whatever the files hold *)

Section RangeAny.
Context {A : Type} {Item_A : Item A} (lo hi : A -> Z) (key : Z -> A).
Hypothesis Less_range : forall x y, Less x y = (hi x <? lo y)%Z.
Hypothesis key_point : forall p, lo (key p) = p /\ hi (key p) = p.

Lemma built_any (l : list A) :
  exists t, (t0 ← New 4; insert_all t0 l) = Ok t /\ tree_ok t /\
    (forall x, x ∈ tree_elements t -> x ∈ l) /\
    Len t <= length l /\
    (forall l0 x, l = l0 ++ [x] -> x ∈ tree_elements t).
Proof.
  destruct (New_ok (A:=A) 4) as (t0 & HN & Hok0 & Hel0 & Hlen0); [lia|].
  destruct (insert_all_places l t0 Hok0) as (t & Hall & Hok & Hsub & Hle & Hlast).
  exists t. rewrite HN. cbn [mbind result_bind].
  split; [done|]. split; [done|]. split; [|split; [lia|done]].
  intros x Hx. apply Hsub in Hx as [Hx|Hx]; [|done].
  rewrite Hel0 in Hx. by apply elem_of_nil in Hx.
Qed.

Lemma range_get_sound (t : BTree A) p :
  tree_wf t ->
  exists o, Get t (key p) = Ok o /\
    forall x, o = Some x -> x ∈ tree_elements t /\ (lo x <= p <= hi x)%Z.
Proof.
  intros Hwf. destruct (Get_sound t (key p) Hwf) as (o & HG & Ho).
  exists o. split; [done|]. intros x Hx. destruct (Ho x Hx) as [Hin Hr].
  split; [done|]. apply rank_1 in Hr. rewrite !Less_range in Hr.
  destruct (key_point p) as [Hl Hh]. rewrite Hl, Hh in Hr.
  destruct Hr as [H1%Z.ltb_ge H2%Z.ltb_ge]. lia.
Qed.

Lemma range_placed_out r (E E' : list A) x :
  placed r E E' (Some x) -> x ∈ E /\ (lo x <= hi r)%Z /\ (lo r <= hi x)%Z.
Proof.
  intros [Hin Hr]%placed_out. split; [done|].
  apply rank_1 in Hr. rewrite !Less_range in Hr.
  destruct Hr as [H1%Z.ltb_ge H2%Z.ltb_ge]. lia.
Qed.

Lemma range_insert_any (rs : list A) (r : A) :
  exists t t' out,
    (t0 ← New 4; insert_all t0 rs) = Ok t /\
    ReplaceOrInsert t r = Ok (t', out) /\
    placed r (tree_elements t) (tree_elements t') out /\
    Len t = length (tree_elements t) /\ Len t' = length (tree_elements t') /\
    match out with
    | None => Len t' = S (Len t)
    | Some x => Len t' = Len t /\ x ∈ rs /\ (lo x <= hi r)%Z /\ (lo r <= hi x)%Z
    end.
Proof.
  destruct (built_any rs) as (t & Ht & Hok & Hsub & _).
  destruct (ReplaceOrInsert_places t r Hok) as (t' & out & Hins & Hok' & Hpl & Hlen).
  exists t, t', out. split; [done|]. split; [done|]. split; [done|].
  split; [by destruct Hok|]. split; [by destruct Hok'|].
  destruct out as [x|]; [|done]. split; [done|].
  apply range_placed_out in Hpl as (Hin & H1 & H2). auto.
Qed.

End RangeAny.

(** *** The loops of the loaders, record by record *)

Lemma countries_load_parse rs : forall t : countries.Countries,
  countries.load t rs = insert_all t (omap parse_country rs).
Proof.
  induction rs as [|values rs IH]; intros t; [done|]. cbn [countries.load omap list_omap].
  unfold parse_country at 1.
  destruct values as [|v0 [|v1 [|v2 vs]]]; auto.
  cbn [insert_all]. destruct (ReplaceOrInsert t _) as [[t' out]| |]; simpl; auto.
Qed.

Lemma read_records_length (rs : reads) : length (read_records rs) <= length rs.
Proof. induction rs as [|[values|] rs IH]; simpl; lia. Qed.

Lemma omap_length_le {B C} (f : B -> option C) (l : list B) :
  length (omap f l) <= length l.
Proof.
  induction l as [|x l IH]; [done|]. cbn [omap list_omap].
  destruct (f x); simpl; lia.
Qed.

Local Open Scope Z_scope.

(** X6. Whatever the file holds (ranges that overlap, a low address above
    the high one, lines that the csv reader refuses), with the log writer
    open or no line refused: the load returns a tree, every lookup in it
    returns, and a lookup never gives a wrong answer: what [Get(IP)]
    returns is nil or a record whose range holds [IP] and that was given by
    a record of the file read before the first refused line. For Blocks
    and for ASNs. *)
Theorem lookup_never_wrong :
  (forall w rs, w <> None \/ refused rs = false ->
     exists t,
       blocks.LoadBlocksFile w (Some rs) = Ok (Some t, false) /\
       forall IP, exists o,
         blocks.Get t IP = Ok o /\
         forall b, o = Some b ->
           b ∈ omap parse_block (read_records rs) /\
           blocks.LowIP b <= IP <= blocks.HighIP b) /\
  (forall w rs, w <> None \/ refused rs = false ->
     exists t,
       asn.LoadASNFile w (Some rs) = Ok (Some t, false) /\
       forall IP, exists o,
         asn.Get t IP = Ok o /\
         forall a, o = Some a ->
           a ∈ omap parse_asn (read_records rs) /\
           asn.LowIP a <= IP <= asn.HighIP a).
Proof.
  split.
  - intros w rs Hw.
    destruct (built_any (omap parse_block (read_records rs)))
      as (t & Ht & [Hwf _] & Hsub & _).
    exists t. split; [by apply LoadBlocksFile_reads|]. intros IP.
    destruct (range_get_sound blocks.LowIP blocks.HighIP (fun p => blocks.mkBlock p p 0)
                Block_Less_range Block_key_point t IP Hwf) as (o & HG & Ho).
    exists o. split; [done|]. intros b Hb. destruct (Ho b Hb). auto.
  - intros w rs Hw.
    destruct (built_any (omap parse_asn (read_records rs)))
      as (t & Ht & [Hwf _] & Hsub & _).
    exists t. split; [by apply LoadASNFile_reads|]. intros IP.
    destruct (range_get_sound asn.LowIP asn.HighIP (fun p => asn.mkASN p p "")
                ASN_Less_range ASN_key_point t IP Hwf) as (o & HG & Ho).
    exists o. split; [done|]. intros a Ha. destruct (Ho a Ha). auto.
Qed.

Lemma lookup_never_wrong_witness :
  (Some SyslogWriter <> None \/ refused overlapping_reads = false) /\
  exists t,
    blocks.LoadBlocksFile (Some SyslogWriter) (Some overlapping_reads)
      = Ok (Some t, false) /\
    forall IP, exists o,
      blocks.Get t IP = Ok o /\
      forall b, o = Some b ->
        b ∈ omap parse_block (read_records overlapping_reads) /\
        blocks.LowIP b <= IP <= blocks.HighIP b.
Proof.
  assert (Hw : Some SyslogWriter <> None \/ refused overlapping_reads = false)
    by (left; discriminate).
  split; [exact Hw|].
  exact (proj1 lookup_never_wrong (Some SyslogWriter) overlapping_reads Hw).
Defined.

Lemma digit_range c d : digit c = Some d -> 0 <= d <= 9.
Proof.
  unfold digit. destruct (Z.leb_spec 48 (Z.of_N (N_of_ascii c))); [|done].
  destruct (Z.leb_spec (Z.of_N (N_of_ascii c)) 57); [|done].
  simpl. intros [= <-]. lia.
Qed.

Lemma digits_nonneg s : forall acc v, 0 <= acc -> digits s acc = Some v -> 0 <= v.
Proof.
  induction s as [|c s IH]; intros acc v Hacc; simpl.
  - intros [= <-]. done.
  - destruct (digit c) as [d|] eqn:Hd; [|done].
    apply digit_range in Hd. apply IH. lia.
Qed.

Lemma ParseUint_range s v : ParseUint s 32 = Some v -> 0 <= v < 2 ^ 32.
Proof.
  unfold ParseUint. destruct s as [|c s]; [done|].
  destruct (digits (String c s) 0) as [x|] eqn:Hx; [|done].
  destruct (Z.ltb_spec x (2 ^ 32)); [|done]. intros [= <-].
  split; [|done]. by eapply digits_nonneg; [|exact Hx].
Qed.

Lemma parse_block_range b (rs : rows) :
  b ∈ omap parse_block rs ->
  0 <= blocks.LowIP b < 2 ^ 32 /\ 0 <= blocks.HighIP b < 2 ^ 32 /\
  0 <= blocks.LocId b < 2 ^ 32.
Proof.
  rewrite list_elem_of_omap. intros (values & _ & Hp). unfold parse_block in Hp.
  destruct values as [|v0 [|v1 [|v2 [|v3 vs]]]]; try done.
  destruct (ParseUint v0 32) as [x0|] eqn:H0; [|done].
  destruct (ParseUint v1 32) as [x1|] eqn:H1; [|done].
  destruct (ParseUint v2 32) as [x2|] eqn:H2; [|done].
  inversion Hp; subst; simpl.
  apply ParseUint_range in H0, H1, H2. done.
Qed.

Lemma parse_asn_range a (rs : rows) :
  a ∈ omap parse_asn rs ->
  0 <= asn.LowIP a < 2 ^ 32 /\ 0 <= asn.HighIP a < 2 ^ 32.
Proof.
  rewrite list_elem_of_omap. intros (values & _ & Hp). unfold parse_asn in Hp.
  destruct values as [|v0 [|v1 [|v2 [|v3 vs]]]]; try done.
  destruct (ParseUint v0 32) as [x0|] eqn:H0; [|done].
  destruct (ParseUint v1 32) as [x1|] eqn:H1; [|done].
  inversion Hp; subst; simpl.
  apply ParseUint_range in H0, H1. done.
Qed.

(** X7. What a loaded table holds, whatever the file holds, with the log
    writer open or no line refused by the csv reader: every stored record
    was given by a record of the file, read before the first refused line,
    with three columns and decimal numbers, and its numeric fields are in
    the range of a uint32, so the conversions [uint32(low_ip)] and the like
    lose nothing; [Len] is the number of stored records, at most the number
    of such records of the file; and the record of the last of them is
    stored. For Blocks and for ASNs. *)
Theorem loaded_records :
  (forall w rs, w <> None \/ refused rs = false ->
     exists t,
       blocks.LoadBlocksFile w (Some rs) = Ok (Some t, false) /\
       Len t = length (tree_elements t) /\
       (Len t <= length (omap parse_block (read_records rs)) <= length rs)%nat /\
       (forall b, b ∈ tree_elements t ->
          b ∈ omap parse_block (read_records rs) /\
          0 <= blocks.LowIP b < 2 ^ 32 /\ 0 <= blocks.HighIP b < 2 ^ 32 /\
          0 <= blocks.LocId b < 2 ^ 32) /\
       (forall bs b, omap parse_block (read_records rs) = bs ++ [b] ->
          b ∈ tree_elements t)) /\
  (forall w rs, w <> None \/ refused rs = false ->
     exists t,
       asn.LoadASNFile w (Some rs) = Ok (Some t, false) /\
       Len t = length (tree_elements t) /\
       (Len t <= length (omap parse_asn (read_records rs)) <= length rs)%nat /\
       (forall a, a ∈ tree_elements t ->
          a ∈ omap parse_asn (read_records rs) /\
          0 <= asn.LowIP a < 2 ^ 32 /\ 0 <= asn.HighIP a < 2 ^ 32) /\
       (forall l a, omap parse_asn (read_records rs) = l ++ [a] ->
          a ∈ tree_elements t)).
Proof.
  split.
  - intros w rs Hw.
    destruct (built_any (omap parse_block (read_records rs)))
      as (t & Ht & [Hwf Hc] & Hsub & Hle & Hlast).
    exists t. split; [by apply LoadBlocksFile_reads|]. split; [done|].
    split.
    { split; [done|]. pose proof (omap_length_le parse_block (read_records rs)).
      pose proof (read_records_length rs). lia. }
    split; [|done].
    intros b Hb. apply Hsub in Hb. split; [done|]. by eapply parse_block_range.
  - intros w rs Hw.
    destruct (built_any (omap parse_asn (read_records rs)))
      as (t & Ht & [Hwf Hc] & Hsub & Hle & Hlast).
    exists t. split; [by apply LoadASNFile_reads|]. split; [done|].
    split.
    { split; [done|]. pose proof (omap_length_le parse_asn (read_records rs)).
      pose proof (read_records_length rs). lia. }
    split; [|done].
    intros a Ha. apply Hsub in Ha. split; [done|]. by eapply parse_asn_range.
Qed.

Lemma loaded_records_witness :
  (Some SyslogWriter <> None \/ refused overlapping_reads = false) /\
  exists t,
    blocks.LoadBlocksFile (Some SyslogWriter) (Some overlapping_reads)
      = Ok (Some t, false) /\
    Len t = length (tree_elements t) /\
    (Len t <= length (omap parse_block (read_records overlapping_reads))
       <= length overlapping_reads)%nat /\
    (forall b, b ∈ tree_elements t ->
       b ∈ omap parse_block (read_records overlapping_reads) /\
       0 <= blocks.LowIP b < 2 ^ 32 /\ 0 <= blocks.HighIP b < 2 ^ 32 /\
       0 <= blocks.LocId b < 2 ^ 32) /\
    (forall bs b, omap parse_block (read_records overlapping_reads) = bs ++ [b] ->
       b ∈ tree_elements t).
Proof.
  assert (Hw : Some SyslogWriter <> None \/ refused overlapping_reads = false)
    by (left; discriminate).
  split; [exact Hw|].
  exact (proj1 loaded_records (Some SyslogWriter) overlapping_reads Hw).
Defined.

(** X8. An insertion into a table built by insertions of any records,
    whatever their ranges: it returns; the stored sequence changes at one
    place only, where the new record goes in or takes the place of one
    stored record. With nothing returned the table has one record more;
    with a record returned the table has as many as before, and the record
    returned was stored and lies neither wholly below nor wholly above the
    new one. [Len] is the number of stored records before and after. For
    Blocks and for ASNs. *)
Theorem insert_adds_or_replaces :
  (forall (rs : list blocks.Block) (r : blocks.Block),
     exists (t t' : blocks.Blocks) out,
       (t0 ← New 4; insert_all t0 rs) = Ok t /\
       ReplaceOrInsert t r = Ok (t', out) /\
       placed r (tree_elements t) (tree_elements t') out /\
       Len t = length (tree_elements t) /\ Len t' = length (tree_elements t') /\
       match out with
       | None => Len t' = S (Len t)
       | Some x => Len t' = Len t /\ x ∈ rs /\
                   blocks.LowIP x <= blocks.HighIP r /\ blocks.LowIP r <= blocks.HighIP x
       end) /\
  (forall (rs : list asn.ASN) (r : asn.ASN),
     exists (t t' : asn.ASNs) out,
       (t0 ← New 4; insert_all t0 rs) = Ok t /\
       ReplaceOrInsert t r = Ok (t', out) /\
       placed r (tree_elements t) (tree_elements t') out /\
       Len t = length (tree_elements t) /\ Len t' = length (tree_elements t') /\
       match out with
       | None => Len t' = S (Len t)
       | Some x => Len t' = Len t /\ x ∈ rs /\
                   asn.LowIP x <= asn.HighIP r /\ asn.LowIP r <= asn.HighIP x
       end).
Proof.
  split.
  - intros rs r.
    exact (range_insert_any blocks.LowIP blocks.HighIP Block_Less_range rs r).
  - intros rs r.
    exact (range_insert_any asn.LowIP asn.HighIP ASN_Less_range rs r).
Qed.

(** X9. A file of which the csv reader refuses no line, or that is loaded
    with the log writer open, and whose records with three columns and
    decimal numbers, read before the first refused line, give ranges with
    [low <= high] that do not overlap each other, other records being of
    any kind: the load returns a tree with one record for each of those
    records, and [Get(IP)] on it returns the record of the one whose range
    holds [IP], and nil when none of these ranges holds it. For
    [LoadBlocksFile] with [Blocks.Get] and [LoadASNFile] with [ASNs.Get]. *)
Theorem load_then_lookup :
  (forall w rs,
     w <> None \/ refused rs = false ->
     Forall (fun r => blocks.LowIP r <= blocks.HighIP r)
       (omap parse_block (read_records rs)) ->
     (forall i j a b, i <> j ->
        omap parse_block (read_records rs) !! i = Some a ->
        omap parse_block (read_records rs) !! j = Some b ->
        blocks.HighIP a < blocks.LowIP b \/ blocks.HighIP b < blocks.LowIP a) ->
     exists t,
       blocks.LoadBlocksFile w (Some rs) = Ok (Some t, false) /\
       Len t = length (omap parse_block (read_records rs)) /\
       forall IP,
         (forall r, r ∈ omap parse_block (read_records rs) ->
            blocks.LowIP r <= IP <= blocks.HighIP r -> blocks.Get t IP = Ok (Some r)) /\
         ((forall r, r ∈ omap parse_block (read_records rs) ->
             ~ (blocks.LowIP r <= IP <= blocks.HighIP r)) ->
          blocks.Get t IP = Ok None)) /\
  (forall w rs,
     w <> None \/ refused rs = false ->
     Forall (fun r => asn.LowIP r <= asn.HighIP r)
       (omap parse_asn (read_records rs)) ->
     (forall i j a b, i <> j ->
        omap parse_asn (read_records rs) !! i = Some a ->
        omap parse_asn (read_records rs) !! j = Some b ->
        asn.HighIP a < asn.LowIP b \/ asn.HighIP b < asn.LowIP a) ->
     exists t,
       asn.LoadASNFile w (Some rs) = Ok (Some t, false) /\
       Len t = length (omap parse_asn (read_records rs)) /\
       forall IP,
         (forall r, r ∈ omap parse_asn (read_records rs) ->
            asn.LowIP r <= IP <= asn.HighIP r -> asn.Get t IP = Ok (Some r)) /\
         ((forall r, r ∈ omap parse_asn (read_records rs) ->
             ~ (asn.LowIP r <= IP <= asn.HighIP r)) ->
          asn.Get t IP = Ok None)).
Proof.
  split.
  - intros w rs Hw Hvalid Hdisj.
    destruct (range_index_lookup blocks.LowIP blocks.HighIP (fun p => blocks.mkBlock p p 0)
                Block_Less_range Block_key_point _ Hvalid Hdisj) as (t & Ht & Hlen & Hget).
    exists t. split; [by apply LoadBlocksFile_reads|]. done.
  - intros w rs Hw Hvalid Hdisj.
    destruct (range_index_lookup asn.LowIP asn.HighIP (fun p => asn.mkASN p p "")
                ASN_Less_range ASN_key_point _ Hvalid Hdisj) as (t & Ht & Hlen & Hget).
    exists t. split; [by apply LoadASNFile_reads|]. done.
Qed.

Lemma disjoint_reads_parsed :
  omap parse_block (read_records disjoint_reads) =
    [blocks.mkBlock 16777216 16777471 17; blocks.mkBlock 1 2 3].
Proof. vm_compute. reflexivity. Qed.

Lemma load_then_lookup_witness :
  (Some SyslogWriter <> None \/ refused disjoint_reads = false) /\
  exists t,
    blocks.LoadBlocksFile (Some SyslogWriter) (Some disjoint_reads)
      = Ok (Some t, false) /\
    Len t = length (omap parse_block (read_records disjoint_reads)) /\
    forall IP,
      (forall r, r ∈ omap parse_block (read_records disjoint_reads) ->
         blocks.LowIP r <= IP <= blocks.HighIP r -> blocks.Get t IP = Ok (Some r)) /\
      ((forall r, r ∈ omap parse_block (read_records disjoint_reads) ->
          ~ (blocks.LowIP r <= IP <= blocks.HighIP r)) ->
       blocks.Get t IP = Ok None).
Proof.
  assert (Hw : Some SyslogWriter <> None \/ refused disjoint_reads = false)
    by (left; discriminate).
  split; [exact Hw|].
  apply (proj1 load_then_lookup (Some SyslogWriter) disjoint_reads Hw).
  - rewrite disjoint_reads_parsed. repeat constructor; simpl; lia.
  - rewrite disjoint_reads_parsed.
    intros [|[|i]] [|[|j]] a b Hij Ha Hb; try done;
      simpl in Ha, Hb; inversion Ha; inversion Hb; subst; simpl; lia.
Defined.

Local Close Scope Z_scope.

(** *** Countries: a later record takes the place of an earlier one *)

Lemma last_with_snoc {B K : Type} `{EqDecision K} (key : B -> K) k l x :
  last_with key k (l ++ [x]) =
    if decide (key x = k) then Some x else last_with key k l.
Proof.
  induction l as [|a l IH]; simpl.
  - by destruct (decide (key x = k)).
  - rewrite IH. by destruct (decide (key x = k)).
Qed.

Lemma last_with_Some {B K : Type} `{EqDecision K} (key : B -> K) k l y :
  last_with key k l = Some y -> key y = k /\ y ∈ l.
Proof.
  induction l as [|a l IH]; simpl; [done|].
  destruct (last_with key k l) as [z|].
  - intros [= <-]. destruct (IH eq_refl). split; [done|by right].
  - destruct (decide (key a = k)); [|done]. intros [= <-]. split; [done|by left].
Qed.

Lemma last_with_None {B K : Type} `{EqDecision K} (key : B -> K) k l :
  last_with key k l = None -> forall x, x ∈ l -> key x <> k.
Proof.
  induction l as [|a l IH]; simpl; intros Hn x Hx.
  - by apply elem_of_nil in Hx.
  - destruct (last_with key k l) as [z|]; [done|].
    destruct (decide (key a = k)); [done|].
    apply elem_of_cons in Hx as [->|Hx]; [done|by apply IH].
Qed.

Lemma last_with_app_r {B K : Type} `{EqDecision K} (key : B -> K) k l1 l2 y :
  last_with key k l2 = Some y -> last_with key k (l1 ++ l2) = Some y.
Proof.
  intros Hy. induction l1 as [|a l1 IH]; simpl; [done|]. by rewrite IH.
Qed.

Lemma last_with_app_l {B K : Type} `{EqDecision K} (key : B -> K) k l1 l2 :
  last_with key k l2 = None -> last_with key k (l1 ++ l2) = last_with key k l1.
Proof.
  intros Hn. induction l1 as [|a l1 IH]; simpl; [done|]. by rewrite IH.
Qed.

Lemma Country_rank1 (c x : countries.Country) :
  rank c x = 1 <-> countries.Code c = countries.Code x.
Proof. rewrite rank_1. apply Country_matches. Qed.

Lemma Country_lt_ne (x y : countries.Country) :
  lt x y -> countries.Code x <> countries.Code y.
Proof.
  unfold lt, Less, countries.Country_Less. intros Hlt E.
  by rewrite E, string_ltb_irrefl in Hlt.
Qed.

Lemma Country_lt_code (x y x' y' : countries.Country) :
  countries.Code x = countries.Code x' -> countries.Code y = countries.Code y' ->
  lt x y -> lt x' y'.
Proof. unfold lt, Less, countries.Country_Less. by intros -> ->. Qed.

Lemma holds_last_insert (t : countries.Countries) cs c :
  holds_last t cs ->
  exists t' out, ReplaceOrInsert t c = Ok (t', out) /\ holds_last t' (cs ++ [c]).
Proof.
  intros (Hwf & Hs & HA & HB).
  assert (Hm : mono c (tree_elements t)).
  { apply (sorted_mono (fun _ => True) Country_trans); [done| |done].
    by apply Forall_true. }
  destruct (ReplaceOrInsert_spec t c Hwf Hm) as (t' & out & Hins & Hwf' & Hin & _).
  exists t', out. split; [done|]. split; [done|].
  destruct out as [x0|]; simpl in Hin.
  - destruct Hin as (l1 & l2 & HE & HE' & Hr). apply Country_rank1 in Hr.
    rewrite HE in *. rewrite HE'. clear HE HE'.
    apply StronglySorted_app in Hs as (H12 & Hs1 & Hs2).
    apply StronglySorted_cons in Hs2 as [Hx0 Hs2].
    rewrite Forall_forall in Hx0.
    split; [|split].
    + apply StronglySorted_app. split; [|split; [done|]].
      * intros x1 x2 Hx1 Hx2. apply elem_of_cons in Hx2 as [->|Hx2].
        -- apply (Country_lt_code x1 x0); [done|done|]. apply H12; [done|by left].
        -- apply H12; [done|by right].
      * apply StronglySorted_cons. split; [|done]. apply Forall_forall.
        intros y Hy. apply (Country_lt_code x0 y); [done|done|by apply Hx0].
    + intros x Hx. rewrite last_with_snoc.
      apply elem_of_app in Hx as [Hx|Hx].
      * assert (Hne : countries.Code c <> countries.Code x).
        { rewrite Hr. intros E. apply (Country_lt_ne x x0); [|done].
          apply H12; [done|by left]. }
        destruct (decide (countries.Code c = countries.Code x)); [done|].
        apply HA. apply elem_of_app. by left.
      * apply elem_of_cons in Hx as [->|Hx].
        { by destruct (decide (countries.Code c = countries.Code c)). }
        assert (Hne : countries.Code c <> countries.Code x).
        { rewrite Hr. apply Country_lt_ne. by apply Hx0. }
        destruct (decide (countries.Code c = countries.Code x)); [done|].
        apply HA. apply elem_of_app. right. by right.
    + intros k y. rewrite last_with_snoc.
      destruct (decide (countries.Code c = k)) as [Hk|Hk].
      * intros [= <-]. apply elem_of_app. right. by left.
      * intros Hy. pose proof (last_with_Some _ _ _ _ Hy) as [Hky _].
        apply HB in Hy. rewrite !elem_of_app, !elem_of_cons in *.
        destruct Hy as [Hy|[->|Hy]]; auto. congruence.
  - pose proof Hin as (l1 & l2 & HE & HE' & H0 & H2).
    assert (Hne : forall x, x ∈ tree_elements t -> countries.Code c <> countries.Code x).
    { intros x Hx Hc. apply Country_rank1 in Hc.
      rewrite HE in Hx. rewrite Forall_forall in H0, H2.
      apply elem_of_app in Hx as [Hx|Hx]; [apply H0 in Hx|apply H2 in Hx]; lia. }
    assert (Hsub : forall x, x ∈ tree_elements t' <-> x = c \/ x ∈ tree_elements t).
    { intros x. rewrite HE, HE', !elem_of_app, elem_of_cons. tauto. }
    split; [|split].
    + by eapply inserted_sorted.
    + intros x Hx. rewrite last_with_snoc. apply Hsub in Hx as [->|Hx].
      * by destruct (decide (countries.Code c = countries.Code c)).
      * specialize (Hne x Hx).
        destruct (decide (countries.Code c = countries.Code x)); [done|]. by apply HA.
    + intros k y. rewrite last_with_snoc. rewrite Hsub.
      destruct (decide (countries.Code c = k)) as [Hk|Hk].
      * intros [= <-]. by left.
      * intros Hy. right. by eapply HB.
Qed.

Lemma holds_last_insert_all l : forall (t : countries.Countries) cs,
  holds_last t cs -> exists t', insert_all t l = Ok t' /\ holds_last t' (cs ++ l).
Proof.
  induction l as [|c l IH]; intros t cs Hh.
  { exists t. by rewrite app_nil_r. }
  destruct (holds_last_insert t cs c Hh) as (t1 & out & Hins & Hh1).
  destruct (IH t1 (cs ++ [c]) Hh1) as (t' & Hall & Hh').
  exists t'. simpl. rewrite Hins. cbn [mbind result_bind].
  split; [done|]. by rewrite <- app_assoc in Hh'.
Qed.

Lemma holds_last_Get (t : countries.Countries) cs code :
  holds_last t cs ->
  countries.Get t code = Ok (last_with countries.Code code cs).
Proof.
  intros (Hwf & Hs & HA & HB).
  destruct (sorted_lookup (fun _ => True) Country_trans t (countries.mkCountry code "")
              Hwf Hs) as [Hin Hout]; [by apply Forall_true|done|apply Country_point|].
  unfold countries.Get.
  destruct (last_with countries.Code code cs) as [y|] eqn:Hy.
  - pose proof (last_with_Some _ _ _ _ Hy) as [Hk _].
    apply Hin; [by eapply HB|]. apply Country_matches. by simpl.
  - apply Hout. intros x Hx Hm%Country_matches. simpl in Hm.
    specialize (HA x Hx). rewrite <- Hm, Hy in HA. done.
Qed.

Lemma LoadCountries_holds_last (countries_list : rows) :
  exists t, countries.LoadCountries countries_list = Ok t /\
            holds_last t (omap parse_country countries_list).
Proof.
  unfold countries.LoadCountries.
  destruct (New_spec (A:=countries.Country) 4) as (t0 & -> & Hwf0 & Hel0 & _); [lia|].
  cbn [mbind result_bind]. rewrite countries_load_parse.
  destruct (holds_last_insert_all (omap parse_country countries_list) t0 [])
    as (t & Hall & Hh).
  { split; [done|]. rewrite Hel0. split; [constructor|]. split.
    - intros x Hx. by apply elem_of_nil in Hx.
    - done. }
  by exists t.
Qed.

Lemma GetCountry_loaded (t : countries.Countries) cs loc :
  holds_last t cs -> GetCountry (Some t) loc = Ok (country_name cs (Country loc)).
Proof.
  intros Hh. unfold GetCountry, country_name.
  rewrite (holds_last_Get t cs _ Hh). cbn [mbind result_bind].
  by destruct (last_with countries.Code (Country loc) cs).
Qed.

(** X10. [LoadCountries] returns a table for any list of records; a
    record of two columns, a name then a code, gives the country with that
    code and that name, any other record is left out; and every lookup
    returns: [Get(code)] is the country of the last record with that code,
    nil when no record has it. [GetCountry] is then the name of that
    country, and the empty string when there is none or when the table is
    nil. *)
Theorem LoadCountries_last_wins (countries_list : rows) :
  exists t,
    countries.LoadCountries countries_list = Ok t /\
    (forall code,
       countries.Get t code =
         Ok (last_with countries.Code code (omap parse_country countries_list))) /\
    (forall loc,
       GetCountry (Some t) loc =
         Ok (country_name (omap parse_country countries_list) (Country loc))) /\
    (forall loc, GetCountry None loc = Ok ""%string).
Proof.
  destruct (LoadCountries_holds_last countries_list) as (t & Ht & Hh).
  exists t. split; [done|]. split; [|split; [|done]].
  - intros code. by apply holds_last_Get.
  - intros loc. by apply GetCountry_loaded.
Qed.

Example repeated_countries_loaded :
  exists t,
    countries.LoadCountries repeated_countries = Ok t /\ Len t = 2 /\
    countries.Get t "US" = Ok (Some (countries.mkCountry "US" "United States")) /\
    countries.Get t "FR" = Ok (Some (countries.mkCountry "FR" "France")) /\
    countries.Get t "b" = Ok None.
Proof. eexists. split; [vm_compute; reflexivity|]. vm_compute. done. Qed.

(** *** The order of the rows *)

Section RangeOrder.
Context {A : Type} {Item_A : Item A} (lo hi : A -> Z) (key : Z -> A).
Hypothesis Less_range : forall x y, Less x y = (hi x <? lo y)%Z.
Hypothesis key_point : forall p, lo (key p) = p /\ hi (key p) = p.

Lemma disjoint_NoDup (rs : list A) :
  Forall (valid lo hi) rs ->
  (forall i j a b, i <> j -> rs !! i = Some a -> rs !! j = Some b -> disjoint lo hi a b) ->
  NoDup rs.
Proof.
  intros Hv Hd. apply NoDup_alt. intros i j x Hi Hj.
  destruct (Nat.eq_dec i j) as [|Hne]; [done|]. exfalso.
  specialize (Hd i j x x Hne Hi Hj).
  rewrite Forall_forall in Hv. specialize (Hv x (list_elem_of_lookup_2 _ _ _ Hi)).
  unfold valid, disjoint in *. lia.
Qed.

Lemma disjoint_perm (rs1 rs2 : list A) :
  rs1 ≡ₚ rs2 ->
  Forall (valid lo hi) rs1 ->
  (forall i j a b, i <> j -> rs1 !! i = Some a -> rs1 !! j = Some b -> disjoint lo hi a b) ->
  forall i j a b, i <> j -> rs2 !! i = Some a -> rs2 !! j = Some b -> disjoint lo hi a b.
Proof.
  intros Hp Hv Hd i j a b Hij Ha Hb.
  pose proof (disjoint_NoDup rs1 Hv Hd) as Hnd. rewrite Hp in Hnd.
  assert (Hab : a <> b).
  { intros ->. apply Hij. by eapply NoDup_lookup. }
  apply list_elem_of_lookup_2 in Ha, Hb. rewrite <- Hp in Ha, Hb.
  apply list_elem_of_lookup_1 in Ha as [i' Ha], Hb as [j' Hb].
  apply (Hd i' j'); [|done|done]. intros ->. congruence.
Qed.

Lemma range_order_independent (rs1 rs2 : list A) :
  rs1 ≡ₚ rs2 ->
  Forall (valid lo hi) rs1 ->
  (forall i j a b, i <> j -> rs1 !! i = Some a -> rs1 !! j = Some b -> disjoint lo hi a b) ->
  exists t1 t2,
    (t0 ← New 4; insert_all t0 rs1) = Ok t1 /\
    (t0 ← New 4; insert_all t0 rs2) = Ok t2 /\
    Len t1 = Len t2 /\
    forall p, Get t1 (key p) = Get t2 (key p).
Proof.
  intros Hp Hv Hd.
  pose proof (disjoint_perm rs1 rs2 Hp Hv Hd) as Hd2.
  assert (Hv2 : Forall (valid lo hi) rs2) by (by rewrite <- Hp).
  destruct (range_index_lookup lo hi key Less_range key_point rs1 Hv Hd)
    as (t1 & Ht1 & Hlen1 & Hget1).
  destruct (range_index_lookup lo hi key Less_range key_point rs2 Hv2 Hd2)
    as (t2 & Ht2 & Hlen2 & Hget2).
  destruct (built_any rs1) as (t1' & Ht1' & [Hwf1 _] & Hsub1 & _).
  rewrite Ht1 in Ht1'. inversion Ht1'; subst t1'; clear Ht1'.
  exists t1, t2. split; [done|]. split; [done|].
  split; [by rewrite Hlen1, Hlen2, Hp|].
  intros p.
  destruct (range_get_sound lo hi key Less_range key_point t1 p Hwf1) as (o & Ho & Hs).
  rewrite Ho. destruct o as [x|].
  - destruct (Hs x eq_refl) as [Hx Hh]. apply Hsub1 in Hx.
    symmetry. apply (Hget2 p); [by rewrite <- Hp|done].
  - symmetry. apply (Hget2 p). intros r Hr Hh.
    rewrite <- Hp in Hr. destruct (Hget1 p) as [Hin _].
    specialize (Hin r Hr Hh). congruence.
Qed.

End RangeOrder.

Local Open Scope Z_scope.

(** X17. The order of the records does not matter to the lookups: two
    sequences of the same range records, with [low <= high] and no two
    overlapping, inserted into fresh tables in their two orders, give
    tables with the same [Len] in which every [Get] gives the same answer.
    For Blocks and for ASNs. *)
Theorem lookup_order_independent :
  (forall rs1 rs2 : list blocks.Block,
     rs1 ≡ₚ rs2 ->
     Forall (fun r => blocks.LowIP r <= blocks.HighIP r) rs1 ->
     (forall i j a b, i <> j -> rs1 !! i = Some a -> rs1 !! j = Some b ->
        blocks.HighIP a < blocks.LowIP b \/ blocks.HighIP b < blocks.LowIP a) ->
     exists t1 t2 : blocks.Blocks,
       (t0 ← New 4; insert_all t0 rs1) = Ok t1 /\
       (t0 ← New 4; insert_all t0 rs2) = Ok t2 /\
       Len t1 = Len t2 /\
       forall IP, blocks.Get t1 IP = blocks.Get t2 IP) /\
  (forall rs1 rs2 : list asn.ASN,
     rs1 ≡ₚ rs2 ->
     Forall (fun r => asn.LowIP r <= asn.HighIP r) rs1 ->
     (forall i j a b, i <> j -> rs1 !! i = Some a -> rs1 !! j = Some b ->
        asn.HighIP a < asn.LowIP b \/ asn.HighIP b < asn.LowIP a) ->
     exists t1 t2 : asn.ASNs,
       (t0 ← New 4; insert_all t0 rs1) = Ok t1 /\
       (t0 ← New 4; insert_all t0 rs2) = Ok t2 /\
       Len t1 = Len t2 /\
       forall IP, asn.Get t1 IP = asn.Get t2 IP).
Proof.
  split.
  - intros rs1 rs2 Hp Hv Hd.
    exact (range_order_independent blocks.LowIP blocks.HighIP
             (fun p => blocks.mkBlock p p 0) Block_Less_range Block_key_point
             rs1 rs2 Hp Hv Hd).
  - intros rs1 rs2 Hp Hv Hd.
    exact (range_order_independent asn.LowIP asn.HighIP
             (fun p => asn.mkASN p p "") ASN_Less_range ASN_key_point
             rs1 rs2 Hp Hv Hd).
Qed.

Lemma lookup_order_independent_witness :
  exists t1 t2 : blocks.Blocks,
    (t0 ← New 4; insert_all t0 three_blocks) = Ok t1 /\
    (t0 ← New 4; insert_all t0 (reverse three_blocks)) = Ok t2 /\
    Len t1 = Len t2 /\
    forall IP, blocks.Get t1 IP = blocks.Get t2 IP.
Proof.
  apply (proj1 lookup_order_independent three_blocks (reverse three_blocks)).
  - symmetry. apply reverse_Permutation.
  - exact three_blocks_valid.
  - exact three_blocks_disjoint.
Defined.

Local Close Scope Z_scope.

(** ** Locations, [init] and [GeoLocIPv4] *)

Section GetAny.
Context {A : Type} {Item_A : Item A}.

(** What a search returns matches the key, in any tree. *)
Lemma get_matches (key : A) : forall h (n : node A) x,
  height n <= h -> get n key = Ok (Some x) -> rank key x = 1.
Proof.
  induction h as [|h IH]; intros n x Hh Hg.
  { pose proof (height_pos n). lia. }
  destruct n as [its chs]. rewrite get_unfold in Hg.
  pose proof (find_found its key) as Hff.
  destruct (find its key) as [i found]. destruct found.
  - destruct (Hff i eq_refl) as (y & Hy & Hr). unfold index in Hg.
    rewrite Hy in Hg. simpl in Hg. by inversion Hg; subst.
  - destruct (0 <? length chs); [|done]. unfold index in Hg.
    destruct (chs !! i) as [c|] eqn:Hc; [|done]. cbn [mbind result_bind] in Hg.
    eapply IH; [|exact Hg]. apply height_le_children in Hh.
    rewrite Forall_forall in Hh. apply Hh. by eapply list_elem_of_lookup_2.
Qed.

Lemma Get_matches (t : BTree A) (key x : A) :
  Get t key = Ok (Some x) -> rank key x = 1.
Proof.
  unfold Get. destruct (root t) as [r|]; [|done]. by apply (get_matches key (height r)).
Qed.

End GetAny.

Local Open Scope Z_scope.

Lemma load_locations_step loc_list values rest :
  load_locations loc_list (values :: rest) =
    match parse_location values with
    | Some p =>
        _ ← index_Z loc_list p.1;
        load_locations (<[Z.to_nat p.1 := p.2]> loc_list) rest
    | None => load_locations loc_list rest
    end.
Proof.
  unfold parse_location. cbn [load_locations].
  destruct values as [|v0 [|v1 [|v2 [|v3 [|v4 [|v5 [|v6 [|v7 [|v8 [|v9 vs]]]]]]]]]]; auto.
  by destruct (Atoi v0).
Qed.

Lemma index_Z_in {B} (s : list B) (i : Z) :
  0 <= i < Z.of_nat (length s) ->
  exists x, index_Z s i = Ok x /\ s !! Z.to_nat i = Some x.
Proof.
  intros Hi. unfold index_Z, index. destruct (Z.ltb_spec i 0); [lia|].
  destruct (lookup_lt_is_Some_2 s (Z.to_nat i)) as [x Hx]; [lia|].
  exists x. by rewrite Hx.
Qed.

(** The loop of [LoadLocFile] with every index inside the slice: it
    returns, and each entry is the location of the last record with that
    index, or what the slice held. *)
Lemma load_locations_spec rs : forall loc_list,
  (forall p, p ∈ omap parse_location rs -> 0 <= p.1 < Z.of_nat (length loc_list)) ->
  exists l, load_locations loc_list rs = Ok l /\ length l = length loc_list /\
    forall k : nat,
      l !! k = match last_with fst (Z.of_nat k) (omap parse_location rs) with
               | Some p => Some p.2
               | None => loc_list !! k
               end.
Proof.
  induction rs as [|values rs IH]; intros loc_list Hr.
  { exists loc_list. by simpl. }
  rewrite load_locations_step. cbn [omap list_omap] in *.
  destruct (parse_location values) as [[id loc]|].
  - assert (Hid : 0 <= id < Z.of_nat (length loc_list)) by (apply (Hr (id, loc)); by left).
    cbn [fst snd].
    destruct (index_Z_in loc_list id Hid) as (x & -> & _). cbn [mbind result_bind].
    destruct (IH (<[Z.to_nat id := loc]> loc_list)) as (l & Hl & Hlen & Hk).
    { intros p Hp. rewrite length_insert. apply Hr. by right. }
    exists l. split; [done|]. rewrite length_insert in Hlen. split; [done|].
    intros k. rewrite Hk. cbn [last_with].
    destruct (last_with fst (Z.of_nat k) (omap parse_location rs)); [done|].
    cbn [fst]. destruct (decide (id = Z.of_nat k)) as [->|Hne].
    + rewrite Nat2Z.id. cbn [snd]. apply list_lookup_insert_eq. lia.
    + apply list_lookup_insert_ne. lia.
  - apply IH. intros p Hp. by apply Hr.
Qed.

Lemma LoadLocFile_spec g w lg line_count rs :
  log_geolocip g = Some lg ->
  locations_file w = Some (line_count, rs) ->
  (forall p, p ∈ omap parse_location rs -> 0 <= p.1 < Z.of_nat line_count) ->
  exists loc_list ct,
    LoadLocFile g w =
      Ok (loc_list, false,
          mkGlobals (locations g) (blocks_ g) (asn_tree g) (log_geolocip g)
                    (Some ct) (regions_loaded w)) /\
    length loc_list = line_count /\
    (forall k, (k < line_count)%nat ->
       loc_list !! k = Some (location_at (omap parse_location rs) k)) /\
    holds_last ct (omap parse_country (countries_list w)).
Proof.
  intros Hlog Hfile Hr. unfold LoadLocFile. rewrite Hfile, Hlog.
  cbn [log mbind result_bind].
  destruct (load_locations_spec rs (replicate line_count empty_Location))
    as (l & -> & Hlen & Hk).
  { intros p Hp. rewrite length_replicate. by apply Hr. }
  cbn [mbind result_bind].
  destruct (LoadCountries_holds_last (countries_list w)) as (ct & -> & Hct).
  cbn [mbind result_bind]. exists l, ct. split; [done|].
  rewrite length_replicate in Hlen. split; [done|]. split; [|done].
  intros k Hlt. rewrite Hk. unfold location_at.
  destruct (last_with fst (Z.of_nat k) (omap parse_location rs)); [done|].
  by apply lookup_replicate_2.
Qed.

(** X11. [LoadLocFile] on a file that opens, whose records of nine
    columns with a number first all have that number from 0 to below the
    count of lines: the load returns a slice with as many entries as lines
    and a nil error; the entry at an index is the location of the last such
    record with that number, with the eight columns after it in their
    order, and the zero [Location] when no record has it; and the table of
    countries is loaded, and [regions_tree] set. *)
Theorem LoadLocFile_by_id (g : Globals) (w : World) (line_count : nat) (rs : rows) :
  log_geolocip g <> None ->
  locations_file w = Some (line_count, rs) ->
  (forall p, p ∈ omap parse_location rs -> 0 <= p.1 < Z.of_nat line_count) ->
  exists loc_list g',
    LoadLocFile g w = Ok (loc_list, false, g') /\
    length loc_list = line_count /\
    (forall k, (k < line_count)%nat ->
       loc_list !! k = Some (location_at (omap parse_location rs) k)) /\
    (exists ct, countries_tree g' = Some ct /\
                countries.LoadCountries (countries_list w) = Ok ct) /\
    regions_tree g' = regions_loaded w /\
    locations g' = locations g /\ blocks_ g' = blocks_ g /\ asn_tree g' = asn_tree g.
Proof.
  intros Hlog Hfile Hr. destruct (log_geolocip g) as [lg|] eqn:Hlg; [|done].
  unfold LoadLocFile. rewrite Hfile, Hlg. cbn [log mbind result_bind].
  destruct (load_locations_spec rs (replicate line_count empty_Location))
    as (l & -> & Hlen & Hk).
  { intros p Hp. rewrite length_replicate. by apply Hr. }
  cbn [mbind result_bind].
  destruct (LoadCountries_holds_last (countries_list w)) as (ct & Hct & _).
  rewrite Hct. cbn [mbind result_bind]. eexists _, _. split; [done|].
  rewrite length_replicate in Hlen. split; [done|]. split.
  - intros k Hlt. rewrite Hk. unfold location_at.
    destruct (last_with fst (Z.of_nat k) (omap parse_location rs)); [done|].
    by apply lookup_replicate_2.
  - simpl. split; [by exists ct|]. done.
Qed.

Lemma LoadLocFile_by_id_witness :
  exists loc_list g',
    LoadLocFile (mkGlobals None None None (Some SyslogWriter) None None) test_world
      = Ok (loc_list, false, g') /\
    length loc_list = 2%nat /\
    (forall k, (k < 2)%nat ->
       loc_list !! k =
         Some (location_at
                 (omap parse_location
                    [["1"; "US"; "VA"; "Ashburn"; "20147"; "39.0335"; "-77.4838";
                      "511"; "703"]]%string) k)) /\
    (exists ct, countries_tree g' = Some ct /\
                countries.LoadCountries (countries_list test_world) = Ok ct) /\
    regions_tree g' = regions_loaded test_world /\
    locations g' = None /\ blocks_ g' = None /\ asn_tree g' = None.
Proof.
  apply (LoadLocFile_by_id (mkGlobals None None None (Some SyslogWriter) None None)
           test_world 2).
  - simpl. discriminate.
  - reflexivity.
  - intros p Hp. vm_compute in Hp. apply list_elem_of_singleton in Hp. subst p.
    simpl. lia.
Defined.

Lemma ipv4_addr_value ip15 ip14 ip13 ip12 :
  0 <= ip15 < 256 -> 0 <= ip14 < 256 -> 0 <= ip13 < 256 -> 0 <= ip12 < 256 ->
  ipv4_addr ip15 ip14 ip13 ip12 = ip12 * 2 ^ 24 + ip13 * 2 ^ 16 + ip14 * 2 ^ 8 + ip15.
Proof.
  intros H15 H14 H13 H12. unfold ipv4_addr, u32.
  rewrite (Z.mod_small (256 * ip12)) by lia.
  rewrite (Z.mod_small (ip13 + 256 * ip12)) by lia.
  rewrite (Z.mod_small (256 * (ip13 + 256 * ip12))) by lia.
  rewrite (Z.mod_small (ip14 + 256 * (ip13 + 256 * ip12))) by lia.
  rewrite (Z.mod_small (256 * (ip14 + 256 * (ip13 + 256 * ip12)))) by lia.
  rewrite Z.mod_small by lia. lia.
Qed.

(** X12. The address [GeoLocIPv4] computes from the last four bytes of
    [ip] is their big-endian value: [uint32] arithmetic does not wrap in
    it, the result is below 2^32, and two addresses with the same value
    have the same four bytes. 54.88.55.63 is 911750975. *)
Theorem ipv4_addr_big_endian :
  (forall ip15 ip14 ip13 ip12,
     0 <= ip15 < 256 -> 0 <= ip14 < 256 -> 0 <= ip13 < 256 -> 0 <= ip12 < 256 ->
     ipv4_addr ip15 ip14 ip13 ip12
       = ip12 * 2 ^ 24 + ip13 * 2 ^ 16 + ip14 * 2 ^ 8 + ip15 /\
     0 <= ipv4_addr ip15 ip14 ip13 ip12 < 2 ^ 32) /\
  (forall a15 a14 a13 a12 b15 b14 b13 b12,
     0 <= a15 < 256 -> 0 <= a14 < 256 -> 0 <= a13 < 256 -> 0 <= a12 < 256 ->
     0 <= b15 < 256 -> 0 <= b14 < 256 -> 0 <= b13 < 256 -> 0 <= b12 < 256 ->
     ipv4_addr a15 a14 a13 a12 = ipv4_addr b15 b14 b13 b12 ->
     a15 = b15 /\ a14 = b14 /\ a13 = b13 /\ a12 = b12) /\
  ipv4_addr 63 55 88 54 = 911750975.
Proof.
  split; [|split].
  - intros ip15 ip14 ip13 ip12 H15 H14 H13 H12.
    rewrite ipv4_addr_value by done. lia.
  - intros a15 a14 a13 a12 b15 b14 b13 b12 ? ? ? ? ? ? ? ?.
    rewrite !ipv4_addr_value by done. lia.
  - reflexivity.
Qed.

Lemma ipv4_addr_big_endian_witness :
  ipv4_addr 63 55 88 54 = 54 * 2 ^ 24 + 88 * 2 ^ 16 + 55 * 2 ^ 8 + 63 /\
  0 <= ipv4_addr 63 55 88 54 < 2 ^ 32.
Proof.
  apply (proj1 ipv4_addr_big_endian 63 55 88 54); lia.
Defined.

(** X13. [GeoLocIPv4] reads [ip[15]] down to [ip[12]] without looking at
    the length of [ip]: with the three tables loaded, a slice of fewer than
    sixteen bytes, such as the four-byte form of an IPv4 address, makes it
    panic with an index out of range. *)
Theorem GeoLocIPv4_short_address (g : Globals) (ip : list Z) :
  locations g <> None -> blocks_ g <> None -> asn_tree g <> None ->
  (length ip < 16)%nat ->
  GeoLocIPv4 g ip = Panic IndexOutOfRange.
Proof.
  intros Hl Hb Ha Hlen. unfold GeoLocIPv4.
  destruct (locations g); [|done]. destruct (blocks_ g); [|done].
  destruct (asn_tree g); [|done].
  assert (E : index ip 15 = Panic IndexOutOfRange).
  { unfold index. by rewrite (lookup_ge_None_2 ip 15) by lia. }
  by rewrite E.
Qed.

Lemma GeoLocIPv4_short_address_witness :
  GeoLocIPv4 test_globals [54; 88; 55; 63] = Panic IndexOutOfRange.
Proof.
  apply (GeoLocIPv4_short_address test_globals [54; 88; 55; 63]);
    simpl; (discriminate || lia).
Defined.

Lemma index_Ok {B} (s : list B) i x : index s i = Ok x -> s !! i = Some x.
Proof. unfold index. destruct (s !! i); [by intros [= ->]|done]. Qed.

Lemma index_Z_Ok {B} (s : list B) i x :
  index_Z s i = Ok x -> 0 <= i /\ s !! Z.to_nat i = Some x.
Proof.
  unfold index_Z. destruct (Z.ltb_spec i 0) as [Hneg|Hpos]; [done|].
  intros Hx%index_Ok. done.
Qed.

Lemma Get_in {A} `{Item A} (t : BTree A) (key x : A) :
  Get t key = Ok (Some x) -> tree_wf t -> x ∈ tree_elements t.
Proof.
  intros HG Hwf. destruct (Get_sound t key Hwf) as (o & Ho & Hin).
  rewrite HG in Ho. inversion Ho; subst o. by apply Hin.
Qed.

Lemma GetCountry_sound ct loc name :
  GetCountry ct loc = Ok name ->
  name = ""%string \/
  exists t c, ct = Some t /\ countries.Get t (Country loc) = Ok (Some c) /\
              countries.Code c = Country loc /\ countries.Name c = name.
Proof.
  unfold GetCountry. destruct ct as [t|]; [|intros [= <-]; by left].
  destruct (countries.Get t (Country loc)) as [[c|]| |] eqn:HG; cbn [mbind result_bind];
    try done; [|intros [= <-]; by left].
  intros [= <-]. right. exists t, c. split; [done|]. split; [done|].
  apply Get_matches, Country_rank1 in HG. simpl in HG. done.
Qed.

(** X14. Whatever the tables hold, what [GeoLocIPv4] returns is
    consistent. In a result that is not nil: [Ip] is the address given;
    [Block] is the record that [Blocks.Get] finds in the blocks table for
    the address computed from the last four bytes, and its range holds that
    address; [Location] is the entry of [locations] at the block's [LocId];
    [Asn] is what [ASNs.Get] finds in the ASN table for the address, and
    its range, when there is one, holds the address; [CountryName] is empty
    or the name of the record that [Countries.Get] finds in the countries
    table for the location's country code, a record with that code;
    [RegionName] is what [GetRegion] gives for the location. Each record
    found is one that its table stores, the table being well formed. *)
Theorem GeoLocIPv4_sound (g : Globals) (ip : list Z) (r : GeoLocIp) :
  GeoLocIPv4 g ip = Ok (Some r) ->
  exists locs blks asns ip15 ip14 ip13 ip12,
    locations g = Some locs /\ blocks_ g = Some blks /\ asn_tree g = Some asns /\
    ip !! 15%nat = Some ip15 /\ ip !! 14%nat = Some ip14 /\
    ip !! 13%nat = Some ip13 /\ ip !! 12%nat = Some ip12 /\
    Ip r = ip /\
    blocks.Get blks (ipv4_addr ip15 ip14 ip13 ip12) = Ok (Some (Block_ r)) /\
    (tree_wf blks -> Block_ r ∈ tree_elements blks) /\
    blocks.LowIP (Block_ r) <= ipv4_addr ip15 ip14 ip13 ip12 <= blocks.HighIP (Block_ r) /\
    0 <= blocks.LocId (Block_ r) /\
    locs !! Z.to_nat (blocks.LocId (Block_ r)) = Some (Location_ r) /\
    asn.Get asns (ipv4_addr ip15 ip14 ip13 ip12) = Ok (ASN_ r) /\
    (forall a, ASN_ r = Some a ->
       (tree_wf asns -> a ∈ tree_elements asns) /\
       asn.LowIP a <= ipv4_addr ip15 ip14 ip13 ip12 <= asn.HighIP a) /\
    (CountryName r = ""%string \/
     exists ct c,
       countries_tree g = Some ct /\
       countries.Get ct (Country (Location_ r)) = Ok (Some c) /\
       (tree_wf ct -> c ∈ tree_elements ct) /\
       countries.Code c = Country (Location_ r) /\
       countries.Name c = CountryName r) /\
    GetRegion (regions_tree g) (Location_ r) = Ok (RegionName r).
Proof.
  unfold GeoLocIPv4. intros H.
  destruct (locations g) as [locs|]; [|by destruct (log (log_geolocip g))].
  destruct (blocks_ g) as [blks|]; [|by destruct (log (log_geolocip g))].
  destruct (asn_tree g) as [asns|]; [|by destruct (log (log_geolocip g))].
  destruct (index ip 15) as [ip15| |] eqn:H15; try done.
  destruct (index ip 14) as [ip14| |] eqn:H14; try done.
  destruct (index ip 13) as [ip13| |] eqn:H13; try done.
  destruct (index ip 12) as [ip12| |] eqn:H12; try done.
  cbn [mbind result_bind] in H.
  set (addr := ipv4_addr ip15 ip14 ip13 ip12) in *.
  destruct (blocks.Get blks addr) as [[b|]| |] eqn:Hb; try done;
    [|by destruct (log (log_geolocip g))].
  cbn [mbind result_bind] in H.
  destruct (index_Z locs (blocks.LocId b)) as [location| |] eqn:Hloc; try done.
  cbn [mbind result_bind] in H.
  destruct (GetCountry (countries_tree g) location) as [country| |] eqn:Hc; try done.
  cbn [mbind result_bind] in H.
  destruct (GetRegion (regions_tree g) location) as [region| |] eqn:Hreg; try done.
  cbn [mbind result_bind] in H.
  destruct (asn.Get asns addr) as [a| |] eqn:Ha; try done.
  cbn [mbind result_bind] in H. inversion H; subst r; clear H. cbn.
  exists locs, blks, asns, ip15, ip14, ip13, ip12.
  apply index_Ok in H15, H14, H13, H12. apply index_Z_Ok in Hloc as [Hid Hloc].
  repeat (split; [done|]).
  split; [by apply (Get_in blks _ b Hb)|].
  split.
  { apply Get_matches, rank_1 in Hb. rewrite !Block_Less_range in Hb. simpl in Hb.
    destruct Hb as [H1%Z.ltb_ge H2%Z.ltb_ge]. lia. }
  split; [done|]. split; [done|]. split; [done|]. split.
  { intros x ->. split; [by apply (Get_in asns _ x Ha)|].
    apply Get_matches, rank_1 in Ha. rewrite !ASN_Less_range in Ha.
    simpl in Ha. destruct Ha as [H1%Z.ltb_ge H2%Z.ltb_ge]. lia. }
  split; [|done].
  apply GetCountry_sound in Hc as [->|(t & c & Ht & HG & Hcode & Hname)]; [by left|].
  right. exists t, c. split; [done|]. split; [done|].
  split; [by apply (Get_in t _ c HG)|]. done.
Qed.

Lemma GeoLocIPv4_test_ip :
  GeoLocIPv4 test_globals test_ip =
    Ok (Some (mkGeoLocIp test_ip test_block test_location (Some test_asn)
                         "Etats-Unis" "")).
Proof. vm_compute. reflexivity. Qed.

Lemma GeoLocIPv4_sound_witness :
  exists locs blks asns ip15 ip14 ip13 ip12,
    locations test_globals = Some locs /\ blocks_ test_globals = Some blks /\
    asn_tree test_globals = Some asns /\
    test_ip !! 15%nat = Some ip15 /\ test_ip !! 14%nat = Some ip14 /\
    test_ip !! 13%nat = Some ip13 /\ test_ip !! 12%nat = Some ip12 /\
    test_ip = test_ip /\
    blocks.Get blks (ipv4_addr ip15 ip14 ip13 ip12) = Ok (Some test_block) /\
    (tree_wf blks -> test_block ∈ tree_elements blks) /\
    blocks.LowIP test_block <= ipv4_addr ip15 ip14 ip13 ip12 <= blocks.HighIP test_block /\
    0 <= blocks.LocId test_block /\
    locs !! Z.to_nat (blocks.LocId test_block) = Some test_location /\
    asn.Get asns (ipv4_addr ip15 ip14 ip13 ip12) = Ok (Some test_asn) /\
    (forall a, Some test_asn = Some a ->
       (tree_wf asns -> a ∈ tree_elements asns) /\
       asn.LowIP a <= ipv4_addr ip15 ip14 ip13 ip12 <= asn.HighIP a) /\
    ("Etats-Unis"%string = ""%string \/
     exists ct c,
       countries_tree test_globals = Some ct /\
       countries.Get ct (Country test_location) = Ok (Some c) /\
       (tree_wf ct -> c ∈ tree_elements ct) /\
       countries.Code c = Country test_location /\
       countries.Name c = "Etats-Unis"%string) /\
    GetRegion (regions_tree test_globals) test_location = Ok ""%string.
Proof.
  exact (GeoLocIPv4_sound test_globals test_ip _ GeoLocIPv4_test_ip).
Defined.

Lemma GetRegion_returns rt loc :
  (forall t, rt = Some t -> tree_wf t) -> exists region, GetRegion rt loc = Ok region.
Proof.
  intros Hwf. unfold GetRegion. destruct rt as [t|]; [|by eexists].
  unfold regions.Get.
  destruct (Get_sound t (regions.mkRegion (Country loc ++ Region loc) "") (Hwf t eq_refl))
    as (o & -> & _).
  cbn [mbind result_bind]. destruct o; by eexists.
Qed.

Lemma init_loaded w lg loc_list ct (bt : blocks.Blocks) (at_ : asn.ASNs) :
  syslog w = Some lg ->
  LoadLocFile (mkGlobals None None None (Some lg) None None) w =
    Ok (loc_list, false, mkGlobals None None None (Some lg) (Some ct) (regions_loaded w)) ->
  blocks.LoadBlocksFile (Some lg) (blocks_file w) = Ok (Some bt, false) ->
  asn.LoadASNFile (Some lg) (asn_file w) = Ok (Some at_, false) ->
  init w = Ok (mkGlobals (Some loc_list) (Some bt) (Some at_) (Some lg) (Some ct)
                         (regions_loaded w)).
Proof.
  intros Hs HL HB HA. unfold init. rewrite Hs.
  cbn [log log_geolocip mbind result_bind]. rewrite HL.
  unfold set_locations, set_blocks, set_asn_tree.
  cbn [log log_geolocip mbind result_bind blocks_ asn_tree
       countries_tree regions_tree locations].
  rewrite HB.
  cbn [log log_geolocip mbind result_bind blocks_ asn_tree
       countries_tree regions_tree locations].
  rewrite HA.
  cbn [log log_geolocip mbind result_bind blocks_ asn_tree
       countries_tree regions_tree locations].
  done.
Qed.

(** X15. From [init], past its call of [DownloadMaxmindFiles], to the
    lookup. With syslog open, the three files opened, every location number
    inside the count of lines, and the records of the blocks file and of
    the ASN file, read before the first line that the csv reader refuses,
    giving ranges with [low <= high] that do not overlap within a file:
    [init] returns with the tables loaded, and for every address of sixteen
    bytes [GeoLocIPv4] returns nil when no block holds the address computed
    from its last four bytes, and otherwise, the block's [LocId] being
    below the count of lines, ends as [GetRegion] does on the location
    loaded at that [LocId]: with the region name that gives, it returns the
    record made of the address, that block, that location, the ASN record
    whose range holds the address (nil when there is none), the name of the
    country of the location's code and the region name. [GetRegion] does
    return when the regions table is well formed. *)
Theorem init_then_GeoLocIPv4 (w : World) (line_count : nat) (lrows : rows)
    (breads areads : reads) :
  syslog w <> None ->
  locations_file w = Some (line_count, lrows) ->
  blocks_file w = Some breads ->
  asn_file w = Some areads ->
  (forall p, p ∈ omap parse_location lrows -> 0 <= p.1 < Z.of_nat line_count) ->
  Forall (fun r => blocks.LowIP r <= blocks.HighIP r)
    (omap parse_block (read_records breads)) ->
  (forall i j a b, i <> j ->
     omap parse_block (read_records breads) !! i = Some a ->
     omap parse_block (read_records breads) !! j = Some b ->
     blocks.HighIP a < blocks.LowIP b \/ blocks.HighIP b < blocks.LowIP a) ->
  Forall (fun r => asn.LowIP r <= asn.HighIP r)
    (omap parse_asn (read_records areads)) ->
  (forall i j a b, i <> j ->
     omap parse_asn (read_records areads) !! i = Some a ->
     omap parse_asn (read_records areads) !! j = Some b ->
     asn.HighIP a < asn.LowIP b \/ asn.HighIP b < asn.LowIP a) ->
  exists g,
    init w = Ok g /\
    forall ip ip15 ip14 ip13 ip12,
      ip !! 15%nat = Some ip15 -> ip !! 14%nat = Some ip14 ->
      ip !! 13%nat = Some ip13 -> ip !! 12%nat = Some ip12 ->
      ((forall b, b ∈ omap parse_block (read_records breads) ->
          ~ (blocks.LowIP b <= ipv4_addr ip15 ip14 ip13 ip12 <= blocks.HighIP b)) ->
       GeoLocIPv4 g ip = Ok None) /\
      (forall b,
         b ∈ omap parse_block (read_records breads) ->
         blocks.LowIP b <= ipv4_addr ip15 ip14 ip13 ip12 <= blocks.HighIP b ->
         blocks.LocId b < Z.of_nat line_count ->
         exists a,
           GeoLocIPv4 g ip =
             match GetRegion (regions_loaded w)
                     (location_at (omap parse_location lrows)
                                  (Z.to_nat (blocks.LocId b))) with
             | Ok region =>
                 Ok (Some (mkGeoLocIp ip b
                             (location_at (omap parse_location lrows)
                                          (Z.to_nat (blocks.LocId b)))
                             a
                             (country_name
                                (omap parse_country (countries_list w))
                                (Country (location_at (omap parse_location lrows)
                                                      (Z.to_nat (blocks.LocId b)))))
                             region))
             | Panic e => Panic e
             | OutOfFuel => OutOfFuel
             end /\
           (forall x, x ∈ omap parse_asn (read_records areads) ->
              asn.LowIP x <= ipv4_addr ip15 ip14 ip13 ip12 <= asn.HighIP x ->
              a = Some x) /\
           ((forall x, x ∈ omap parse_asn (read_records areads) ->
               ~ (asn.LowIP x <= ipv4_addr ip15 ip14 ip13 ip12 <= asn.HighIP x)) ->
            a = None) /\
           ((forall rt, regions_loaded w = Some rt -> tree_wf rt) ->
            exists region,
              GetRegion (regions_loaded w)
                        (location_at (omap parse_location lrows)
                                     (Z.to_nat (blocks.LocId b))) = Ok region)).
Proof.
  intros Hsys Hlf Hbf Haf Hids Hbv Hbd Hav Had.
  destruct (syslog w) as [lg|] eqn:Hs; [|done]. clear Hsys.
  destruct (LoadLocFile_spec (mkGlobals None None None (Some lg) None None) w lg
              line_count lrows eq_refl Hlf Hids) as (locs & ct & HL & Hlen & Hlocs & Hct).
  cbn [locations blocks_ asn_tree log_geolocip] in HL.
  destruct (range_index_lookup blocks.LowIP blocks.HighIP (fun p => blocks.mkBlock p p 0)
              Block_Less_range Block_key_point _ Hbv Hbd) as (bt & Hbt & _ & Hbget).
  destruct (range_index_lookup asn.LowIP asn.HighIP (fun p => asn.mkASN p p "")
              ASN_Less_range ASN_key_point _ Hav Had) as (at_ & Hat & _ & Haget).
  destruct (built_any (omap parse_asn (read_records areads)))
    as (at2 & Hat2 & [Hawf _] & _).
  rewrite Hat in Hat2. inversion Hat2; subst at2; clear Hat2.
  exists (mkGlobals (Some locs) (Some bt) (Some at_) (Some lg) (Some ct) (regions_loaded w)).
  split.
  { apply init_loaded; [done|done| |].
    - rewrite Hbf. apply LoadBlocksFile_reads; [by left|done].
    - rewrite Haf. apply LoadASNFile_reads; [by left|done]. }
  intros ip ip15 ip14 ip13 ip12 H15 H14 H13 H12.
  set (addr := ipv4_addr ip15 ip14 ip13 ip12).
  destruct (Hbget addr) as [Hbin Hbout].
  split.
  - intros Hnone. unfold GeoLocIPv4.
    cbn [locations blocks_ asn_tree log_geolocip countries_tree regions_tree].
    unfold index. rewrite H15, H14, H13, H12. cbn [mbind result_bind].
    fold addr. unfold blocks.Get. rewrite (Hbout Hnone). done.
  - intros b Hb Hholds Hid.
    set (loc := location_at (omap parse_location lrows) (Z.to_nat (blocks.LocId b))).
    assert (Hid0 : 0 <= blocks.LocId b)
      by (apply (parse_block_range b (read_records breads) Hb)).
    assert (Hloc : index_Z locs (blocks.LocId b) = Ok loc).
    { destruct (index_Z_in locs (blocks.LocId b)) as (x & Hx & Hx'); [lia|].
      rewrite Hx. f_equal. rewrite Hlocs in Hx' by lia. by inversion Hx'. }
    destruct (range_get_sound asn.LowIP asn.HighIP (fun p => asn.mkASN p p "")
                ASN_Less_range ASN_key_point at_ addr Hawf) as (a & Ha & _).
    destruct (Haget addr) as [Hain Haout].
    exists a. split; [|split; [|split]].
    + unfold GeoLocIPv4.
      cbn [locations blocks_ asn_tree log_geolocip countries_tree regions_tree].
      unfold index. rewrite H15, H14, H13, H12. cbn [mbind result_bind].
      fold addr. unfold blocks.Get. rewrite (Hbin b Hb Hholds). cbn [mbind result_bind].
      rewrite Hloc. cbn [mbind result_bind].
      rewrite (GetCountry_loaded ct _ loc Hct). cbn [mbind result_bind].
      destruct (GetRegion (regions_loaded w) loc) as [region| |]; try done.
      cbn [mbind result_bind]. unfold asn.Get. rewrite Ha. done.
    + intros x Hx Hxh. specialize (Hain x Hx Hxh). rewrite Ha in Hain. by inversion Hain.
    + intros Hnone. specialize (Haout Hnone). rewrite Ha in Haout. by inversion Haout.
    + intros Hreg. by apply GetRegion_returns.
Qed.

Lemma init_then_GeoLocIPv4_witness :
  exists g,
    init test_world = Ok g /\
    exists a,
      GeoLocIPv4 g test_ip =
        Ok (Some (mkGeoLocIp test_ip test_block test_location a "Etats-Unis" "")) /\
      a = Some test_asn.
Proof.
  destruct (init_then_GeoLocIPv4 test_world 2
              [["1"; "US"; "VA"; "Ashburn"; "20147"; "39.0335"; "-77.4838";
                "511"; "703"]]%string
              [Values ["911750912"; "911751167"; "1"]]%string
              [Values ["911212544"; "912261119"; "AS14618 Amazon.com, Inc."]]%string)
    as (g & Hinit & Hget).
  - simpl. discriminate.
  - reflexivity.
  - reflexivity.
  - reflexivity.
  - intros p Hp. vm_compute in Hp. apply list_elem_of_singleton in Hp. subst p.
    simpl. lia.
  - repeat constructor. simpl. lia.
  - intros [|i] [|j] a b Hij Ha Hb; done.
  - repeat constructor. simpl. lia.
  - intros [|i] [|j] a b Hij Ha Hb; done.
  - exists g. split; [done|].
    destruct (Hget test_ip 63 55 88 54 eq_refl eq_refl eq_refl eq_refl) as [_ Hfound].
    destruct (Hfound test_block) as (a & HG & Hin & _ & _).
    + vm_compute. by left.
    + vm_compute. split; discriminate.
    + vm_compute. reflexivity.
    + exists a. split; [rewrite HG; reflexivity|].
      apply Hin; [vm_compute; by left|]. vm_compute. split; discriminate.
Defined.

(** X16. [init], past its call of [DownloadMaxmindFiles], returns whenever
    every location number is inside the count of lines. It leaves the log
    writer as [syslog.New] gave it; the three tables [GeoLocIPv4] asks for
    are all loaded exactly when syslog opened and the three files opened;
    the ASN table is never loaded without the blocks table; and once syslog
    is open [locations] is not nil, even when the locations file could not
    be opened (it is then the empty slice). *)
Theorem init_ready_iff (w : World) :
  (forall line_count rs,
     locations_file w = Some (line_count, rs) ->
     forall p, p ∈ omap parse_location rs -> 0 <= p.1 < Z.of_nat line_count) ->
  exists g,
    init w = Ok g /\
    log_geolocip g = syslog w /\
    ((locations g <> None /\ blocks_ g <> None /\ asn_tree g <> None) <->
     (syslog w <> None /\ locations_file w <> None /\
      blocks_file w <> None /\ asn_file w <> None)) /\
    (blocks_ g = None -> asn_tree g = None) /\
    (syslog w <> None -> locations g <> None) /\
    (syslog w <> None -> locations_file w = None -> locations g = Some []).
Proof.
  intros Hids. remember (init w) as r eqn:Hr. unfold init in Hr.
  destruct (syslog w) as [lg|] eqn:Hs.
  2:{ subst r. eexists. split; [done|]. simpl. split; [done|].
      split; [split; [by intros [? _]|by intros [? _]]|]. done. }
  cbn [log log_geolocip mbind result_bind] in Hr.
  destruct (locations_file w) as [[n lrows]|] eqn:Hlf.
  2:{ unfold LoadLocFile in Hr. rewrite Hlf in Hr.
      cbn [log log_geolocip mbind result_bind] in Hr.
      unfold set_locations in Hr. cbn [log log_geolocip mbind result_bind] in Hr.
      subst r. eexists. split; [done|]. simpl. split; [done|].
      split; [split; [by intros (_ & ? & _)|by intros (_ & ? & _)]|]. done. }
  destruct (LoadLocFile_spec (mkGlobals None None None (Some lg) None None) w lg
              n lrows eq_refl Hlf (Hids n lrows eq_refl)) as (locs & ct & HL & _).
  cbn [locations blocks_ asn_tree log_geolocip] in HL. rewrite HL in Hr.
  unfold set_locations, set_blocks, set_asn_tree in Hr.
  cbn [log log_geolocip mbind result_bind blocks_ asn_tree
       countries_tree regions_tree locations] in Hr.
  destruct (blocks_file w) as [brows|] eqn:Hbf.
  2:{ cbn [blocks.LoadBlocksFile log log_geolocip mbind result_bind blocks_ asn_tree
           countries_tree regions_tree locations] in Hr.
      subst r. eexists. split; [done|]. simpl. split; [done|].
      split; [split; [by intros (_ & ? & _)|by intros (_ & _ & ? & _)]|]. done. }
  destruct (built_any (omap parse_block (read_records brows))) as (bt & Hbt & _).
  rewrite (LoadBlocksFile_reads (Some lg) brows bt (or_introl (Some_ne_None lg)) Hbt) in Hr.
  cbn [log log_geolocip mbind result_bind blocks_ asn_tree
       countries_tree regions_tree locations] in Hr.
  destruct (asn_file w) as [arows|] eqn:Haf.
  2:{ cbn [asn.LoadASNFile log log_geolocip mbind result_bind blocks_ asn_tree
           countries_tree regions_tree locations] in Hr.
      subst r. eexists. split; [done|]. simpl. split; [done|].
      split; [split; [by intros (_ & _ & ?)|by intros (_ & _ & _ & ?)]|]. done. }
  destruct (built_any (omap parse_asn (read_records arows))) as (at_ & Hat & _).
  rewrite (LoadASNFile_reads (Some lg) arows at_ (or_introl (Some_ne_None lg)) Hat) in Hr.
  cbn [log log_geolocip mbind result_bind blocks_ asn_tree
       countries_tree regions_tree locations] in Hr.
  subst r. eexists. split; [done|]. simpl. split; [done|].
  split; [|done]. split; intros _; repeat split; done.
Qed.

Lemma init_ready_iff_witness :
  exists g,
    init test_world = Ok g /\
    log_geolocip g = syslog test_world /\
    ((locations g <> None /\ blocks_ g <> None /\ asn_tree g <> None) <->
     (syslog test_world <> None /\ locations_file test_world <> None /\
      blocks_file test_world <> None /\ asn_file test_world <> None)) /\
    (blocks_ g = None -> asn_tree g = None) /\
    (syslog test_world <> None -> locations g <> None) /\
    (syslog test_world <> None -> locations_file test_world = None ->
     locations g = Some []).
Proof.
  apply (init_ready_iff test_world).
  intros line_count rs Hf p Hp. vm_compute in Hf. inversion Hf; subst.
  vm_compute in Hp. apply list_elem_of_singleton in Hp. subst p. simpl. lia.
Defined.

(** X20. [GeoLocIPv4] looks at the bytes 12 to 15 of [ip] and at nothing
    else of it: two addresses with the same bytes there get the same
    answer, panic or nil or record, the records differing in their [Ip]
    field only. In particular it does not look whether the address is an
    IPv4 address: an IPv6 address is answered as the IPv4 address made of
    its last four bytes. *)
Theorem GeoLocIPv4_last_four_bytes (g : Globals) (ip ip' : list Z) :
  (forall i, (12 <= i < 16)%nat -> ip' !! i = ip !! i) ->
  GeoLocIPv4 g ip' =
    match GeoLocIPv4 g ip with
    | Ok r => Ok (option_map (with_Ip ip') r)
    | Panic e => Panic e
    | OutOfFuel => OutOfFuel
    end.
Proof.
  intros Hsame. unfold GeoLocIPv4.
  destruct (locations g) as [locs|]; [|by destruct (log (log_geolocip g))].
  destruct (blocks_ g) as [blks|]; [|by destruct (log (log_geolocip g))].
  destruct (asn_tree g) as [asns|]; [|by destruct (log (log_geolocip g))].
  unfold index.
  rewrite (Hsame 15%nat), (Hsame 14%nat), (Hsame 13%nat), (Hsame 12%nat) by lia.
  destruct (ip !! 15%nat) as [ip15|]; [|done].
  destruct (ip !! 14%nat) as [ip14|]; [|done].
  destruct (ip !! 13%nat) as [ip13|]; [|done].
  destruct (ip !! 12%nat) as [ip12|]; [|done].
  cbn [mbind result_bind].
  destruct (blocks.Get blks (ipv4_addr ip15 ip14 ip13 ip12)) as [[b|]| |]; try done;
    [|by destruct (log (log_geolocip g))].
  cbn [mbind result_bind].
  destruct (index_Z locs (blocks.LocId b)) as [location| |]; try done.
  cbn [mbind result_bind].
  destruct (GetCountry (countries_tree g) location) as [country| |]; try done.
  cbn [mbind result_bind].
  destruct (GetRegion (regions_tree g) location) as [region| |]; try done.
  cbn [mbind result_bind].
  by destruct (asn.Get asns (ipv4_addr ip15 ip14 ip13 ip12)) as [a| |].
Qed.

Lemma GeoLocIPv4_last_four_bytes_witness :
  GeoLocIPv4 test_globals test_ip6 =
    match GeoLocIPv4 test_globals test_ip with
    | Ok r => Ok (option_map (with_Ip test_ip6) r)
    | Panic e => Panic e
    | OutOfFuel => OutOfFuel
    end.
Proof.
  apply (GeoLocIPv4_last_four_bytes test_globals test_ip test_ip6).
  intros i Hi.
  destruct i as [|[|[|[|[|[|[|[|[|[|[|[|[|[|[|[|i]]]]]]]]]]]]]]]]; (lia || reflexivity).
Defined.

Local Close Scope Z_scope.

(** ** Fetching the files *)

Local Open Scope Z_scope.

Lemma quot_24 h : exists r, h = 24 * (h ÷ 24) + r /\
  (0 <= h -> 0 <= r < 24) /\ (h <= 0 -> -24 < r <= 0).
Proof.
  exists (Z.rem h 24). split; [apply Z.quot_rem'|]. split; intros Hh.
  - apply Z.rem_bound_pos; lia.
  - pose proof (Z.rem_bound_pos_neg h 24 ltac:(lia) Hh). lia.
Qed.

(** X18. The age in days that [ageFile] gives is the number of hours
    divided by 24 and cut toward zero, and -1 for a file that [os.Stat]
    does not find. So an archive is fetched again exactly when it is
    missing, at least 192 hours old, or stamped 24 to 47 hours in the
    future, which gives -1 as a missing file does; a file stamped further
    in the future is never fetched again. *)
Theorem ageFile_days :
  ageFile None = -1 /\
  (forall hours, 0 <= hours ->
     24 * ageFile (Some hours) <= hours < 24 * ageFile (Some hours) + 24) /\
  (forall hours, hours <= 0 ->
     24 * ageFile (Some hours) - 24 < hours <= 24 * ageFile (Some hours)) /\
  (forall hours, ageFile (Some hours) = -1 <-> -48 < hours <= -24) /\
  (forall stat, stale stat = true <->
     stat = None \/ exists hours, stat = Some hours /\ (192 <= hours \/ -48 < hours <= -24)) /\
  (forall hours, hours <= -48 -> stale (Some hours) = false).
Proof.
  assert (Hm1 : forall hours, ageFile (Some hours) = -1 <-> -48 < hours <= -24).
  { intros h. simpl. destruct (quot_24 h) as (r & Hr & Hpos & Hneg).
    destruct (Z.le_gt_cases 0 h) as [Hh|Hh].
    - specialize (Hpos Hh). lia.
    - specialize (Hneg ltac:(lia)). lia. }
  assert (H8 : forall hours, 8 <= ageFile (Some hours) <-> 192 <= hours).
  { intros h. simpl. destruct (quot_24 h) as (r & Hr & Hpos & Hneg).
    destruct (Z.le_gt_cases 0 h) as [Hh|Hh].
    - specialize (Hpos Hh). lia.
    - specialize (Hneg ltac:(lia)). lia. }
  split; [done|]. split; [|split; [|split; [done|split]]].
  - intros h Hh. simpl. destruct (quot_24 h) as (r & Hr & Hpos & _).
    specialize (Hpos Hh). lia.
  - intros h Hh. simpl. destruct (quot_24 h) as (r & Hr & _ & Hneg).
    specialize (Hneg Hh). lia.
  - intros [h|]; unfold stale.
    + rewrite orb_true_iff, Z.eqb_eq, Z.leb_le, Hm1, H8. split.
      * intros [H|H]; right; exists h; split; auto.
      * intros [H|(h' & [= <-] & [H|H])]; [done|by right|by left].
    + split; [by left|done].
  - intros h Hh. unfold stale. apply orb_false_iff. split.
    + apply Z.eqb_neq. rewrite Hm1. lia.
    + apply Z.leb_gt. pose proof (H8 h). lia.
Qed.

Lemma ageFile_days_witness :
  24 * ageFile (Some 200) <= 200 < 24 * ageFile (Some 200) + 24 /\
  stale (Some (-100)) = false.
Proof.
  destruct ageFile_days as (_ & H1 & _ & _ & _ & H5). split.
  - apply (H1 200). lia.
  - apply (H5 (-100)). lia.
Defined.

Lemma refresh_spec lg stat io url filename ev :
  refresh (Some lg) stat io url filename ev =
    Ok (if stale stat then match io with Copied => false | _ => true end else false,
        ev ++ if stale stat then [Download url filename] else []).
Proof.
  unfold refresh, stale. destruct ((ageFile stat =? -1) || (8 <=? ageFile stat)).
  - by destruct io.
  - simpl. by rewrite app_nil_r.
Qed.

Lemma extractFile_spec lg io :
  extractFile (Some lg) io =
    Ok (match io with Extracted _ => false | _ => true end).
Proof. by destruct io. Qed.

Lemma extract_city_nil lg files : forall ev ev',
  extract_city (Some lg) files ev = Ok (None, ev') ->
  ev' = ev ++ city_extractions files /\
  forall f, f ∈ files -> wanted f -> exists c, f.2 = Extracted c.
Proof.
  induction files as [|f rest IH]; intros ev ev' H.
  { simpl in H. inversion H; subst. split; [by rewrite app_nil_r|].
    intros f Hf. by apply elem_of_nil in Hf. }
  cbn [extract_city] in H. unfold city_extractions. cbn [omap list_omap].
  fold (city_extractions rest). unfold wanted.
  destruct (String.eqb_spec (Base f.1) file_blocks) as [Hb|Hb].
  - rewrite extractFile_spec in H. cbn [mbind result_bind] in H.
    destruct (f.2) as [| |c] eqn:Hx; try done.
    apply IH in H as [-> Hall]. split; [by rewrite <- app_assoc|].
    intros g Hg. apply elem_of_cons in Hg as [->|Hg]; [|by apply Hall].
    intros _. by exists c.
  - destruct (String.eqb_spec (Base f.1) file_location) as [Hl|Hl].
    + rewrite extractFile_spec in H. cbn [mbind result_bind] in H.
      destruct (f.2) as [| |c] eqn:Hx; try done.
      apply IH in H as [-> Hall]. split; [by rewrite <- app_assoc|].
      intros g Hg. apply elem_of_cons in Hg as [->|Hg]; [|by apply Hall].
      intros _. by exists c.
    + apply IH in H as [-> Hall]. split; [done|].
      intros g Hg. apply elem_of_cons in Hg as [->|Hg]; [|by apply Hall].
      by intros [?|?].
Qed.

Lemma extract_city_skip w files : forall ev,
  Forall (fun f => ~ wanted f) files ->
  extract_city w files ev = Ok (None, ev).
Proof.
  induction files as [|f rest IH]; intros ev Hn; [done|].
  apply Forall_cons in Hn as [Hf Hn]. cbn [extract_city]. unfold wanted in Hf.
  destruct (String.eqb_spec (Base f.1) file_blocks); [tauto|].
  destruct (String.eqb_spec (Base f.1) file_location); [tauto|].
  by apply IH.
Qed.

(** X19. [DownloadMaxmindFiles] with the log writer nil panics before it
    does anything. With the writer open: when the ASN archive opens and
    holds no file, it panics at [asn_zip.File[0]]; when it returns nil, the
    first file of the ASN archive was named GeoIPASNum2.csv, and what was
    done is, in this order and nothing else: the download of the ASN
    archive if it was missing or old, the extraction of that first file to
    the ASN path, the download of the city archive if it was missing or
    old, and the extraction of every file of the city archive whose base
    name is that of the blocks file or the locations file, each to its
    path, every one of these extractions having got to its copy. It also
    returns nil when no file of the city archive has either base name:
    that the blocks and the locations were found is not looked at. *)
Theorem DownloadMaxmindFiles_outcomes :
  (forall o, DownloadMaxmindFiles None o = Panic NilDereference) /\
  (forall lg o,
     (stale (stat_asn o) = true -> get_asn o = Copied) ->
     zip_asn o = Some [] ->
     DownloadMaxmindFiles (Some lg) o = Panic IndexOutOfRange) /\
  (forall lg o ev,
     DownloadMaxmindFiles (Some lg) o = Ok (None, ev) ->
     exists c rest city_files,
       zip_asn o = Some ((file_asn, Extracted c) :: rest) /\
       zip_city o = Some city_files /\
       (stale (stat_asn o) = true -> get_asn o = Copied) /\
       (stale (stat_city o) = true -> get_city o = Copied) /\
       (forall f, f ∈ city_files -> wanted f -> exists c, f.2 = Extracted c) /\
       ev = (if stale (stat_asn o) then [Download url_zipfile_asn zipfile_asn] else []) ++
            [Extract file_asn ASN_FILE] ++
            (if stale (stat_city o) then [Download url_zipfile_city zipfile_city] else []) ++
            city_extractions city_files) /\
  (forall lg o c rest city_files,
     stale (stat_asn o) = false -> stale (stat_city o) = false ->
     zip_asn o = Some ((file_asn, Extracted c) :: rest) ->
     zip_city o = Some city_files ->
     Forall (fun f => ~ wanted f) city_files ->
     DownloadMaxmindFiles (Some lg) o = Ok (None, [Extract file_asn ASN_FILE])).
Proof.
  split; [|split; [|split]].
  - intros o. unfold DownloadMaxmindFiles, refresh.
    by destruct ((ageFile (stat_asn o) =? -1) || (8 <=? ageFile (stat_asn o))).
  - intros lg o Hget Hzip. unfold DownloadMaxmindFiles.
    rewrite refresh_spec. cbn [mbind result_bind].
    destruct (stale (stat_asn o)); [rewrite Hget by done|]; by rewrite Hzip.
  - intros lg o ev H. unfold DownloadMaxmindFiles in H.
    rewrite refresh_spec in H. cbn [mbind result_bind] in H.
    assert (Hga : stale (stat_asn o) = true -> get_asn o = Copied).
    { intros Hs. rewrite Hs in H. by destruct (get_asn o). }
    assert (Herr : (if stale (stat_asn o)
                    then match get_asn o with Copied => false | _ => true end
                    else false) = false).
    { destruct (stale (stat_asn o)); [by rewrite Hga|done]. }
    rewrite Herr in H. clear Herr.
    destruct (zip_asn o) as [[|[first io] rest]|]; try done.
    cbn [index lookup list_lookup mbind result_bind fst snd] in H.
    destruct (String.eqb_spec first file_asn) as [->|]; [|done].
    cbn [negb] in H. rewrite extractFile_spec in H. cbn [mbind result_bind] in H.
    destruct io as [| |c]; try done.
    rewrite refresh_spec in H. cbn [mbind result_bind] in H.
    assert (Hgc : stale (stat_city o) = true -> get_city o = Copied).
    { intros Hs. rewrite Hs in H. by destruct (get_city o). }
    assert (Herr : (if stale (stat_city o)
                    then match get_city o with Copied => false | _ => true end
                    else false) = false).
    { destruct (stale (stat_city o)); [by rewrite Hgc|done]. }
    rewrite Herr in H. clear Herr.
    destruct (zip_city o) as [city_files|]; [|done].
    apply extract_city_nil in H as [-> Hall].
    exists c, rest, city_files. split; [done|]. split; [done|].
    split; [done|]. split; [done|]. split; [done|].
    by rewrite <- !app_assoc.
  - intros lg o c rest city_files Hsa Hsc Hza Hzc Hnone.
    unfold DownloadMaxmindFiles.
    rewrite refresh_spec, Hsa. cbn [mbind result_bind]. rewrite Hza.
    cbn [index lookup list_lookup mbind result_bind fst snd].
    rewrite String.eqb_refl. cbn [negb].
    rewrite extractFile_spec. cbn [mbind result_bind].
    rewrite refresh_spec, Hsc. cbn [mbind result_bind]. rewrite Hzc.
    cbn [app]. by apply extract_city_skip.
Qed.

Lemma DownloadMaxmindFiles_outcomes_witness :
  exists c rest city_files,
    zip_asn fine_outside = Some ((file_asn, Extracted c) :: rest) /\
    zip_city fine_outside = Some city_files /\
    (stale (stat_asn fine_outside) = true -> get_asn fine_outside = Copied) /\
    (stale (stat_city fine_outside) = true -> get_city fine_outside = Copied) /\
    (forall f, f ∈ city_files -> wanted f -> exists c, f.2 = Extracted c) /\
    [Extract "GeoIPASNum2.csv" "/tmp/GeoIPASNum2.csv";
     Extract "GeoLiteCity_20150106/GeoLiteCity-Blocks.csv" "/tmp/GeoLiteCity-Blocks.csv";
     Extract "GeoLiteCity_20150106/GeoLiteCity-Location.csv"
             "/tmp/GeoLiteCity-Location.csv"]%string =
      (if stale (stat_asn fine_outside)
       then [Download url_zipfile_asn zipfile_asn] else []) ++
      [Extract file_asn ASN_FILE] ++
      (if stale (stat_city fine_outside)
       then [Download url_zipfile_city zipfile_city] else []) ++
      city_extractions city_files.
Proof.
  apply (proj1 (proj2 (proj2 DownloadMaxmindFiles_outcomes)) SyslogWriter fine_outside).
  vm_compute. reflexivity.
Defined.

Local Close Scope Z_scope.
